(** * Kinship inference engine of the genealogy analyzer (src/App.jsx)

    A shallow embedding of the relationship classifier ([buildIndexes],
    [getAncestors], [findLCA], [pathToAncestor], [relationLabel]), of the
    phrase compiler ([normalizeText], [parseRelativeSpec],
    [parseSiblingConnector], [buildGraphFromSibling],
    [parseAdvancedKinship]) and of the edge insertion of the editor
    ([addParentChild]).

    Conventions of the embedding.
    - A JavaScript string is the list of its UTF-16 code units; the string
      literals of the source are written [js "..."].
    - A JavaScript number that holds an integer is a [Z].
    - A plain object used as a dictionary is modelled by its own properties:
      [gmap] where only lookups are made, an insertion-ordered association
      list ([obj]) where [Object.keys] is iterated.  This is the code for
      identifiers that are not names of members of [Object.prototype]
      ([plain]); the section on plain objects gives the lookups as
      JavaScript performs them, and the theorems about the classifier are
      stated for plain identifiers.
    - The counter [_id] is a natural number; the double of the code counts
      exactly up to 2^53 ([counter_max]), and the theorems that depend on
      the identifiers issued keep the counter within this bound.
    - A [while] loop is a fuel-driven function together with the big-step
      relation of the loop; a lemma shows that the fuel chosen is enough. *)

From Stdlib Require Import Decimal DecimalN DecimalFacts.
From stdpp Require Import gmap strings list fin_maps sorting.

Local Open Scope Z_scope.
#[local] Set Warnings "-clear-no-such-hyp".

(** ** JavaScript strings *)

Abbreviation jsstring := (list N).

(** Code units of a UTF-8 encoded literal (one to three bytes per unit). *)
Fixpoint utf16 (bs : list N) : jsstring :=
  match bs with
  | [] => []
  | b0 :: r0 =>
      if (b0 <? 128)%N then b0 :: utf16 r0
      else match r0 with
           | [] => []
           | b1 :: r1 =>
               if (b0 <? 224)%N
               then ((b0 `mod` 32) * 64 + b1 `mod` 64)%N :: utf16 r1
               else match r1 with
                    | [] => []
                    | b2 :: r2 =>
                        ((b0 `mod` 16) * 4096 + (b1 `mod` 64) * 64
                         + b2 `mod` 64)%N :: utf16 r2
                    end
           end
  end.

Definition code_units (s : string) : jsstring :=
  utf16 (map Ascii.N_of_ascii (String.list_ascii_of_string s)).

(** A string literal of the source, decoded once where it is written. *)
Notation "'js' s" :=
  (ltac:(let v := eval vm_compute in (code_units s) in exact v))
  (at level 10, s at level 9, only parsing).

(** [String(n)] for a non-negative integer: its decimal digits. *)
Fixpoint uint_chars (u : Decimal.uint) : jsstring :=
  match u with
  | Nil => []
  | D0 u => 48%N :: uint_chars u
  | D1 u => 49%N :: uint_chars u
  | D2 u => 50%N :: uint_chars u
  | D3 u => 51%N :: uint_chars u
  | D4 u => 52%N :: uint_chars u
  | D5 u => 53%N :: uint_chars u
  | D6 u => 54%N :: uint_chars u
  | D7 u => 55%N :: uint_chars u
  | D8 u => 56%N :: uint_chars u
  | D9 u => 57%N :: uint_chars u
  end.

Definition String_of_N (n : N) : jsstring := uint_chars (N.to_uint n).

Definition String_of_Z (z : Z) : jsstring :=
  if z <? 0 then 45%N :: String_of_N (Z.abs_N z) else String_of_N (Z.to_N z).

(** [xs.join(sep)] *)
Fixpoint join (sep : jsstring) (xs : list jsstring) : jsstring :=
  match xs with
  | [] => []
  | [x] => x
  | x :: rest => x ++ sep ++ join sep rest
  end.

(** [w] starts with [p] (the regular expression [/^p/]). *)
Fixpoint starts_with (p w : jsstring) : bool :=
  match p, w with
  | [], _ => true
  | _ :: _, [] => false
  | a :: p', b :: w' => bool_decide (a = b) && starts_with p' w'
  end.

(** [hay] contains [needle] (the regular expression [/needle/]). *)
Fixpoint contains (needle hay : jsstring) : bool :=
  starts_with needle hay ||
  match hay with
  | [] => false
  | _ :: hay' => contains needle hay'
  end.

(** ** Objects whose keys are enumerated

    Own properties in creation order.  [Object.keys] lists the keys that are
    array indices (canonical numerals below 2^32 - 1) first, in ascending
    numeric order, and then the other keys in creation order. *)

Definition obj (V : Type) := list (jsstring * V).

Fixpoint obj_get {V} (o : obj V) (k : jsstring) : option V :=
  match o with
  | [] => None
  | (k', v) :: o' => if decide (k' = k) then Some v else obj_get o' k
  end.

Fixpoint obj_set {V} (o : obj V) (k : jsstring) (v : V) : obj V :=
  match o with
  | [] => [(k, v)]
  | (k', v') :: o' =>
      if decide (k' = k) then (k', v) :: o' else (k', v') :: obj_set o' k v
  end.

(** [k in o] *)
Definition obj_has {V} (o : obj V) (k : jsstring) : bool :=
  bool_decide (is_Some (obj_get o k)).

Definition digit (c : N) : option N :=
  if ((48 <=? c) && (c <=? 57))%N then Some (c - 48)%N else None.

Fixpoint parse_digits (acc : N) (s : jsstring) : option N :=
  match s with
  | [] => Some acc
  | c :: s' =>
      match digit c with
      | Some v => parse_digits (10 * acc + v)%N s'
      | None => None
      end
  end.

Definition array_index (s : jsstring) : option N :=
  match s with
  | [] => None
  | [c] => digit c
  | c :: _ =>
      if decide (c = 48%N) then None
      else match parse_digits 0 s with
           | Some n => if (n <? 2 ^ 32 - 1)%N then Some n else None
           | None => None
           end
  end.

Fixpoint insert_index (e : N * jsstring) (l : list (N * jsstring))
  : list (N * jsstring) :=
  match l with
  | [] => [e]
  | e' :: l' => if (e.1 <=? e'.1)%N then e :: l else e' :: insert_index e l'
  end.

Definition sort_index (l : list (N * jsstring)) : list (N * jsstring) :=
  foldr insert_index [] l.

Definition index_keys (ks : list jsstring) : list (N * jsstring) :=
  omap (λ k, (λ n, (n, k)) <$> array_index k) ks.

Definition Object_keys {V} (o : obj V) : list jsstring :=
  let ks := o.*1 in
  (sort_index (index_keys ks)).*2
  ++ filter (λ k, array_index k = None) ks.

(** ** Entity model *)

Inductive Sex := male | female | unknown.

Record Person := mkPerson {
  id : jsstring;
  name : jsstring;
  sex : Sex;
  note : option jsstring
}.

Record ParentEdge := mkEdge {
  parentId : jsstring;
  childId : jsstring
}.

Global Instance Sex_eq_dec : EqDecision Sex.
Proof. solve_decision. Defined.
Global Instance Person_eq_dec : EqDecision Person.
Proof. solve_decision. Defined.
Global Instance ParentEdge_eq_dec : EqDecision ParentEdge.
Proof. solve_decision. Defined.

(** ** Graph index builder *)

Record Indexes := mkIndexes {
  byId : gmap jsstring Person;
  parentsOf : gmap jsstring (list jsstring);
  childrenOf : gmap jsstring (list jsstring)
}.

(** [if (!m[k]) m[k] = []; m[k].push(x)] *)
Definition push_at (k x : jsstring) (m : gmap jsstring (list jsstring))
  : gmap jsstring (list jsstring) :=
  let m1 := match m !! k with None => <[k := []]> m | Some _ => m end in
  alter (λ l, l ++ [x]) k m1.

Definition buildIndexes (people : list Person) (edges : list ParentEdge)
  : Indexes :=
  let byId := foldl (λ m p, <[id p := p]> m) ∅ people in
  let empty := foldl (λ m p, <[id p := []]> m) ∅ people in
  let parentsOf :=
    foldl (λ m e, push_at (childId e) (parentId e) m) empty edges in
  let childrenOf :=
    foldl (λ m e, push_at (parentId e) (childId e) m) empty edges in
  mkIndexes byId parentsOf childrenOf.

(** [parentsOf[v] || []] *)
Definition parents (po : gmap jsstring (list jsstring)) (v : jsstring)
  : list jsstring :=
  default [] (po !! v).

(** ** Ancestor distance calculator *)

Record bfs_state := mkBfs {
  bfs_depths : obj Z;
  bfs_seen : gset jsstring;
  bfs_queue : list (jsstring * Z)
}.

(** Body of [for (const p of ps)] in [getAncestors]. *)
Definition visit (d : Z) (st : bfs_state) (p : jsstring) : bfs_state :=
  if decide (p ∈ bfs_seen st) then st
  else
    let depth :=
      match obj_get (bfs_depths st) p with
      | Some v => if v <? d + 1 then v else d + 1
      | None => d + 1
      end in
    mkBfs (obj_set (bfs_depths st) p depth)
          ({[p]} ∪ bfs_seen st)
          (bfs_queue st ++ [(p, d + 1)]).

(** One iteration of [while (queue.length)]: shift the head, visit its
    parents. *)
Definition bfs_step (po : gmap jsstring (list jsstring))
    (cur : jsstring) (d : Z) (rest : list (jsstring * Z))
    (seen : gset jsstring) (depths : obj Z) : bfs_state :=
  foldl (visit d) (mkBfs depths seen rest) (parents po cur).

Fixpoint bfs_loop (fuel : nat) (po : gmap jsstring (list jsstring))
    (st : bfs_state) : obj Z :=
  match bfs_queue st with
  | [] => bfs_depths st
  | (cur, d) :: rest =>
      match fuel with
      | O => bfs_depths st
      | S fuel' =>
          bfs_loop fuel' po (bfs_step po cur d rest (bfs_seen st) (bfs_depths st))
      end
  end.

(** Every identifier that occurs as somebody's parent. *)
Definition universe (po : gmap jsstring (list jsstring)) : gset jsstring :=
  map_fold (λ _ ps acc, list_to_set ps ∪ acc) ∅ po.

Definition getAncestors (i : jsstring) (po : gmap jsstring (list jsstring))
  : obj Z :=
  bfs_loop (S (size (universe po))) po (mkBfs [] {[i]} [(i, 0)]).

(** ** LCA resolver *)

Record Lca := mkLca { lca_id : jsstring; lca_dA : Z; lca_dB : Z }.

Definition lca_better (dA dB : Z) (best : Lca) : bool :=
  let curScore := dA + dB in
  let bestScore := lca_dA best + lca_dB best in
  (curScore <? bestScore)
  || ((curScore =? bestScore)
      && (Z.max dA dB <? Z.max (lca_dA best) (lca_dB best))).

(** Body of [for (const id of Object.keys(A))] in [findLCA]. *)
Definition lca_visit (A B : obj Z) (best : option Lca) (k : jsstring)
  : option Lca :=
  match obj_get B k, obj_get A k with
  | Some dB, Some dA =>
      match best with
      | None => Some (mkLca k dA dB)
      | Some b => if lca_better dA dB b then Some (mkLca k dA dB) else best
      end
  | _, _ => best
  end.

Definition lca_of (A B : obj Z) : option Lca :=
  foldl (lca_visit A B) None (Object_keys A).

Definition findLCA (a b : jsstring) (po : gmap jsstring (list jsstring))
  : option Lca :=
  lca_of (getAncestors a po) (getAncestors b po).

Definition isAncestorOf (a b : jsstring) (po : gmap jsstring (list jsstring))
  : Z :=
  match obj_get (getAncestors b po) a with
  | Some d => d
  | None => -1
  end.

(** ** Path reconstruction for the evidence list *)

(** [while (u && u !== fromId) { path.push(u); u = prev[u]; }] *)
Fixpoint walk_back (fuel : nat) (prev : gmap jsstring jsstring)
    (fromId : jsstring) (u : option jsstring) (path : list jsstring)
  : list jsstring :=
  match u with
  | None => path
  | Some x =>
      if decide (x = [] ∨ x = fromId) then path
      else match fuel with
           | O => path
           | S fuel' => walk_back fuel' prev fromId (prev !! x) (path ++ [x])
           end
  end.

Record layer_state := mkLayer {
  ls_prev : gmap jsstring jsstring;
  ls_seen : gset jsstring;
  ls_next : list jsstring
}.

(** Body of [for (const p of parentsOf[v] || [])] in [pathToAncestor]. *)
Definition layer_visit (v : jsstring) (st : layer_state) (p : jsstring)
  : layer_state :=
  if decide (p ∈ ls_seen st) then st
  else mkLayer (<[p := v]> (ls_prev st)) ({[p]} ∪ ls_seen st)
               (ls_next st ++ [p]).

(** [for (const v of currentLayer)]: either the path that is returned from
    inside the loop, or the state after the layer. *)
Fixpoint scan_layer (po : gmap jsstring (list jsstring))
    (fromId ancestorId : jsstring) (layer : list jsstring) (st : layer_state)
  : list jsstring + layer_state :=
  match layer with
  | [] => inr st
  | v :: layer' =>
      if decide (v = ancestorId)
      then inl (fromId :: reverse (walk_back (S (size (ls_prev st)))
                                     (ls_prev st) fromId (Some v) []))
      else scan_layer po fromId ancestorId layer'
             (foldl (layer_visit v) st (parents po v))
  end.

Fixpoint layers_loop (fuel : nat) (po : gmap jsstring (list jsstring))
    (fromId ancestorId : jsstring) (layer : list jsstring)
    (prev : gmap jsstring jsstring) (seen : gset jsstring) : list jsstring :=
  match layer with
  | [] => [fromId]
  | _ :: _ =>
      match fuel with
      | O => [fromId]
      | S fuel' =>
          match scan_layer po fromId ancestorId layer (mkLayer prev seen []) with
          | inl path => path
          | inr st =>
              layers_loop fuel' po fromId ancestorId
                (ls_next st) (ls_prev st) (ls_seen st)
          end
      end
  end.

Definition pathToAncestor (fromId ancestorId : jsstring)
    (po : gmap jsstring (list jsstring)) : list jsstring :=
  layers_loop (S (S (size (universe po)))) po fromId ancestorId
    [fromId] ∅ {[fromId]}.

Definition describeLine (byId : gmap jsstring Person) (path : list jsstring)
  : jsstring :=
  match path !! 1%nat with
  | None => []
  | Some first =>
      match byId !! first with
      | None => []
      | Some firstParent =>
          match sex firstParent with
          | female => js "по материнской линии"
          | male => js "по отцовской линии"
          | unknown => []
          end
      end
  end.

(** ** Relationship classifier *)

Definition cousinDegreeWord (n : Z) : jsstring :=
  if n <=? 0 then []
  else if n =? 1 then js "двоюродн"
  else if n =? 2 then js "троюродн"
  else if n =? 3 then js "четвероюродн"
  else if n =? 4 then js "пятоюродн"
  else String_of_Z n ++ js "-юродн".

Definition sexNoun (s : Sex) (m f n : jsstring) : jsstring :=
  match s with
  | female => f
  | male => m
  | unknown => n
  end.

Record Label := mkLabel {
  title : jsstring;
  details : list jsstring;
  reverseTitle : jsstring
}.

Definition describeAncestor (d : Z) (s : Sex) : jsstring :=
  if d =? 1 then sexNoun s (js "отец") (js "мать") (js "родитель")
  else if d =? 2 then sexNoun s (js "дед") (js "бабушка") (js "предок")
  else if d =? 3
  then sexNoun s (js "прадед") (js "прабабушка") (js "предок в 3-м колене")
  else js "предок в " ++ String_of_Z d ++ js "-м колене".

Definition describeDescendant (d : Z) (s : Sex) : jsstring :=
  if d =? 1 then sexNoun s (js "сын") (js "дочь") (js "ребёнок")
  else if d =? 2 then sexNoun s (js "внук") (js "внучка") (js "потомок")
  else if d =? 3
  then sexNoun s (js "правнук") (js "правнучка") (js "потомок в 3-м колене")
  else js "потомок в " ++ String_of_Z d ++ js "-м колене".

(** [`${t} (${line})`] when [line] is not empty, [t] otherwise. *)
Definition with_line (t line : jsstring) : jsstring :=
  if decide (line = []) then t else t ++ js " (" ++ line ++ js ")".

(** [`${o?.name}`] in a template literal, and inside [join]. *)
Definition name_text (o : option Person) : jsstring :=
  match o with Some p => name p | None => js "undefined" end.

Definition name_joined (o : option Person) : jsstring :=
  match o with Some p => name p | None => [] end.

Definition path_detail (byId : gmap jsstring Person) (path : list jsstring)
  : jsstring :=
  js "Общий путь: "
  ++ join (js " → ") (map (λ i, name_joined (byId !! i)) path).

Definition or_dash (line : jsstring) : jsstring :=
  if decide (line = []) then js "—" else line.

Definition common_detail (o : option Person) : jsstring :=
  js "Общий предок: " ++ name_text o.

(** The branch of [relationLabel] taken once a common ancestor is found. *)
Definition lca_label (fromId toId : jsstring) (people : list Person)
    (byId : gmap jsstring Person) (po : gmap jsstring (list jsstring))
    (A B : Person) (lca : Lca) : Label :=
  let anc := lca_id lca in
  let k := lca_dA lca in
  let l := lca_dB lca in
  if (k =? 1) && (l =? 1) then
    let title := sexNoun (sex B) (js "брат") (js "сестра") (js "сиблинг") in
    let rev := sexNoun (sex A) (js "брат") (js "сестра") (js "сиблинг") in
    let pathA := pathToAncestor fromId anc po in
    let pathB := pathToAncestor toId anc po in
    let lineA := describeLine byId pathA in
    let lineB := describeLine byId pathB in
    mkLabel title
      [common_detail (byId !! anc);
       js "Линии: " ++ or_dash lineA ++ js " / " ++ or_dash lineB]
      rev
  else if Z.min k l =? 1 then
    let olderIsA := k =? 1 in
    let degree := Z.max k l - 1 in
    if degree =? 1 then
      if olderIsA then
        mkLabel (sexNoun (sex A) (js "дядя") (js "тётя") (js "тётя/дядя"))
          [common_detail (byId !! anc)]
          (sexNoun (sex B) (js "племянник") (js "племянница")
             (js "племянник/племянница"))
      else
        mkLabel (sexNoun (sex A) (js "племянник") (js "племянница")
                   (js "племянник/племянница"))
          [common_detail (byId !! anc)]
          (sexNoun (sex B) (js "дядя") (js "тётя") (js "тётя/дядя"))
    else
      let elder s :=
        if degree =? 2
        then sexNoun s (js "двоюродный дед") (js "двоюродная бабушка")
               (js "двоюродный предок")
        else if degree =? 3
        then sexNoun s (js "троюродный дед") (js "троюродная бабушка")
               (js "троюродный предок")
        else js "предок (удаление " ++ String_of_Z (degree - 1) ++ js ")" in
      let younger s :=
        if degree =? 2
        then sexNoun s (js "двоюродный внук") (js "двоюродная внучка")
               (js "двоюродный потомок")
        else if degree =? 3
        then sexNoun s (js "троюродный внук") (js "троюродная внучка")
               (js "троюродный потомок")
        else js "потомок (удаление " ++ String_of_Z (degree - 1) ++ js ")" in
      if olderIsA
      then mkLabel (elder (sex A)) [common_detail (byId !! anc)]
             (younger (sex B))
      else mkLabel (younger (sex A)) [common_detail (byId !! anc)]
             (elder (sex B))
  else
    let degree := Z.min k l - 1 in
    let removal := Z.abs (k - l) in
    let base := cousinDegreeWord degree in
    let found := common_detail (find (λ p, bool_decide (id p = anc)) people) in
    let cousin s :=
      if decide (base = []) then js "родственники"
      else sexNoun s (base ++ js "ый брат") (base ++ js "ая сестра")
             (base ++ js "ые родственники") in
    let uncle s := sexNoun s (js "дядя") (js "тётя") (js "дядя/тётя") in
    let nephew s :=
      sexNoun s (js "племянник") (js "племянница")
        (js "племянник/племянница") in
    if removal =? 0 then
      mkLabel (cousin (sex B)) [found] (cousin (sex A))
    else if removal =? 1 then
      let olderIsA := k <? l in
      let labelOlder :=
        base ++ js "ый " ++ uncle (if olderIsA then sex A else sex B) in
      let labelYounger :=
        base ++ js "ая " ++ nephew (if olderIsA then sex B else sex A) in
      if olderIsA then mkLabel labelOlder [found] labelYounger
      else mkLabel labelYounger [found] labelOlder
    else
      let olderIsA := k <? l in
      let suffix := js " (удаление " ++ String_of_Z removal ++ js ")" in
      mkLabel
        (if olderIsA then base ++ js "ый " ++ uncle (sex A) ++ suffix
         else base ++ js "ая " ++ nephew (sex A) ++ suffix)
        [found]
        (if olderIsA then base ++ js "ая " ++ nephew (sex B) ++ suffix
         else base ++ js "ый " ++ uncle (sex B) ++ suffix).

Definition missing_label : Label := mkLabel (js "—") [] (js "—").

Definition not_found_label : Label :=
  mkLabel (js "Связь не найдена") [] (js "Связь не найдена").

Definition relationLabel (fromId toId : jsstring) (people : list Person)
    (edges : list ParentEdge) : Label :=
  let ix := buildIndexes people edges in
  let byId := byId ix in
  let po := parentsOf ix in
  match byId !! fromId, byId !! toId with
  | Some A, Some B =>
      let up := isAncestorOf fromId toId po in
      let down := isAncestorOf toId fromId po in
      if 1 <=? up then
        let path := pathToAncestor toId fromId po in
        let line := describeLine byId path in
        mkLabel (with_line (describeAncestor up (sex A)) line)
          [path_detail byId path]
          (with_line (describeDescendant up (sex B)) line)
      else if 1 <=? down then
        let path := pathToAncestor fromId toId po in
        let line := describeLine byId path in
        mkLabel (with_line (describeDescendant down (sex A)) line)
          [path_detail byId path]
          (with_line (describeAncestor down (sex B)) line)
      else
        match findLCA fromId toId po with
        | None => not_found_label
        | Some lca => lca_label fromId toId people byId po A B lca
        end
  | _, _ => missing_label
  end.

(** ** Demonstration graph

    [buildDemo] resets the counter to 1, so the eight persons get the
    identifiers "1" to "8" in the order in which they are added. *)
Definition buildDemo : list Person * list ParentEdge :=
  let add (n : N) (name : jsstring) (sex : Sex) (note : option jsstring) :=
    mkPerson (String_of_N n) name sex note in
  let link (parent child : Person) := mkEdge (id parent) (id child) in
  let she := add 1%N (js "Она") female None in
  let herMother := add 2%N (js "Её мать") female None in
  let herMGF := add 3%N (js "Её дед (по материнской линии)") male None in
  let herMGM := add 4%N (js "Её бабушка (по материнской линии)") female None in
  let hisMother :=
    add 5%N (js "Его мать") female (Some (js "младшая сестра её деда")) in
  let he := add 6%N (js "Он") male None in
  let commonGF := add 7%N (js "Общий прадед") male None in
  let commonGM := add 8%N (js "Общая прабабушка") female None in
  ([she; herMother; herMGF; herMGM; hisMother; he; commonGF; commonGM],
   [link herMother she; link herMGF herMother; link herMGM herMother;
    link hisMother he; link commonGF herMGF; link commonGM herMGF;
    link commonGF hisMother; link commonGM hisMother]).

(** ** Direct edge insertion of the editor *)

(** State update of [addParentChild] for the selected parent and child. *)
Definition addParentChild (parentSel childSel : jsstring)
    (arr : list ParentEdge) : list ParentEdge :=
  if decide (parentSel = [] ∨ childSel = [] ∨ parentSel = childSel) then arr
  else if bool_decide
            (Exists (λ r, parentId r = parentSel ∧ childId r = childSel) arr)
       then arr
       else arr ++ [mkEdge parentSel childSel].

(** ** Text normalization *)

(** The class [\s] of regular expressions, which is also what [trim]
    removes. *)
Definition is_space (c : N) : bool :=
  bool_decide (c ∈ [9; 10; 11; 12; 13; 32; 160; 5760; 8232; 8233; 8239;
                    8287; 12288; 65279]%N)
  || ((8192 <=? c) && (c <=? 8202))%N.

(** The class [[a-zа-я0-9]]. *)
Definition is_word (c : N) : bool :=
  ((97 <=? c) && (c <=? 122) || (1072 <=? c) && (c <=? 1103)
   || (48 <=? c) && (c <=? 57))%N.

(** [.replace(/ё/g, "е")] *)
Definition fold_yo (c : N) : N := if (c =? 1105)%N then 1077%N else c.

(** [.replace(/[–—-]/g, " ")] *)
Definition dash_to_space (c : N) : N :=
  if ((c =? 8211) || (c =? 8212) || (c =? 45))%N then 32%N else c.

(** [.replace(/[^a-zа-я0-9\s]/g, " ")] *)
Definition strip_punct (c : N) : N :=
  if is_word c || is_space c then c else 32%N.

(** [.replace(/\s+/g, " ")]; [in_run] tells that the previous code unit was
    white space. *)
Fixpoint collapse_spaces (in_run : bool) (s : jsstring) : jsstring :=
  match s with
  | [] => []
  | c :: s' =>
      if is_space c
      then if in_run then collapse_spaces true s'
           else 32%N :: collapse_spaces true s'
      else c :: collapse_spaces false s'
  end.

Fixpoint trim_start (s : jsstring) : jsstring :=
  match s with
  | [] => []
  | c :: s' => if is_space c then trim_start s' else s
  end.

Fixpoint trim_end (s : jsstring) : jsstring :=
  match s with
  | [] => []
  | c :: s' =>
      match trim_end s' with
      | [] => if is_space c then [] else [c]
      | r => c :: r
      end
  end.

(** [.trim()] *)
Definition trim (s : jsstring) : jsstring := trim_end (trim_start s).

(** [s.split(" ")] *)
Fixpoint split_spaces (s : jsstring) : list jsstring :=
  match s with
  | [] => [[]]
  | c :: s' =>
      if (c =? 32)%N then [] :: split_spaces s'
      else match split_spaces s' with
           | w :: ws => (c :: w) :: ws
           | [] => [[c]]
           end
  end.

(** ** Phrase parser *)

Inductive Result (A : Type) :=
  | Ok (a : A)
  | Err (message : jsstring).
Arguments Ok {A} a.
Arguments Err {A} message.

(** A thrown [Error] ends the call. *)
Global Instance Result_bind : MBind Result := λ A B k r,
  match r with
  | Ok a => k a
  | Err m => Err m
  end.

Inductive Base := he | she.
Inductive Step := mother | father.
Inductive Side := maternal | paternal.

Global Instance Base_eq_dec : EqDecision Base.
Proof. solve_decision. Defined.
Global Instance Step_eq_dec : EqDecision Step.
Proof. solve_decision. Defined.

Record RelativeSpec := mkSpec {
  spec_base : Base;
  spec_steps : list Step;
  terminalLabel : jsstring;
  terminalSex : Sex;
  spec_note : jsstring;
  spec_next : nat
}.

Record Connector := mkConnector {
  conn_kind : jsstring;
  conn_rank : option jsstring;
  conn_next : nat
}.

Definition PRONOUN : list jsstring := [js "его"; js "ее"; js "её"].
Definition FILLERS : list jsstring :=
  [js "это"; js "есть"; js "является"; js "явл"].
Definition SIBLING_WORDS : list jsstring := [js "сестра"; js "брат"].
Definition RANK_WORDS : list jsstring :=
  [js "младшая"; js "старшая"; js "младший"; js "старший"].
Definition motherWords : list jsstring := [js "мать"; js "мама"].
Definition fatherWords : list jsstring := [js "отец"; js "папа"].

(** [set.has(tokens[i])] *)
Definition has (set : list jsstring) (w : option jsstring) : bool :=
  match w with
  | Some x => bool_decide (x ∈ set)
  | None => false
  end.

Definition isGrandfatherWord (w : jsstring) : bool :=
  starts_with (js "дед") w || starts_with (js "дедушк") w.

Definition isGrandmotherWord (w : jsstring) : bool :=
  starts_with (js "баб") w.

Definition line_clause_error : jsstring :=
  js "Уточните линию: «по материнской линии» или «по отцовской линии» для «дед/бабушка»".

Definition takeLine (tokens : list jsstring) (i : nat) : option Side * nat :=
  if bool_decide (tokens !! i = Some (js "по"))
     && (bool_decide (tokens !! (i + 1)%nat = Some (js "материнской"))
         || bool_decide (tokens !! (i + 1)%nat = Some (js "отцовской")))
     && bool_decide (tokens !! (i + 2)%nat = Some (js "линии"))
  then
    (Some (if bool_decide (tokens !! (i + 1)%nat = Some (js "материнской"))
           then maternal else paternal),
     (i + 3)%nat)
  else (None, i).

Definition his_her (b : Base) (his her : jsstring) : jsstring :=
  match b with he => his | she => her end.

Definition parseRelativeSpec (tokens : list jsstring) (i0 : nat)
  : Result RelativeSpec :=
  let pron := tokens !! i0 in
  if negb (has PRONOUN pron) then Err (js "Ожидали «его/ее»")
  else
    let base := if bool_decide (pron = Some (js "его")) then he else she in
    let i := (i0 + 1)%nat in
    match tokens !! i with
    | None | Some [] => Err (js "Ожидали термин родства после «его/ее»")
    | Some w =>
        if has motherWords (Some w) then
          Ok (mkSpec base [mother] (his_her base (js "Его мать") (js "Её мать"))
                female [] (i + 1)%nat)
        else if has fatherWords (Some w) then
          Ok (mkSpec base [father] (his_her base (js "Его отец") (js "Её отец"))
                male [] (i + 1)%nat)
        else if isGrandfatherWord w || isGrandmotherWord w then
          let gf := isGrandfatherWord w in
          let '(side, next) := takeLine tokens (i + 1)%nat in
          match side with
          | None => Err line_clause_error
          | Some side =>
              let steps :=
                match side with
                | maternal => [mother; if gf then father else mother]
                | paternal => [father; if gf then father else mother]
                end in
              let lineText :=
                match side with
                | maternal => js "по материнской линии"
                | paternal => js "по отцовской линии"
                end in
              let baseWord := if gf then js "дед" else js "бабушка" in
              Ok (mkSpec base steps
                    (his_her base (js "Его ") (js "Её ") ++ baseWord
                     ++ js " (" ++ lineText ++ js ")")
                    (if gf then male else female) [] next)
          end
        else Err (js "Неизвестный термин родства: " ++ w)
    end.

(** [while (i < tokens.length && (FILLERS.has(tokens[i]) || ...)) i++],
    read on the tokens from position [i] on. *)
Fixpoint skip_fillers (rest : list jsstring) (i : nat) : nat :=
  match rest with
  | [] => i
  | w :: rest' =>
      if bool_decide (w ∈ FILLERS) || bool_decide (w = js "—")
         || bool_decide (w = js "-")
      then skip_fillers rest' (S i)
      else i
  end.

Definition parseSiblingConnector (tokens : list jsstring) (i0 : nat)
  : Result Connector :=
  let i := skip_fillers (drop i0 tokens) i0 in
  let '(rank, i) :=
    if has RANK_WORDS (tokens !! i) then (tokens !! i, S i) else (None, i) in
  match tokens !! i with
  | Some kind =>
      if bool_decide (kind ∈ SIBLING_WORDS)
      then Ok (mkConnector kind rank (S i))
      else Err (js "Ожидали «сестра/брат»")
  | None => Err (js "Ожидали «сестра/брат»")
  end.

(** ** Graph synthesizer *)

(** The key ["name:" + name] under which [add] files a person. *)
Definition name_key (name : jsstring) : jsstring := js "name:" ++ name.

(** [String(_id++)]: the identifier issued and the counter afterwards, for
    a counter below 2^53, up to which the increment of the double is exact
    and [String] gives the decimal digits. *)
Definition genId (_id : N) : jsstring * N := (String_of_N _id, (_id + 1)%N).

Definition labelForPath (base : Base) (path : list Step) : jsstring * Sex :=
  match path with
  | [mother] => (his_her base (js "Его мать") (js "Её мать"), female)
  | [father] => (his_her base (js "Его отец") (js "Её отец"), male)
  | [first; second] =>
      let lineText :=
        match first with
        | mother => js "по материнской линии"
        | father => js "по отцовской линии"
        end in
      let isGrandfather := bool_decide (second = father) in
      (his_her base (js "Его ") (js "Её ")
       ++ (if isGrandfather then js "дед" else js "бабушка")
       ++ js " (" ++ lineText ++ js ")",
       if isGrandfather then male else female)
  | _ =>
      (his_her base (js "Его предок") (js "Её предок") ++ js " в "
       ++ String_of_N (N.of_nat (length path)) ++ js "-м колене",
       unknown)
  end.

(** The variables that the closures of [buildGraphFromSibling] share, and
    the global counter [_id].  A person object is referred to by its
    position in [people]. *)
Record Synth := mkSynth {
  next_id : N;
  s_people : list Person;
  s_rels : list ParentEdge;
  byKey : gmap jsstring nat
}.

(** [node.id] for the person object referred to by [r]. *)
Definition ref_id (st : Synth) (r : nat) : jsstring :=
  match s_people st !! r with Some p => id p | None => [] end.

Definition add (name : jsstring) (sex : Sex) (note : option jsstring)
    (st : Synth) : nat * Synth :=
  let k := name_key name in
  match byKey st !! k with
  | Some r => (r, st)
  | None =>
      let '(i, next) := genId (next_id st) in
      let p := mkPerson i name sex note in
      let r := length (s_people st) in
      (r, mkSynth next (s_people st ++ [p]) (s_rels st)
            (<[k := r]> (byKey st)))
  end.

(** [if (!rels.some(...)) rels.push({ parentId, childId })] *)
Definition link (parent child : jsstring) (st : Synth) : Synth :=
  if bool_decide
       (Exists (λ r, parentId r = parent ∧ childId r = child) (s_rels st))
  then st
  else mkSynth (next_id st) (s_people st)
         (s_rels st ++ [mkEdge parent child]) (byKey st).

(** The loop of [ensureChain]: [path] is [steps.slice(0, d)], [rest] the
    steps from [d] on. *)
Fixpoint chain_steps (base : Base) (path rest : list Step) (child : nat)
    (st : Synth) : nat * Synth :=
  match rest with
  | [] => (child, st)
  | s :: rest' =>
      let path' := path ++ [s] in
      let '(label, sex) := labelForPath base path' in
      let '(node, st1) := add label sex None st in
      let st2 := link (ref_id st1 node) (ref_id st1 child) st1 in
      chain_steps base path' rest' node st2
  end.

Definition ensureChain (base : Base) (steps : list Step) (st : Synth)
  : nat * Synth :=
  let '(root, st1) :=
    add (his_her base (js "Он") (js "Она"))
      (match base with he => male | she => female end) None st in
  chain_steps base [] steps root st1.

(** [leftNode.note = leftNode.note ? leftNode.note + "; " + rank : rank] *)
Definition set_rank_note (rank : jsstring) (p : Person) : Person :=
  mkPerson (id p) (name p) (sex p)
    (Some match note p with
          | Some n => if decide (n = []) then rank else n ++ js "; " ++ rank
          | None => rank
          end).

Record Parsed := mkParsed {
  out_people : list Person;
  out_rels : list ParentEdge
}.

(** [if (connector.rank) leftNode.note = ...] *)
Definition record_rank (connector : Connector) (leftNode : nat)
    (st : Synth) : Synth :=
  match conn_rank connector with
  | Some rank =>
      if decide (rank = []) then st
      else mkSynth (next_id st)
             (alter (set_rank_note rank) leftNode (s_people st))
             (s_rels st) (byKey st)
  | None => st
  end.

(** Body of [for (const parent of [commonGF, commonGM])]. *)
Definition link_common (leftNode rightNode : nat) (st : Synth)
    (parent : nat) : Synth :=
  let st := link (ref_id st parent) (ref_id st leftNode) st in
  link (ref_id st parent) (ref_id st rightNode) st.

(** The state in which [buildGraphFromSibling] returns. *)
Definition synthesize (leftSpec : RelativeSpec) (connector : Connector)
    (rightSpec : RelativeSpec) (_id : N) : Synth :=
  let st := mkSynth _id [] [] ∅ in
  let '(leftNode, st) := ensureChain (spec_base leftSpec)
                           (spec_steps leftSpec) st in
  let st := record_rank connector leftNode st in
  let '(rightNode, st) := ensureChain (spec_base rightSpec)
                            (spec_steps rightSpec) st in
  let '(commonGF, st) := add (js "Общий прадед") male None st in
  let '(commonGM, st) := add (js "Общая прабабушка") female None st in
  foldl (link_common leftNode rightNode) st [commonGF; commonGM].

(** The value returned, and the counter [_id] after the call. *)
Definition buildGraphFromSibling (leftSpec : RelativeSpec)
    (connector : Connector) (rightSpec : RelativeSpec) (_id : N)
  : Parsed * N :=
  let st := synthesize leftSpec connector rightSpec _id in
  (mkParsed (s_people st) (s_rels st), next_id st).

Section Phrase.

(** [String.prototype.toLowerCase] *)
Variable toLowerCase : jsstring → jsstring.

Definition normalizeText (s : jsstring) : jsstring :=
  trim (collapse_spaces false
          (strip_punct <$> (dash_to_space <$> (fold_yo <$> toLowerCase s)))).

(** [norm.split(" ").filter(Boolean)] *)
Definition tokenize (norm : jsstring) : list jsstring :=
  filter (λ w, w ≠ []) (split_spaces norm).

(** [parseAdvancedKinship] from the token list on. *)
Definition parseTokens (tokens : list jsstring) (_id : N)
  : Result (Parsed * N) :=
  left ← parseRelativeSpec tokens 0;
  conn ← parseSiblingConnector tokens (spec_next left);
  right ← parseRelativeSpec tokens (conn_next conn);
  Ok (buildGraphFromSibling left conn right _id).

Definition parseAdvancedKinship (inputText : jsstring) (_id : N)
  : Result (Parsed * N) :=
  let norm := normalizeText inputText in
  if decide (norm = []) then Err (js "Пустая строка")
  else parseTokens (tokenize norm) _id.

End Phrase.

(** A lower-casing of the Latin and of the Russian letters, for the
    examples. *)
Definition lower_basic (s : jsstring) : jsstring :=
  (λ c, if ((65 <=? c) && (c <=? 90) || (1040 <=? c) && (c <=? 1071))%N
        then (c + 32)%N
        else if (c =? 1025)%N then 1105%N else c) <$> s.

(** ** Editor

    The state of [GenealogyApp] that the handlers read and write, together
    with the global counter [_id]. *)
Record Editor := mkEditor {
  ed_people : list Person;
  ed_rels : list ParentEdge;
  ed_newName : jsstring;
  ed_newSex : Sex;
  ed_parentSel : jsstring;
  ed_childSel : jsstring;
  ed_fromSel : jsstring;
  ed_toSel : jsstring;
  ed_id : N
}.

Definition addPerson (st : Editor) : Editor :=
  if decide (trim (ed_newName st) = []) then st
  else
    let '(i, next) := genId (ed_id st) in
    let p := mkPerson i (trim (ed_newName st)) (ed_newSex st) None in
    mkEditor (ed_people st ++ [p]) (ed_rels st) [] unknown
      (ed_parentSel st) (ed_childSel st) (ed_fromSel st) (ed_toSel st) next.

(** The handler of the button: [addParentChild] on the two selections. *)
Definition addParentChild_selected (st : Editor) : Editor :=
  mkEditor (ed_people st)
    (addParentChild (ed_parentSel st) (ed_childSel st) (ed_rels st))
    (ed_newName st) (ed_newSex st)
    (ed_parentSel st) (ed_childSel st) (ed_fromSel st) (ed_toSel st)
    (ed_id st).

Definition removePerson (i : jsstring) (st : Editor) : Editor :=
  let reset (sel : jsstring) := if decide (sel = i) then [] else sel in
  mkEditor (filter (λ p, id p ≠ i) (ed_people st))
    (filter (λ r, parentId r ≠ i ∧ childId r ≠ i) (ed_rels st))
    (ed_newName st) (ed_newSex st)
    (reset (ed_parentSel st)) (reset (ed_childSel st))
    (reset (ed_fromSel st)) (reset (ed_toSel st))
    (ed_id st).

(** [P.find((x) => x.name === nm)?.id || ""] *)
Definition id_by_name (P : list Person) (nm : jsstring) : jsstring :=
  match find (λ x, bool_decide (name x = nm)) P with
  | Some x => id x
  | None => []
  end.

(** [buildDemo] leaves the counter after the eight identifiers it
    issued. *)
Definition loadDemo (st : Editor) : Editor :=
  mkEditor buildDemo.1 buildDemo.2 (ed_newName st) (ed_newSex st)
    (ed_parentSel st) (ed_childSel st)
    (id_by_name buildDemo.1 (js "Он")) (id_by_name buildDemo.1 (js "Она"))
    9.

Definition analysis (st : Editor) : option Label :=
  if decide (ed_fromSel st = [] ∨ ed_toSel st = []) then None
  else Some (relationLabel (ed_fromSel st) (ed_toSel st)
               (ed_people st) (ed_rels st)).

Definition reverseAnalysis (st : Editor) : option Label :=
  if decide (ed_fromSel st = [] ∨ ed_toSel st = []) then None
  else Some (relationLabel (ed_toSel st) (ed_fromSel st)
               (ed_people st) (ed_rels st)).

(** ** Quick parser *)

Definition canonical : jsstring :=
  js "его мать младшая сестра ее деда по материнской линии".

Definition parse_alert (message : jsstring) : jsstring :=
  js "Не удалось разобрать фразу: " ++ message ++ [10%N]
  ++ js "Поддерживаются конструкции:" ++ [10%N]
  ++ js "«его/ее мать|отец — [младшая|старшая] сестра|брат ее/его деда|бабушки по материнской|отцовской линии».".

Section Quick.

Variable toLowerCase : jsstring → jsstring.

(** The message of the [ReferenceError] that the engine throws for a name
    without binding. *)
Variable not_defined : jsstring → jsstring.

(** The module-level [applyParsed] that [QuickParser] receives as
    [onApply].  The setters [setPeople], [setRels], [setFromSel] and
    [setToSel] are bound inside [GenealogyApp] only, so the first statement
    of [applyParsed] throws. *)
Definition applyParsed (out : Parsed) (st : Editor) : Result Editor :=
  Err (not_defined (js "setPeople")).

(** [handleParse] with [onDemo = loadDemo] and [onApply = applyParsed]:
    the text of the alert, if one is shown, and the state afterwards. *)
Definition handleParse (text : jsstring) (st : Editor)
  : option jsstring * Editor :=
  let norm := normalizeText toLowerCase text in
  let caught (message : jsstring) (st : Editor) :=
    if decide (norm = canonical) then (None, loadDemo st)
    else (Some (parse_alert message), st) in
  match parseAdvancedKinship toLowerCase text (ed_id st) with
  | Ok (res, next) =>
      let st := mkEditor (ed_people st) (ed_rels st) (ed_newName st)
                  (ed_newSex st) (ed_parentSel st) (ed_childSel st)
                  (ed_fromSel st) (ed_toSel st) next in
      if decide (out_people res = []) then (None, st)
      else match applyParsed res st with
           | Ok st => (None, st)
           | Err message => caught message st
           end
  | Err message => caught message st
  end.

End Quick.

(** ** Plain objects and [Object.prototype]

    [byId], [parentsOf], [childrenOf], [depths] and [prev] are plain
    objects.  A plain object answers [o[k]] and [k in o] also for the names
    of the members that it inherits from [Object.prototype], and an
    assignment of a string, a number or [undefined] to the key "__proto__"
    stores no property.  The maps of the definitions above hold the own
    properties: [buildIndexes], [getAncestors], [findLCA], [isAncestorOf],
    [pathToAncestor] and [relationLabel] are the code for identifiers that
    are none of these names. *)
Definition Object_prototype : list jsstring :=
  [js "constructor"; js "__defineGetter__"; js "__defineSetter__";
   js "hasOwnProperty"; js "__lookupGetter__"; js "__lookupSetter__";
   js "isPrototypeOf"; js "propertyIsEnumerable"; js "toString";
   js "valueOf"; js "__proto__"; js "toLocaleString"].

(** What [o[k]] evaluates to, for a plain object with the own properties
    [o] (none of which is called "__proto__"): the own property, a member
    of [Object.prototype] (a function, or the prototype itself for
    "__proto__"), or [undefined]. *)
Inductive Slot (V : Type) : Type :=
  | Own (v : V)
  | Member
  | Undefined.
Arguments Own {V} v.
Arguments Member {V}.
Arguments Undefined {V}.

Definition slot {V} (o : gmap jsstring V) (k : jsstring) : Slot V :=
  match o !! k with
  | Some v => Own v
  | None => if bool_decide (k ∈ Object_prototype) then Member else Undefined
  end.

(** [!x] for the value of a slot that holds an object. *)
Definition falsy {V} (x : Slot V) : bool :=
  match x with
  | Undefined => true
  | _ => false
  end.

(** How a call ends: with a value, or with a [TypeError]. *)
Inductive Completion (A : Type) : Type :=
  | Normal (a : A)
  | TypeError.
Arguments Normal {A} a.
Arguments TypeError {A}.

(** Body of [for (const p of ps)] in [getAncestors] for any identifier [p]:
    a key that [depths] does not hold reads as [undefined] or as an
    inherited member, neither of which is below [d + 1], and the assignment
    [depths["__proto__"] = d + 1] stores nothing. *)
Definition visit_any (d : Z) (st : bfs_state) (p : jsstring) : bfs_state :=
  if decide (p ∈ bfs_seen st) then st
  else
    let depth :=
      match obj_get (bfs_depths st) p with
      | Some v => if v <? d + 1 then v else d + 1
      | None => d + 1
      end in
    mkBfs (if decide (p = js "__proto__") then bfs_depths st
           else obj_set (bfs_depths st) p depth)
          ({[p]} ∪ bfs_seen st)
          (bfs_queue st ++ [(p, d + 1)]).

(** [while (queue.length)] of [getAncestors] for any identifiers:
    [parentsOf[cur] || []] is an inherited member when [cur] names one and
    [parentsOf] has no such own property, and [for (const p of ps)] then
    throws, since no member of [Object.prototype] is iterable. *)
Fixpoint bfs_loop_any (fuel : nat) (po : gmap jsstring (list jsstring))
    (st : bfs_state) : Completion (obj Z) :=
  match bfs_queue st with
  | [] => Normal (bfs_depths st)
  | (cur, d) :: rest =>
      match fuel with
      | O => Normal (bfs_depths st)
      | S fuel' =>
          match slot po cur with
          | Own ps =>
              bfs_loop_any fuel' po
                (foldl (visit_any d)
                   (mkBfs (bfs_depths st) (bfs_seen st) rest) ps)
          | Undefined =>
              bfs_loop_any fuel' po
                (mkBfs (bfs_depths st) (bfs_seen st) rest)
          | Member => TypeError
          end
      end
  end.

Definition getAncestors_any (i : jsstring)
    (po : gmap jsstring (list jsstring)) : Completion (obj Z) :=
  bfs_loop_any (S (size (universe po))) po (mkBfs [] {[i]} [(i, 0)]).

(** The value of [a in ancestors ? ancestors[a] : -1]: a number, or an
    inherited member. *)
Inductive Answer :=
  | Number (d : Z)
  | NotNumber.

Definition isAncestorOf_any (a b : jsstring)
    (po : gmap jsstring (list jsstring)) : Completion Answer :=
  match getAncestors_any b po with
  | TypeError => TypeError
  | Normal ancestors =>
      Normal match obj_get ancestors a with
             | Some d => Number d
             | None =>
                 if bool_decide (a ∈ Object_prototype) then NotNumber
                 else Number (-1)
             end
  end.

(** [relationLabel] up to line 269, for any two identifiers and a
    collection of plain ones: the two lookups in [byId], the guard, and
    the two calls of [isAncestorOf]. *)
Inductive Start :=
  | Returned (r : Label)
  | Proceeds (A B : Slot Person) (up down : Answer).

Definition relationLabel_start (fromId toId : jsstring)
    (people : list Person) (edges : list ParentEdge) : Completion Start :=
  let ix := buildIndexes people edges in
  let A := slot (byId ix) fromId in
  let B := slot (byId ix) toId in
  if falsy A || falsy B then Normal (Returned missing_label)
  else
    match isAncestorOf_any fromId toId (parentsOf ix) with
    | TypeError => TypeError
    | Normal up =>
        match isAncestorOf_any toId fromId (parentsOf ix) with
        | TypeError => TypeError
        | Normal down => Normal (Proceeds A B up down)
        end
    end.

(** * Specification vocabulary *)

(** ** Identifiers and counters within the reach of the embedding *)

(** An identifier that is not the name of a member of [Object.prototype]:
    a plain object holds it as an own property or not at all. *)
Definition plain (k : jsstring) : Prop := k ∉ Object_prototype.

Global Instance plain_dec k : Decision (plain k).
Proof. unfold plain. apply _. Defined.

(** Every parent that the mapping names is plain. *)
Definition plain_graph (po : gmap jsstring (list jsstring)) : Prop :=
  map_Forall (λ _ ps, Forall plain ps) po.

Global Instance plain_graph_dec po : Decision (plain_graph po).
Proof. unfold plain_graph. apply _. Defined.

(** The identifiers of the persons and the two ends of every edge are
    plain. *)
Definition plain_collection (people : list Person)
    (edges : list ParentEdge) : Prop :=
  Forall (λ p, plain (id p)) people
  ∧ Forall (λ e, plain (parentId e) ∧ plain (childId e)) edges.

Global Instance plain_collection_dec people edges :
  Decision (plain_collection people edges).
Proof. unfold plain_collection. apply _. Defined.

(** The counter [_id] is a double: [_id++] is exact as long as the result
    is at most 2^53, and leaves the counter where it is from there on.
    [genId] is the code for calls that leave the counter within this
    bound. *)
Definition counter_max : N := 2 ^ 53.

(** ** Parent hops and acyclicity *)

Inductive hops (po : gmap jsstring (list jsstring))
  : nat → jsstring → jsstring → Prop :=
  | hops_O x : hops po O x x
  | hops_S n x p y : p ∈ parents po x → hops po n p y → hops po (S n) x y.

Definition acyclic (po : gmap jsstring (list jsstring)) : Prop :=
  ∀ x n, ¬ hops po (S n) x x.

(** A rank that grows strictly along every parent edge. *)
Definition ranked (rank : jsstring → nat)
    (po : gmap jsstring (list jsstring)) : Prop :=
  map_Forall (λ x ps, Forall (λ p, (rank x < rank p)%nat) ps) po.

Global Instance ranked_dec rank po : Decision (ranked rank po).
Proof. unfold ranked. apply _. Defined.

Definition rank_by (ranks : obj nat) (x : jsstring) : nat :=
  default O (obj_get ranks x).

(** ** The loop of [getAncestors] *)

(** Big-step reading of [while (queue.length) { ... }]. *)
Inductive bfs_run (po : gmap jsstring (list jsstring))
  : bfs_state → obj Z → Prop :=
  | bfs_done depths seen : bfs_run po (mkBfs depths seen []) depths
  | bfs_iter cur d rest seen depths res :
      bfs_run po (bfs_step po cur d rest seen depths) res →
      bfs_run po (mkBfs depths seen ((cur, d) :: rest)) res.

Definition bfs_measure (po : gmap jsstring (list jsstring))
    (st : bfs_state) : nat :=
  (size (universe po ∖ bfs_seen st) + length (bfs_queue st))%nat.

(** Distance recorded for [x] when the search starts at [s]: 0 for the
    start, [depths[x]] otherwise. *)
Definition dist_of (s : jsstring) (depths : obj Z) (x : jsstring)
  : option Z :=
  if decide (x = s) then Some 0 else obj_get depths x.

(** Every parent of [u] is recorded, at most one level above [u]. *)
Definition closed_at (po : gmap jsstring (list jsstring)) (s : jsstring)
    (depths : obj Z) (u : jsstring) : Prop :=
  ∀ p, p ∈ parents po u →
    ∃ dp du, dist_of s depths p = Some dp ∧ dist_of s depths u = Some du
             ∧ dp ≤ du + 1.

(** Invariant of the inner [for] loop while the parents of [cur], shifted
    from the queue at depth [lo], are visited; [seen_ps] are the parents
    visited so far. *)
Record mid_inv (po : gmap jsstring (list jsstring)) (s : jsstring)
    (lo : Z) (cur : jsstring) (seen_ps : list jsstring)
    (st : bfs_state) : Prop := {
  mid_seen : ∀ x, x ∈ bfs_seen st ↔ is_Some (dist_of s (bfs_depths st) x);
  mid_start : obj_get (bfs_depths st) s = None;
  mid_queue : ∃ q1 q2, bfs_queue st = q1 ++ q2
                ∧ Forall (λ e, e.2 = lo) q1 ∧ Forall (λ e, e.2 = lo + 1) q2;
  mid_queued :
    Forall (λ e, dist_of s (bfs_depths st) e.1 = Some e.2) (bfs_queue st);
  mid_sound : ∀ x d, dist_of s (bfs_depths st) x = Some d →
                0 ≤ d ≤ lo + 1 ∧ hops po (Z.to_nat d) s x;
  mid_cur : dist_of s (bfs_depths st) cur = Some lo;
  mid_closed : ∀ u, u ∈ bfs_seen st → u ∉ (bfs_queue st).*1 → u ≠ cur →
                 closed_at po s (bfs_depths st) u;
  mid_done : ∀ p, p ∈ seen_ps →
               ∃ dp, dist_of s (bfs_depths st) p = Some dp ∧ dp ≤ lo + 1
}.

(** Invariant of the [while] loop: the queue holds depth [lo] and then
    depth [lo + 1]. *)
Record bfs_inv (po : gmap jsstring (list jsstring)) (s : jsstring)
    (lo : Z) (st : bfs_state) : Prop := {
  inv_seen : ∀ x, x ∈ bfs_seen st ↔ is_Some (dist_of s (bfs_depths st) x);
  inv_start : obj_get (bfs_depths st) s = None;
  inv_queue : ∃ q1 q2, bfs_queue st = q1 ++ q2
                ∧ Forall (λ e, e.2 = lo) q1 ∧ Forall (λ e, e.2 = lo + 1) q2;
  inv_queued :
    Forall (λ e, dist_of s (bfs_depths st) e.1 = Some e.2) (bfs_queue st);
  inv_sound : ∀ x d, dist_of s (bfs_depths st) x = Some d →
                0 ≤ d ≤ lo + 1 ∧ hops po (Z.to_nat d) s x;
  inv_closed : ∀ u, u ∈ bfs_seen st → u ∉ (bfs_queue st).*1 →
                 closed_at po s (bfs_depths st) u
}.

(** What holds of the mapping once the queue is empty. *)
Record bfs_final (po : gmap jsstring (list jsstring)) (s : jsstring)
    (depths : obj Z) : Prop := {
  fin_start : obj_get depths s = None;
  fin_sound : ∀ x d, dist_of s depths x = Some d →
                0 ≤ d ∧ hops po (Z.to_nat d) s x;
  fin_closed : ∀ u, is_Some (dist_of s depths u) → closed_at po s depths u
}.

(** ** The order of the LCA resolver *)

(** The order in which [findLCA] ranks two candidates: the sum of the two
    distances first, their maximum on equal sums. *)
Definition lca_le (dA dB dA' dB' : Z) : Prop :=
  dA + dB < dA' + dB'
  ∨ (dA + dB = dA' + dB' ∧ Z.max dA dB ≤ Z.max dA' dB').

Definition lca_valid (A B : obj Z) (r : Lca) : Prop :=
  obj_get A (lca_id r) = Some (lca_dA r)
  ∧ obj_get B (lca_id r) = Some (lca_dB r).

(** ** Example graphs *)



(** ** The loops of [pathToAncestor] *)

(** Big-step reading of [while (u && u !== fromId) { ... }]. *)
Inductive walk_run (prev : gmap jsstring jsstring) (fromId : jsstring)
  : option jsstring → list jsstring → list jsstring → Prop :=
  | walk_undefined path : walk_run prev fromId None path path
  | walk_stop x path :
      x = [] ∨ x = fromId → walk_run prev fromId (Some x) path path
  | walk_next x path res :
      ¬ (x = [] ∨ x = fromId) →
      walk_run prev fromId (prev !! x) (path ++ [x]) res →
      walk_run prev fromId (Some x) path res.

(** Big-step reading of [for (const v of currentLayer) { ... }]. *)
Inductive scan_run (po : gmap jsstring (list jsstring))
    (fromId ancestorId : jsstring)
  : list jsstring → layer_state → list jsstring + layer_state → Prop :=
  | scan_end st : scan_run po fromId ancestorId [] st (inr st)
  | scan_found v layer st path :
      v = ancestorId →
      walk_run (ls_prev st) fromId (Some v) [] path →
      scan_run po fromId ancestorId (v :: layer) st
        (inl (fromId :: reverse path))
  | scan_next v layer st res :
      v ≠ ancestorId →
      scan_run po fromId ancestorId layer
        (foldl (layer_visit v) st (parents po v)) res →
      scan_run po fromId ancestorId (v :: layer) st res.

(** Big-step reading of [while (currentLayer.length) { ... }]. *)
Inductive layers_run (po : gmap jsstring (list jsstring))
    (fromId ancestorId : jsstring)
  : list jsstring → gmap jsstring jsstring → gset jsstring
    → list jsstring → Prop :=
  | layers_end prev seen :
      layers_run po fromId ancestorId [] prev seen [fromId]
  | layers_found layer prev seen path :
      layer ≠ [] →
      scan_run po fromId ancestorId layer (mkLayer prev seen []) (inl path) →
      layers_run po fromId ancestorId layer prev seen path
  | layers_next layer prev seen st res :
      layer ≠ [] →
      scan_run po fromId ancestorId layer (mkLayer prev seen []) (inr st) →
      layers_run po fromId ancestorId (ls_next st) (ls_prev st) (ls_seen st)
        res →
      layers_run po fromId ancestorId layer prev seen res.

(** The back pointers lead to [fromId] along strictly decreasing ranks. *)
Record prev_inv (fromId : jsstring) (rank : jsstring → nat)
    (prev : gmap jsstring jsstring) (seen : gset jsstring) : Prop := {
  pi_chain : ∀ p v, prev !! p = Some v → v ≠ fromId →
               is_Some (prev !! v) ∧ (rank v < rank p)%nat;
  pi_rank : ∀ p, is_Some (prev !! p) → (rank p ≤ size prev)%nat;
  pi_seen : ∀ p, is_Some (prev !! p) → p ∈ seen;
  pi_from : fromId ∈ seen;
  pi_zero : rank fromId = O
}.

(** Every element of [l] is [fromId] or has a back pointer. *)
Definition linked (fromId : jsstring) (prev : gmap jsstring jsstring)
    (l : list jsstring) : Prop :=
  ∀ v, v ∈ l → v = fromId ∨ is_Some (prev !! v).

Definition scan_inv (fromId : jsstring) (st : layer_state) : Prop :=
  (∃ rank, prev_inv fromId rank (ls_prev st) (ls_seen st))
  ∧ linked fromId (ls_prev st) (ls_next st).

Definition layer_measure (po : gmap jsstring (list jsstring))
    (st : layer_state) : nat :=
  (size (universe po ∖ ls_seen st) + length (ls_next st))%nat.

(** [p] has been seen with a back pointer to [a]. *)
Definition pointed (a p : jsstring) (st : layer_state) : Prop :=
  ls_prev st !! p = Some a ∧ p ∈ ls_seen st.

(** ** Vocabulary of the classifier *)





(** The annotation that [describeLine] derives from the sex of the first
    parent of a path. *)
Definition line_of_sex (s : Sex) : jsstring :=
  match s with
  | female => js "по материнской линии"
  | male => js "по отцовской линии"
  | unknown => []
  end.

(** Scenario 1 (self-test 2 of the source): father, mother, son, daughter,
    identifiers issued from 1000. *)
Definition siblings_people : list Person :=
  [mkPerson (String_of_N 1000) (js "Отец") male None;
   mkPerson (String_of_N 1001) (js "Мать") female None;
   mkPerson (String_of_N 1002) (js "Сын") male None;
   mkPerson (String_of_N 1003) (js "Дочь") female None].

Definition siblings_edges : list ParentEdge :=
  [mkEdge (String_of_N 1000) (String_of_N 1002);
   mkEdge (String_of_N 1001) (String_of_N 1002);
   mkEdge (String_of_N 1000) (String_of_N 1003);
   mkEdge (String_of_N 1001) (String_of_N 1003)].

(** Scenario 2 (self-test 3 of the source): a mother and her child,
    identifiers issued from 2000. *)
Definition mother_people : list Person :=
  [mkPerson (String_of_N 2000) (js "Мама") female None;
   mkPerson (String_of_N 2001) (js "Ребёнок") male None].

Definition mother_edges : list ParentEdge :=
  [mkEdge (String_of_N 2000) (String_of_N 2001)].

(** Two men whose lines cross: [X] is a parent of [A] and a grandparent of
    [B] (through [P]), [Y] is a parent of [B] and a grandparent of [A]
    (through [R]).  The identifiers are not numerals, as in an imported
    file. *)
Definition crossed_people : list Person :=
  [mkPerson (js "A") (js "Anton") male None;
   mkPerson (js "B") (js "Boris") male None;
   mkPerson (js "X") (js "Xenia") female None;
   mkPerson (js "Y") (js "Yuri") male None;
   mkPerson (js "P") (js "Polina") female None;
   mkPerson (js "R") (js "Roman") male None].

Definition crossed_edges : list ParentEdge :=
  [mkEdge (js "X") (js "A"); mkEdge (js "R") (js "A");
   mkEdge (js "Y") (js "R"); mkEdge (js "Y") (js "B");
   mkEdge (js "P") (js "B"); mkEdge (js "X") (js "P")].

(** The same family with identifiers that are numerals, as [genId] issues
    them: [A] = 1, [B] = 2, [X] = 3, [Y] = 4, [P] = 5, [R] = 6. *)
Definition crossed_numbered_people : list Person :=
  [mkPerson (js "1") (js "Anton") male None;
   mkPerson (js "2") (js "Boris") male None;
   mkPerson (js "3") (js "Xenia") female None;
   mkPerson (js "4") (js "Yuri") male None;
   mkPerson (js "5") (js "Polina") female None;
   mkPerson (js "6") (js "Roman") male None].

Definition crossed_numbered_edges : list ParentEdge :=
  [mkEdge (js "3") (js "1"); mkEdge (js "6") (js "1");
   mkEdge (js "4") (js "6"); mkEdge (js "4") (js "2");
   mkEdge (js "5") (js "2"); mkEdge (js "3") (js "5")].



(** Two common ancestors of [a] and [b] that tie on the sum and on the
    maximum of their distances are at the same pair of distances. *)
Definition tie_free (po : gmap jsstring (list jsstring))
    (a b : jsstring) : Prop :=
  ∀ x y ax bx ay by_,
    obj_get (getAncestors a po) x = Some ax →
    obj_get (getAncestors b po) x = Some bx →
    obj_get (getAncestors a po) y = Some ay →
    obj_get (getAncestors b po) y = Some by_ →
    ax + bx = ay + by_ → Z.max ax bx = Z.max ay by_ →
    ax = ay ∧ bx = by_.

(** The result of [findLCA] with the two distances exchanged. *)
Definition swap_lca (o : option Lca) : option Lca :=
  (λ r, mkLca (lca_id r) (lca_dB r) (lca_dA r)) <$> o.

(** [k] is a key of both mappings. *)
Definition common_key (A B : obj Z) (k : jsstring) : Prop :=
  is_Some (obj_get A k) ∧ is_Some (obj_get B k).

(** The two calls of [findLCA] resolve ancestors at the same distances. *)
Definition lca_mirrored (po : gmap jsstring (list jsstring))
    (a b : jsstring) : Prop :=
  match findLCA a b po, findLCA b a po with
  | Some r1, Some r2 => lca_dA r2 = lca_dB r1 ∧ lca_dB r2 = lca_dA r1
  | None, None => True
  | _, _ => False
  end.

(** Every identifier recorded as a parent is an array index, as the
    numerals issued by [genId] are. *)
Definition index_keyed (po : gmap jsstring (list jsstring)) : Prop :=
  ∀ x p, p ∈ parents po x → is_Some (array_index p).

(** ** Vocabulary of the normalization *)

(** A letter or digit of the kept class, or a space. *)
Definition norm_char (c : N) : bool := is_word c || (c =? 32)%N.

(** Every white space is a single space that does not follow white space;
    [after_space] tells what precedes [s]. *)
Fixpoint tidy (after_space : bool) (s : jsstring) : bool :=
  match s with
  | [] => true
  | c :: s' =>
      if is_space c then (c =? 32)%N && negb after_space && tidy true s'
      else tidy false s'
  end.

Definition no_leading_space (s : jsstring) : Prop :=
  match s with
  | [] => True
  | c :: _ => is_space c = false
  end.

(** ** Vocabulary of the phrase compiler *)

(** The relation term of a specification is a grandparent term. *)
Definition is_grand_term (w : jsstring) : Prop :=
  isGrandfatherWord w || isGrandmotherWord w = true.

(** The tokens from position [i] on start with a line clause. *)
Definition line_clause_at (tokens : list jsstring) (i : nat) : Prop :=
  tokens !! i = Some (js "по")
  ∧ (tokens !! (i + 1)%nat = Some (js "материнской")
     ∨ tokens !! (i + 1)%nat = Some (js "отцовской"))
  ∧ tokens !! (i + 2)%nat = Some (js "линии").

(** The invariants of an edge collection. *)
Definition edges_ok (rels : list ParentEdge) : Prop :=
  NoDup rels ∧ ∀ e, e ∈ rels → parentId e ≠ childId e.

(** Invariant of the synthesizer state, for a call entered with the counter
    at [n0]: the person at position [i] has the identifier [String(n0 + i)],
    the map [byKey] and the names of the persons agree, and the edges obey
    the invariants. *)
Record synth_inv (n0 : N) (st : Synth) : Prop := {
  si_ids : ∀ i p, s_people st !! i = Some p →
             id p = String_of_N (n0 + N.of_nat i);
  si_next : next_id st = (n0 + N.of_nat (length (s_people st)))%N;
  si_key : ∀ nm r, byKey st !! name_key nm = Some r →
             ∃ p, s_people st !! r = Some p ∧ name p = nm;
  si_named : ∀ r p, s_people st !! r = Some p →
               byKey st !! name_key (name p) = Some r;
  si_edges : edges_ok (s_rels st)
}.

(** The person object [r] exists and is called [nm]. *)
Definition named (st : Synth) (r : nat) (nm : jsstring) : Prop :=
  ∃ p, s_people st !! r = Some p ∧ name p = nm.

(** The persons of [st] are still there in [st'], under the same names and
    identifiers. *)
Definition extends (st st' : Synth) : Prop :=
  ∀ r nm, named st r nm → named st' r nm.

Definition root_name (b : Base) : jsstring := his_her b (js "Он") (js "Она").

(** Name of the node that a chain reaches after the steps [path]. *)
Definition chain_name (b : Base) (path : list Step) : jsstring :=
  match path with
  | [] => root_name b
  | _ => (labelForPath b path).1
  end.

(** The name of the root that a pronoun stands for: [base] is "he" for
    "его" and "she" for the other pronouns, and [ensureChain] calls the
    root "Он" or "Она" accordingly. *)
Definition pronoun_root (pron : jsstring) : jsstring :=
  if decide (pron = js "его") then js "Он" else js "Она".

(** A phrase with the same pronoun on both sides, and the graph that it
    parses to when the counter is at 1. *)
Definition same_pronoun_phrase : jsstring := js "его мама сестра его мама".

Definition same_pronoun_graph : Parsed :=
  mkParsed
    [mkPerson (js "1") (js "Он") male None;
     mkPerson (js "2") (js "Его мать") female None;
     mkPerson (js "3") (js "Общий прадед") male None;
     mkPerson (js "4") (js "Общая прабабушка") female None]
    [mkEdge (js "2") (js "1"); mkEdge (js "3") (js "2");
     mkEdge (js "4") (js "2")].

(** ** Vocabulary of the further properties *)

(** Two persons recorded as parents of each other. *)
Definition loop_edges : list ParentEdge :=
  [mkEdge (js "x") (js "y"); mkEdge (js "y") (js "x")].

Definition loop_graph : gmap jsstring (list jsstring) :=
  parentsOf (buildIndexes [] loop_edges).

(** Every element of [path] is a recorded parent of the element before. *)
Definition ascending (po : gmap jsstring (list jsstring))
    (path : list jsstring) : Prop :=
  ∀ i x y, path !! i = Some x → path !! S i = Some y → y ∈ parents po x.

(** [l] lists [x], a child of [x], a child of that child, and so on down to
    a child of [fromId]; it is empty when [x] is [fromId]. *)
Inductive descent (po : gmap jsstring (list jsstring)) (fromId : jsstring)
  : jsstring → list jsstring → Prop :=
  | descent_end : descent po fromId fromId []
  | descent_step x v l :
      x ≠ fromId → x ∈ parents po v → descent po fromId v l →
      descent po fromId x (x :: l).

(** Invariant of the search of [pathToAncestor]: the back pointers follow
    parent edges and lead to [fromId]; a seen identifier that is no longer
    [pending] is not the one looked for and has all its parents seen. *)
Record path_inv (po : gmap jsstring (list jsstring))
    (fromId ancestorId : jsstring) (prev : gmap jsstring jsstring)
    (seen : gset jsstring) (pending : list jsstring) : Prop := {
  pv_edge : ∀ p v, prev !! p = Some v →
              p ∈ parents po v ∧ p ≠ fromId
              ∧ (v = fromId ∨ is_Some (prev !! v));
  pv_seen : ∀ x, x ∈ seen ↔ x = fromId ∨ is_Some (prev !! x);
  pv_closed : ∀ u, u ∈ seen → u ∉ pending →
                u ≠ ancestorId ∧ ∀ p, p ∈ parents po u → p ∈ seen;
  pv_pending : ∀ u, u ∈ pending → u ∈ seen
}.

(** The demonstration graph is ranked by generation. *)
Definition demo_rank : jsstring → nat :=
  rank_by [(js "1", 0); (js "6", 0); (js "2", 1); (js "5", 1);
           (js "3", 2); (js "4", 2); (js "7", 3); (js "8", 3)]%nat.

(** The annotation derived from the person found for the first step [q] of
    a path. *)
Definition line_of (byId : gmap jsstring Person) (q : jsstring) : jsstring :=
  match byId !! q with
  | Some P => line_of_sex (sex P)
  | None => []
  end.

(** Two lists of persons that agree, position by position, on identifier
    and sex. *)
Definition same_id_sex (people people' : list Person) : Prop :=
  Forall2 (λ p q, id p = id q ∧ sex p = sex q) people people'.

(** Two lookups that find persons of the same sex, or nothing. *)
Definition same_sex (o o' : option Person) : Prop :=
  match o, o' with
  | Some p, Some q => sex p = sex q
  | None, None => True
  | _, _ => False
  end.

(** The demonstration persons under other names and without notes. *)
Definition demo_renamed : list Person :=
  (λ p, mkPerson (id p) (js "N" ++ id p) (sex p) None) <$> buildDemo.1.

(** ** Vocabulary of the editor *)

(** Every identifier is a numeral that the counter has passed. *)
Definition issued (n : N) (people : list Person) : Prop :=
  Forall (λ p, ∃ m, id p = String_of_N m ∧ (m < n)%N) people.

(** The events of the page that reach the state: the buttons, the five
    inputs, and the quick parser. *)
Inductive Action :=
  | LoadDemo
  | AddPerson
  | AddParentChild
  | RemovePerson (i : jsstring)
  | HandleParse (text : jsstring)
  | SetNewName (s : jsstring)
  | SetNewSex (x : Sex)
  | SetParentSel (v : jsstring)
  | SetChildSel (v : jsstring)
  | SetFromSel (v : jsstring)
  | SetToSel (v : jsstring).

Definition act (toLowerCase not_defined : jsstring → jsstring)
    (st : Editor) (a : Action) : Editor :=
  match a with
  | LoadDemo => loadDemo st
  | AddPerson => addPerson st
  | AddParentChild => addParentChild_selected st
  | RemovePerson i => removePerson i st
  | HandleParse text => (handleParse toLowerCase not_defined text st).2
  | SetNewName s =>
      mkEditor (ed_people st) (ed_rels st) s (ed_newSex st)
        (ed_parentSel st) (ed_childSel st) (ed_fromSel st) (ed_toSel st)
        (ed_id st)
  | SetNewSex x =>
      mkEditor (ed_people st) (ed_rels st) (ed_newName st) x
        (ed_parentSel st) (ed_childSel st) (ed_fromSel st) (ed_toSel st)
        (ed_id st)
  | SetParentSel v =>
      mkEditor (ed_people st) (ed_rels st) (ed_newName st) (ed_newSex st)
        v (ed_childSel st) (ed_fromSel st) (ed_toSel st) (ed_id st)
  | SetChildSel v =>
      mkEditor (ed_people st) (ed_rels st) (ed_newName st) (ed_newSex st)
        (ed_parentSel st) v (ed_fromSel st) (ed_toSel st) (ed_id st)
  | SetFromSel v =>
      mkEditor (ed_people st) (ed_rels st) (ed_newName st) (ed_newSex st)
        (ed_parentSel st) (ed_childSel st) v (ed_toSel st) (ed_id st)
  | SetToSel v =>
      mkEditor (ed_people st) (ed_rels st) (ed_newName st) (ed_newSex st)
        (ed_parentSel st) (ed_childSel st) (ed_fromSel st) v (ed_id st)
  end.

(** What a session without import keeps: identifiers are pairwise distinct
    numerals below the counter, and the edges are free of self-loops and
    duplicates. *)
Record editor_inv (st : Editor) : Prop := {
  ei_distinct : NoDup (id <$> ed_people st);
  ei_issued : issued (ed_id st) (ed_people st);
  ei_edges : edges_ok (ed_rels st)
}.

(** The page as it is mounted, with the counter where the self-tests left
    it. *)
Definition mounted : Editor := mkEditor [] [] [] unknown [] [] [] [] 2002.

(** The message of V8 for a name without binding. *)
Definition not_defined_v8 (x : jsstring) : jsstring :=
  x ++ js " is not defined".

(** What the canonical phrase parses to. *)
Definition canonical_left : RelativeSpec :=
  mkSpec he [mother] (js "Его мать") female [] 2.

Definition canonical_connector : Connector :=
  mkConnector (js "сестра") (Some (js "младшая")) 4.

Definition canonical_right : RelativeSpec :=
  mkSpec she [mother; father] (js "Её дед (по материнской линии)") male [] 9.

(** ** Vocabulary of the grammar *)

(** The specification that names the relative reached from [b] by
    [steps], as the synthesizer labels it. *)
Definition spec_of (b : Base) (steps : list Step) (next : nat)
  : RelativeSpec :=
  mkSpec b steps (labelForPath b steps).1 (labelForPath b steps).2 [] next.

Definition side_word (side : Side) : jsstring :=
  match side with
  | maternal => js "материнской"
  | paternal => js "отцовской"
  end.

Definition side_step (side : Side) : Step :=
  match side with
  | maternal => mother
  | paternal => father
  end.

(** The line clause of [side] starts at position [j]. *)
Definition line_side_at (tokens : list jsstring) (j : nat) (side : Side)
  : Prop :=
  tokens !! j = Some (js "по")
  ∧ tokens !! (j + 1)%nat = Some (side_word side)
  ∧ tokens !! (j + 2)%nat = Some (js "линии").

(** A token that [parseSiblingConnector] skips. *)
Definition is_filler (w : jsstring) : Prop :=
  w ∈ FILLERS ∨ w = js "—" ∨ w = js "-".

(** The pronoun decides whose relative is meant. *)
Definition base_of (pron : jsstring) : Base :=
  if decide (pron = js "его") then he else she.

(** What a relative specification reads from position [i] on. *)
Definition relative_at (tokens : list jsstring) (i : nat)
    (spec : RelativeSpec) : Prop :=
  ∃ pron w,
    tokens !! i = Some pron ∧ pron ∈ PRONOUN
    ∧ tokens !! (i + 1)%nat = Some w
    ∧ ((w ∈ motherWords ∧ spec = spec_of (base_of pron) [mother] (i + 2))
       ∨ (w ∈ fatherWords ∧ spec = spec_of (base_of pron) [father] (i + 2))
       ∨ (is_grand_term w
          ∧ ∃ side,
              line_side_at tokens (i + 2) side
              ∧ spec = spec_of (base_of pron)
                         [side_step side;
                          if isGrandfatherWord w then father else mother]
                         (i + 5))).

(** What the connector reads from position [i] on: fillers, an optional
    rank word, and the sibling word. *)
Definition connector_at (tokens : list jsstring) (i : nat)
    (conn : Connector) : Prop :=
  ∃ fillers rest,
    drop i tokens
    = fillers ++ option_list (conn_rank conn) ++ conn_kind conn :: rest
    ∧ Forall is_filler fillers
    ∧ (∀ rank, conn_rank conn = Some rank → rank ∈ RANK_WORDS)
    ∧ conn_kind conn ∈ SIBLING_WORDS
    ∧ conn_next conn
      = (i + length fillers + length (option_list (conn_rank conn)) + 1)%nat.

(** ** Vocabulary of the synthesized graphs *)

(** The generation of a synthesized person, read off the name: the two
    roots, their parents, their grandparents, the common parents. *)
Definition name_rank : jsstring → nat :=
  rank_by [(js "Он", 0); (js "Она", 0);
           (js "Его мать", 1); (js "Её мать", 1);
           (js "Его отец", 1); (js "Её отец", 1);
           (js "Его дед (по материнской линии)", 2);
           (js "Её дед (по материнской линии)", 2);
           (js "Его бабушка (по материнской линии)", 2);
           (js "Её бабушка (по материнской линии)", 2);
           (js "Его дед (по отцовской линии)", 2);
           (js "Её дед (по отцовской линии)", 2);
           (js "Его бабушка (по отцовской линии)", 2);
           (js "Её бабушка (по отцовской линии)", 2);
           (js "Общий прадед", 3); (js "Общая прабабушка", 3)]%nat.

(** Every edge joins two persons of the state, the parent one of a later
    generation than the child. *)
Definition edges_ranked (st : Synth) : Prop :=
  ∀ e, e ∈ s_rels st →
    ∃ i j p c,
      s_people st !! i = Some p ∧ s_people st !! j = Some c
      ∧ parentId e = id p ∧ childId e = id c
      ∧ (name_rank (name c) < name_rank (name p))%nat.

(** The persons of [st] are still there in [st'], at the same positions and
    under the same identifiers and names. *)
Definition keeps (st st' : Synth) : Prop :=
  ∀ i p, s_people st !! i = Some p →
    ∃ p', s_people st' !! i = Some p' ∧ id p' = id p ∧ name p' = name p.

(** The generation of the person who carries the identifier [i]. *)
Definition id_rank (people : list Person) (i : jsstring) : nat :=
  match find (λ p, bool_decide (id p = i)) people with
  | Some p => name_rank (name p)
  | None => O
  end.

(** ** Vocabulary of the synthesis at two counters *)

(** The identifier issued [i] calls after the counter was at [n]. *)
Definition numeral (n : N) (i : nat) : jsstring :=
  String_of_N (n + N.of_nat i).

(** The edge between the persons at two positions. *)
Definition edge_at (n : N) (e : nat * nat) : ParentEdge :=
  mkEdge (numeral n e.1) (numeral n e.2).

(** Parent hops between positions, for edges given by positions (parent,
    child). *)
Inductive ihops (L : list (nat * nat)) : nat → nat → nat → Prop :=
  | ihops_O i : ihops L O i i
  | ihops_S k i p j : (p, i) ∈ L → ihops L k p j → ihops L (S k) i j.

(** Two states of the synthesizer, entered with the counter at [n] and at
    [m], that hold the same persons up to identifier and note and the same
    edges between the same positions. *)
Record twin (n m : N) (st st' : Synth) : Prop := {
  tw_keys : byKey st = byKey st';
  tw_people : Forall2 (λ p q, name p = name q ∧ sex p = sex q)
                (s_people st) (s_people st');
  tw_inv : synth_inv n st;
  tw_inv' : synth_inv m st';
  tw_rels : ∃ L, s_rels st = edge_at n <$> L ∧ s_rels st' = edge_at m <$> L
}.

(** Every key that the two mappings share is at the distances [k] and
    [l]. *)
Definition all_common_at (A B : obj Z) (k l : Z) : bool :=
  forallb (λ e, match obj_get B e.1 with
                | Some dB => (e.2 =? k) && (dB =? l)
                | None => true
                end) A.

(** A phrase without rank word, synthesized with the counter at 1. *)
Definition plain_connector : Connector := mkConnector [] None 0.

Definition reference_graph (bl : Base) (sl : list Step) (br : Base)
    (sr : list Step) : Synth :=
  synthesize (spec_of bl sl 0) plain_connector (spec_of br sr 0) 1.

(** The two titles for "Он" and "Она" when his relative, [a] generations
    up, and her relative, [b] generations up, are siblings. *)
Definition he_she_titles (a b : nat) : jsstring * jsstring :=
  match a, b with
  | 1, 1 => (js "двоюродная сестра", js "двоюродный брат")
  | 1, 2 => (js "двоюродный дядя", js "двоюродная племянница")
  | 2, 1 => (js "двоюродная племянник", js "двоюродный тётя")
  | 2, 2 => (js "троюродная сестра", js "троюродный брат")
  | _, _ => ([], [])
  end%nat.

(** The chains of steps that a relative specification can carry. *)
Definition chains : list (list Step) :=
  [[mother]; [father]; [mother; father]; [mother; mother];
   [father; father]; [father; mother]].

(** The position at which the synthesizer creates "Он" and "Она", for a
    phrase whose left relative is reached from [bl] by [sl]. *)
Definition his_position (bl : Base) (sl : list Step) : nat :=
  match bl with he => O | she => S (length sl) end.

Definition her_position (bl : Base) (sl : list Step) : nat :=
  match bl with he => S (length sl) | she => O end.

(** A phrase whose sibling word contradicts the sex of the left relative. *)
Definition mismatch_tokens : list jsstring :=
  [js "его"; js "отец"; js "сестра"; js "ее"; js "мама"].

(** The notes of the persons are given by their names, and every name that
    carries a note is in use. *)
Definition notes_as (f : jsstring → option jsstring) (st : Synth) : Prop :=
  (∀ r p, s_people st !! r = Some p → note p = f (name p))
  ∧ (∀ nm, f nm ≠ None → is_Some (byKey st !! name_key nm)).

(** The note that the rank word leaves. *)
Definition rank_note (conn : Connector) : option jsstring :=
  match conn_rank conn with
  | Some rank => if decide (rank = []) then None else Some rank
  | None => None
  end.

Definition note_of (nm : jsstring) (conn : Connector) (x : jsstring)
  : option jsstring :=
  if decide (x = nm) then rank_note conn else None.

(** A session on the mounted page. *)
Definition example_session : list Action :=
  [SetNewName (js " Анна "); SetNewSex female; AddPerson;
   SetNewName (js "Пётр"); AddPerson;
   SetParentSel (js "2002"); SetChildSel (js "2003"); AddParentChild;
   HandleParse (js "его отец - брат ее мама"); AddPerson;
   RemovePerson (js "2002"); LoadDemo].

(** * Properties *)

(** A closed proposition that is decided by evaluation. *)
Ltac decide_closed :=
  match goal with
  | |- ?P => apply (@bool_decide_eq_true_1 P _); vm_compute; reflexivity
  end.


(** ** Association-list objects *)

Lemma obj_get_set {V} (o : obj V) k v x :
  obj_get (obj_set o k v) x = if decide (x = k) then Some v else obj_get o x.
Proof.
  induction o as [|[k' v'] o IH]; simpl.
  - repeat case_decide; congruence.
  - repeat (case_decide; simpl); try congruence.
Qed.

Lemma obj_get_Some_keys {V} (o : obj V) k v :
  obj_get o k = Some v → k ∈ o.*1.
Proof.
  induction o as [|[k' v'] o IH]; simpl; [done|].
  case_decide; subst; intros; [left | right; auto].
Qed.

Lemma obj_get_keys {V} (o : obj V) k :
  k ∈ o.*1 → is_Some (obj_get o k).
Proof.
  induction o as [|[k' v'] o IH]; simpl.
  - by intros ?%elem_of_nil.
  - intros [->|?]%elem_of_cons; case_decide; eauto; congruence.
Qed.

(** ** Parent hops and acyclicity *)

Lemma hops_trans po n m x y z :
  hops po n x y → hops po m y z → hops po (n + m) x z.
Proof. induction 1; simpl; eauto using hops. Qed.

Lemma hops_snoc po n x y p :
  hops po n x y → p ∈ parents po y → hops po (S n) x p.
Proof.
  intros H Hp. replace (S n) with (n + 1)%nat by lia.
  eapply hops_trans; eauto using hops.
Qed.

Lemma ranked_hops rank po n x y :
  ranked rank po → hops po n x y → (rank x + n ≤ rank y)%nat.
Proof.
  intros Hr. induction 1 as [|n x p y Hp _ IH]; [lia|].
  unfold parents in Hp. destruct (po !! x) as [ps|] eqn:E; simpl in Hp.
  - specialize (Hr x ps E). simpl in Hr.
    rewrite Forall_forall in Hr. specialize (Hr p Hp). lia.
  - by apply elem_of_nil in Hp.
Qed.

Lemma ranked_acyclic rank po : ranked rank po → acyclic po.
Proof. intros Hr x n H. apply (ranked_hops _ _ _ _ _ Hr) in H. lia. Qed.

Lemma parents_universe po x p : p ∈ parents po x → p ∈ universe po.
Proof.
  unfold parents, universe.
  apply (map_fold_weak_ind
           (λ acc m, p ∈ default [] (m !! x) → p ∈ acc)).
  - rewrite lookup_empty. simpl. by intros ?%elem_of_nil.
  - intros k ps m acc Hk IH. rewrite lookup_insert.
    case_decide; simpl; set_solver.
Qed.

(** ** Breadth-first search of the ancestors *)

Lemma size_unseen_insert (U seen : gset jsstring) p :
  p ∈ U → p ∉ seen →
  size (U ∖ seen) = S (size (U ∖ ({[p]} ∪ seen))).
Proof.
  intros HU Hs.
  replace (U ∖ seen) with ({[p]} ∪ U ∖ ({[p]} ∪ seen)).
  - rewrite size_union by set_solver. by rewrite size_singleton.
  - apply set_eq. intros x. destruct (decide (x = p)); set_solver.
Qed.

Lemma visit_measure po d st p :
  p ∈ universe po → bfs_measure po (visit d st p) = bfs_measure po st.
Proof.
  intros HU. unfold visit, bfs_measure. case_decide; [done|]. simpl.
  rewrite (size_unseen_insert _ (bfs_seen st) p) by done.
  rewrite length_app. simpl. lia.
Qed.

Lemma visit_fold_measure po d ps st :
  (∀ p, p ∈ ps → p ∈ universe po) →
  bfs_measure po (foldl (visit d) st ps) = bfs_measure po st.
Proof.
  revert st. induction ps as [|p ps IH]; intros st H; simpl; [done|].
  rewrite IH by set_solver. apply visit_measure. set_solver.
Qed.

Lemma bfs_loop_run po fuel st :
  (bfs_measure po st ≤ fuel)%nat → bfs_run po st (bfs_loop fuel po st).
Proof.
  revert st. induction fuel as [|fuel IH]; intros [depths seen queue] Hm.
  - destruct queue as [|[cur d] rest]; [constructor|].
    unfold bfs_measure in Hm. simpl in Hm. lia.
  - destruct queue as [|[cur d] rest]; [constructor|].
    simpl. constructor. apply IH.
    unfold bfs_step. rewrite visit_fold_measure.
    + unfold bfs_measure in *. simpl in *. lia.
    + intros p. apply parents_universe.
Qed.

(** The loop of [getAncestors] runs to completion. *)
Lemma getAncestors_run i po :
  bfs_run po (mkBfs [] {[i]} [(i, 0)]) (getAncestors i po).
Proof.
  apply bfs_loop_run. unfold bfs_measure. simpl.
  assert (size (universe po ∖ {[i]}) ≤ size (universe po))%nat.
  { apply subseteq_size. set_solver. }
  lia.
Qed.

Section bfs_invariant.
Variable po : gmap jsstring (list jsstring).
Variable s : jsstring.

Lemma dist_of_set depths p v x :
  p ≠ s →
  dist_of s (obj_set depths p v) x
  = if decide (x = p) then Some v else dist_of s depths x.
Proof.
  intros Hp. unfold dist_of. rewrite obj_get_set.
  repeat case_decide; congruence.
Qed.

Lemma closed_at_set depths p v u :
  p ≠ s → dist_of s depths p = None → closed_at po s depths u →
  closed_at po s (obj_set depths p v) u.
Proof.
  intros Hp Hnone Hc q Hq. destruct (Hc q Hq) as (dp & du & H1 & H2 & H3).
  exists dp, du. rewrite !dist_of_set by done.
  repeat case_decide; subst; try congruence. done.
Qed.

Lemma visit_mid lo cur seen_ps st p :
  0 ≤ lo → p ∈ parents po cur → mid_inv po s lo cur seen_ps st →
  mid_inv po s lo cur (p :: seen_ps) (visit lo st p).
Proof.
  intros Hlo Hp [Hseen Hstart Hq Hqd Hsound Hcur Hclosed Hdone].
  unfold visit. case_decide as Hin.
  - split; try done. intros q [->|?]%elem_of_cons; [|by auto].
    apply Hseen in Hin as [dp Hdp]. exists dp. split; [done|].
    apply Hsound in Hdp. lia.
  - assert (dist_of s (bfs_depths st) p = None) as Hnone.
    { destruct (dist_of s (bfs_depths st) p) eqn:E; [|done].
      exfalso. apply Hin, Hseen. eauto. }
    assert (p ≠ s) as Hps.
    { intros ->. apply Hin, Hseen. unfold dist_of. rewrite decide_True; eauto. }
    assert (obj_get (bfs_depths st) p = None) as Hget.
    { unfold dist_of in Hnone. by rewrite decide_False in Hnone. }
    rewrite Hget. split; simpl.
    + intros x. rewrite dist_of_set by done. case_decide; subst.
      * split; [eauto | set_solver].
      * rewrite <- Hseen. set_solver.
    + rewrite obj_get_set. by rewrite decide_False.
    + destruct Hq as (q1 & q2 & -> & H1 & H2).
      exists q1, (q2 ++ [(p, lo + 1)]). rewrite app_assoc.
      split_and!; [done..|]. apply Forall_app. split; [done|].
      by constructor.
    + apply Forall_app. split.
      * eapply Forall_impl; [exact Hqd|]. intros [x d] Hx. simpl in *.
        rewrite dist_of_set by done. case_decide; subst; congruence.
      * constructor; [|done]. simpl. rewrite dist_of_set by done.
        by rewrite decide_True.
    + intros x d. rewrite dist_of_set by done. case_decide; subst.
      * intros [= <-]. split; [lia|].
        replace (Z.to_nat (lo + 1)) with (S (Z.to_nat lo)) by lia.
        eapply hops_snoc; [|done]. by apply Hsound in Hcur as [_ ?].
      * apply Hsound.
    + rewrite dist_of_set by done. case_decide; subst; congruence.
    + intros u Hu Hnq Hne. rewrite fmap_app in Hnq. simpl in Hnq.
      assert (u ≠ p) by set_solver.
      apply closed_at_set; [done..|]. apply Hclosed; set_solver.
    + intros q [->|Hq']%elem_of_cons.
      * exists (lo + 1). rewrite dist_of_set by done.
        rewrite decide_True by done. split; [done|lia].
      * destruct (Hdone q Hq') as (dq & Hdq & ?). exists dq.
        rewrite dist_of_set by done. case_decide; subst; [congruence|done].
Qed.

Lemma visit_fold_mid lo cur ps seen_ps st :
  0 ≤ lo → (∀ p, p ∈ ps → p ∈ parents po cur) → mid_inv po s lo cur seen_ps st →
  mid_inv po s lo cur (reverse ps ++ seen_ps) (foldl (visit lo) st ps).
Proof.
  intros Hlo. revert seen_ps st.
  induction ps as [|p ps IH]; intros seen_ps st Hps Hinv; simpl; [done|].
  rewrite reverse_cons, <- app_assoc. simpl. apply IH; [set_solver|].
  apply visit_mid; [done| |done]. set_solver.
Qed.

Lemma bfs_inv_head lo depths seen cur d rest :
  bfs_inv po s lo (mkBfs depths seen ((cur, d) :: rest)) →
  0 ≤ d ∧ mid_inv po s d cur [] (mkBfs depths seen rest).
Proof.
  intros [Hseen Hstart Hq Hqd Hsound Hclosed]. simpl in *.
  apply Forall_cons in Hqd as [Hcur Hqd]. simpl in Hcur.
  assert (0 ≤ d) by (apply Hsound in Hcur; lia).
  destruct Hq as (q1 & q2 & Hq & H1 & H2).
  assert (∃ r1 r2, rest = r1 ++ r2 ∧ Forall (λ e, e.2 = d) r1
            ∧ Forall (λ e, e.2 = d + 1) r2 ∧ lo ≤ d) as (r1 & r2 & -> & ? & ? & ?).
  { destruct q1 as [|e q1]; simpl in Hq.
    - destruct q2 as [|e q2]; simplify_eq.
      apply Forall_cons in H2 as [? H2]. simpl in *. subst.
      exists q2, []. rewrite app_nil_r. split_and!; [done..| |lia]. done.
    - simplify_eq. apply Forall_cons in H1 as [? H1]. simpl in *. subst.
      exists q1, q2. split_and!; [done..|lia]. }
  split; [done|]. split; simpl; try done.
  - eauto.
  - intros x dx Hx. apply Hsound in Hx. split; [lia|tauto].
  - intros u Hu Hnq Hne. apply Hclosed; [done|]. set_solver.
  - by intros p ?%elem_of_nil.
Qed.

Lemma bfs_step_inv lo depths seen cur d rest :
  bfs_inv po s lo (mkBfs depths seen ((cur, d) :: rest)) →
  bfs_inv po s d (bfs_step po cur d rest seen depths).
Proof.
  intros [Hd Hmid]%bfs_inv_head.
  apply (visit_fold_mid d cur (parents po cur)) in Hmid; [|done..].
  unfold bfs_step. destruct Hmid.
  split; try done.
  intros u Hu Hnq. destruct (decide (u = cur)) as [->|Hne]; [|by auto].
  intros p Hp. destruct (mid_done0 p) as (dp & ? & ?).
  { rewrite app_nil_r. by apply elem_of_reverse. }
  exists dp, d. split_and!; [done..|lia].
Qed.

Lemma bfs_run_final st res :
  bfs_run po st res → ∀ lo, bfs_inv po s lo st → bfs_final po s res.
Proof.
  induction 1 as [depths seen|cur d rest seen depths res _ IH]; intros lo Hinv.
  - destruct Hinv as [Hseen Hstart _ _ Hsound Hclosed]. simpl in *.
    split; [done| |].
    + intros x d Hx. apply Hsound in Hx. tauto.
    + intros u Hu. apply Hclosed; [by apply Hseen|]. set_solver.
  - eapply IH, bfs_step_inv, Hinv.
Qed.

Lemma bfs_inv_init : bfs_inv po s 0 (mkBfs [] {[s]} [(s, 0)]).
Proof.
  split; simpl.
  - intros x. unfold dist_of. case_decide; subst; simpl.
    + split; [eauto|set_solver].
    + split; [set_solver|]. by intros [? ?].
  - done.
  - exists [(s, 0)], []. split_and!; [done| |done]. by constructor.
  - constructor; [|done]. simpl. unfold dist_of. by rewrite decide_True.
  - intros x d. unfold dist_of. case_decide; subst; simpl; [|done].
    intros [= <-]. split; [lia|]. constructor.
  - set_solver.
Qed.

Lemma bfs_final_complete depths n u x du :
  bfs_final po s depths → dist_of s depths u = Some du → hops po n u x →
  ∃ dx, dist_of s depths x = Some dx ∧ dx ≤ du + Z.of_nat n.
Proof.
  intros Hfin Hu Hh. revert du Hu.
  induction Hh as [x|n u p y Hp _ IH]; intros du Hu.
  - exists du. split; [done|lia].
  - destruct (fin_closed _ _ _ Hfin u (mk_is_Some _ _ Hu) p Hp)
      as (dp & du' & Hdp & Hdu & Hle).
    destruct (IH dp Hdp) as (dy & ? & ?). exists dy. split; [done|].
    simplify_eq. lia.
Qed.

End bfs_invariant.

Lemma getAncestors_final i po : bfs_final po i (getAncestors i po).
Proof.
  eapply bfs_run_final; [apply getAncestors_run | apply bfs_inv_init].
Qed.

(** The recorded depth of every key is the length of a shortest chain of
    parent hops, and every identifier other than the start that such a
    chain reaches is a key. *)
Lemma getAncestors_sound i po a d :
  obj_get (getAncestors i po) a = Some d →
  a ≠ i ∧ 1 ≤ d ∧ hops po (Z.to_nat d) i a
  ∧ ∀ m, hops po m i a → d ≤ Z.of_nat m.
Proof.
  intros Hget. pose proof (getAncestors_final i po) as Hfin.
  assert (a ≠ i) as Hne.
  { intros ->. rewrite (fin_start _ _ _ Hfin) in Hget. done. }
  assert (dist_of i (getAncestors i po) a = Some d) as Hd.
  { unfold dist_of. by rewrite decide_False. }
  destruct (fin_sound _ _ _ Hfin a d Hd) as [Hd0 Hh].
  assert (∀ m : nat, hops po m i a → d ≤ Z.of_nat m) as Hmin.
  { intros m Hm.
    destruct (bfs_final_complete po i _ m i a 0 Hfin) as (dx & Hdx & ?);
      [unfold dist_of; by rewrite decide_True|done|].
    simplify_eq. lia. }
  split_and!; [done| |done..].
  destruct (decide (d = 0)) as [->|]; [|lia].
  simpl in Hh. inversion Hh. congruence.
Qed.

Lemma getAncestors_complete i po a n :
  a ≠ i → hops po n i a → is_Some (obj_get (getAncestors i po) a).
Proof.
  intros Hne Hh. pose proof (getAncestors_final i po) as Hfin.
  destruct (bfs_final_complete po i _ n i a 0 Hfin) as (dx & Hdx & ?);
    [unfold dist_of; by rewrite decide_True|done|].
  unfold dist_of in Hdx. rewrite decide_False in Hdx by done. eauto.
Qed.



(** The lookups as JavaScript performs them, on plain identifiers. *)

Lemma plain_not_member k : plain k → bool_decide (k ∈ Object_prototype) = false.
Proof. intros H. by apply bool_decide_eq_false_2. Qed.

Lemma visit_any_plain d st p : plain p → visit_any d st p = visit d st p.
Proof.
  intros Hp. unfold visit_any, visit. case_decide; [done|].
  rewrite decide_False; [done|]. intros ->. apply Hp. set_solver.
Qed.

Lemma visit_plain_queue d st p :
  plain p → Forall (λ e, plain e.1) (bfs_queue st) →
  Forall (λ e, plain e.1) (bfs_queue (visit d st p)).
Proof.
  intros Hp Hq. unfold visit. case_decide; [done|]. simpl.
  apply Forall_app. split; [done|]. by repeat constructor.
Qed.

Lemma visit_any_fold_plain d ps st :
  Forall plain ps → Forall (λ e, plain e.1) (bfs_queue st) →
  foldl (visit_any d) st ps = foldl (visit d) st ps
  ∧ Forall (λ e, plain e.1) (bfs_queue (foldl (visit d) st ps)).
Proof.
  intros Hps. revert st. induction Hps as [|p ps Hp _ IH]; intros st Hq;
    simpl; [done|].
  rewrite (visit_any_plain _ _ _ Hp). by apply IH, visit_plain_queue.
Qed.

Lemma bfs_loop_any_plain fuel po st :
  plain_graph po → Forall (λ e, plain e.1) (bfs_queue st) →
  bfs_loop_any fuel po st = Normal (bfs_loop fuel po st).
Proof.
  intros Hpo. revert st. induction fuel as [|fuel IH]; intros [depths seen q];
    simpl; intros Hq.
  - by destruct q as [|[cur d] rest].
  - destruct q as [|[cur d] rest]; [done|].
    apply Forall_cons in Hq as [Hcur Hrest]. simpl in Hcur.
    unfold slot, bfs_step, parents. rewrite (plain_not_member _ Hcur).
    destruct (po !! cur) as [ps|] eqn:E; simpl.
    + destruct (visit_any_fold_plain d ps (mkBfs depths seen rest))
        as [-> Hq']; [by apply (Hpo cur ps E)|done|].
      by apply IH.
    + by apply IH.
Qed.

Lemma getAncestors_any_plain i po :
  plain i → plain_graph po → getAncestors_any i po = Normal (getAncestors i po).
Proof.
  intros Hi Hpo. apply bfs_loop_any_plain; [done|]. by repeat constructor.
Qed.

Lemma isAncestorOf_any_plain a b po :
  plain a → plain b → plain_graph po →
  isAncestorOf_any a b po = Normal (Number (isAncestorOf a b po)).
Proof.
  intros Ha Hb Hpo. unfold isAncestorOf_any, isAncestorOf.
  rewrite (getAncestors_any_plain _ _ Hb Hpo), (plain_not_member _ Ha).
  by destruct (obj_get _ a).
Qed.



(** ** LCA resolver *)

Lemma insert_index_perm e l : insert_index e l ≡ₚ e :: l.
Proof.
  induction l as [|e' l IH]; simpl; [done|].
  case_match; [done|]. rewrite IH. apply Permutation_swap.
Qed.

Lemma sort_index_perm l : sort_index l ≡ₚ l.
Proof.
  induction l as [|e l IH]; simpl; [done|].
  rewrite insert_index_perm. by rewrite IH.
Qed.

Lemma elem_of_index_keys ks n k :
  (n, k) ∈ index_keys ks ↔ k ∈ ks ∧ array_index k = Some n.
Proof.
  unfold index_keys. rewrite list_elem_of_omap. split.
  - intros (k' & Hk & Heq). destruct (array_index k') eqn:E; simplify_eq/=.
    done.
  - intros [Hk Heq]. exists k. by rewrite Heq.
Qed.

Lemma elem_of_Object_keys {V} (o : obj V) k :
  k ∈ Object_keys o ↔ k ∈ o.*1.
Proof.
  unfold Object_keys. rewrite elem_of_app, list_elem_of_filter. split.
  - intros [Hk|[_ Hk]]; [|done].
    apply list_elem_of_fmap in Hk as ([n k'] & -> & Hk).
    rewrite sort_index_perm in Hk. by apply elem_of_index_keys in Hk as [? _].
  - intros Hk. destruct (array_index k) as [n|] eqn:E; [left|by right].
    apply list_elem_of_fmap. exists (n, k). split; [done|].
    rewrite sort_index_perm. by apply elem_of_index_keys.
Qed.

Lemma lca_better_spec dA dB b :
  if lca_better dA dB b then lca_le dA dB (lca_dA b) (lca_dB b)
  else lca_le (lca_dA b) (lca_dB b) dA dB.
Proof.
  unfold lca_better, lca_le.
  destruct (Z.ltb_spec (dA + dB) (lca_dA b + lca_dB b)); simpl; [lia|].
  destruct (Z.eqb_spec (dA + dB) (lca_dA b + lca_dB b)); simpl; [|lia].
  destruct (Z.ltb_spec (Z.max dA dB) (Z.max (lca_dA b) (lca_dB b))); lia.
Qed.

Lemma lca_fold A B ks best :
  (∀ b, best = Some b → lca_valid A B b) →
  match foldl (lca_visit A B) best ks with
  | None =>
      best = None
      ∧ ∀ k, k ∈ ks → ¬ (is_Some (obj_get A k) ∧ is_Some (obj_get B k))
  | Some r =>
      lca_valid A B r
      ∧ (∀ b, best = Some b →
           lca_le (lca_dA r) (lca_dB r) (lca_dA b) (lca_dB b))
      ∧ (∀ k dA dB, k ∈ ks → obj_get A k = Some dA → obj_get B k = Some dB →
           lca_le (lca_dA r) (lca_dB r) dA dB)
  end.
Proof.
  revert best. induction ks as [|k ks IH]; intros best Hbest; simpl.
  - destruct best as [b|].
    + split_and!; [by apply Hbest| |set_solver].
      intros ? [= <-]. unfold lca_le. lia.
    + split; [done|set_solver].
  - specialize (IH (lca_visit A B best k)).
    assert (∀ b, lca_visit A B best k = Some b → lca_valid A B b) as Hv.
    { unfold lca_visit. intros b.
      destruct (obj_get B k) as [dB|] eqn:EB; [|by auto].
      destruct (obj_get A k) as [dA|] eqn:EA; [|by auto].
      destruct best as [b0|]; [destruct (lca_better dA dB b0)|];
        intros ?; simplify_eq; by auto. }
    specialize (IH Hv).
    destruct (foldl (lca_visit A B) (lca_visit A B best k) ks) as [r|].
    + destruct IH as (Hr & Hprev & Hall). split; [done|].
      unfold lca_visit in Hprev.
      destruct (obj_get B k) as [dB|] eqn:EB;
        [destruct (obj_get A k) as [dA|] eqn:EA|].
      * assert (lca_le (lca_dA r) (lca_dB r) dA dB
                ∧ ∀ b, best = Some b →
                    lca_le (lca_dA r) (lca_dB r) (lca_dA b) (lca_dB b))
          as [Hk Hb].
        { destruct best as [b0|].
          - pose proof (lca_better_spec dA dB b0) as Hcmp.
            destruct (lca_better dA dB b0).
            + specialize (Hprev _ eq_refl). simpl in Hprev. split; [done|].
              intros ? [= <-]. unfold lca_le in *. lia.
            + specialize (Hprev _ eq_refl). split; [|by intros ? [= <-]].
              unfold lca_le in *. lia.
          - specialize (Hprev _ eq_refl). by split. }
        split; [done|]. intros k' dA' dB' [->|?]%elem_of_cons ? ?;
          [by simplify_eq|by eauto].
      * split; [done|]. intros k' dA' dB' [->|?]%elem_of_cons ? ?;
          [congruence|by eauto].
      * split; [done|]. intros k' dA' dB' [->|?]%elem_of_cons ? ?;
          [congruence|by eauto].
    + destruct IH as [Hnone Hall]. unfold lca_visit in Hnone.
      destruct (obj_get B k) as [dB|] eqn:EB;
        [destruct (obj_get A k) as [dA|] eqn:EA|].
      * destruct best as [b0|]; [destruct (lca_better dA dB b0)|]; done.
      * split; [done|]. intros k' [->|?]%elem_of_cons; [|by auto].
        rewrite EA. by intros [[? ?] _].
      * split; [done|]. intros k' [->|?]%elem_of_cons; [|by auto].
        rewrite EB. by intros [_ [? ?]].
Qed.

Lemma findLCA_least a b po :
  (findLCA a b po = None
   ↔ ∀ x, ¬ (is_Some (obj_get (getAncestors a po) x)
             ∧ is_Some (obj_get (getAncestors b po) x)))
  ∧ ∀ r, findLCA a b po = Some r →
      lca_valid (getAncestors a po) (getAncestors b po) r
      ∧ ∀ x dA dB, obj_get (getAncestors a po) x = Some dA →
          obj_get (getAncestors b po) x = Some dB →
          lca_le (lca_dA r) (lca_dB r) dA dB.
Proof.
  unfold findLCA, lca_of.
  pose proof (lca_fold (getAncestors a po) (getAncestors b po)
                (Object_keys (getAncestors a po)) None) as H.
  destruct (foldl _ None _) as [r|].
  - destruct H as (Hv & _ & Hall); [done|]. split.
    + split; [done|]. intros Hno. exfalso. apply (Hno (lca_id r)).
      destruct Hv as [-> ->]. eauto.
    + intros ? [= <-]. split; [done|].
      intros x dA dB HxA HxB. apply (Hall x); [|done..].
      apply elem_of_Object_keys. by eapply obj_get_Some_keys.
  - destruct H as [_ Hall]; [done|]. split; [|done].
    split; [|done]. intros _ x [HxA HxB]. apply (Hall x); [|done].
    apply elem_of_Object_keys. destruct HxA as [? HxA].
    by eapply obj_get_Some_keys.
Qed.




(** ** Path reconstruction *)

Lemma walk_back_run prev fromId rank seen n u path :
  prev_inv fromId rank prev seen →
  (∀ x, u = Some x → is_Some (prev !! x) → (rank x ≤ n)%nat) →
  walk_run prev fromId u path (walk_back (S n) prev fromId u path).
Proof.
  intros Hinv. revert u path.
  induction n as [|n IH]; intros u path Hu.
  - destruct u as [x|]; simpl; [|constructor].
    case_decide as Hstop; [by constructor|].
    apply walk_next; [done|].
    destruct (prev !! x) as [v|] eqn:E; [|constructor].
    simpl. destruct (decide (v = [] ∨ v = fromId)) as [Hv|Hv].
    + by apply walk_stop.
    + destruct (pi_chain _ _ _ _ Hinv x v E) as [_ Hlt]; [tauto|].
      specialize (Hu x eq_refl (mk_is_Some _ _ E)). lia.
  - destruct u as [x|]; [|constructor].
    cbn [walk_back]. case_decide as Hstop; [by constructor|].
    apply walk_next; [done|]. apply IH.
    intros v Hv Hkey.
    destruct (decide (v = fromId)) as [->|Hne].
    + rewrite (pi_zero _ _ _ _ Hinv). lia.
    + destruct (pi_chain _ _ _ _ Hinv x v Hv Hne) as [_ Hlt].
      specialize (Hu x eq_refl (mk_is_Some _ _ Hv)). lia.
Qed.

Lemma layer_visit_measure po v st p :
  p ∈ universe po → layer_measure po (layer_visit v st p) = layer_measure po st.
Proof.
  intros HU. unfold layer_visit, layer_measure. case_decide; [done|]. simpl.
  rewrite (size_unseen_insert _ (ls_seen st) p) by done.
  rewrite length_app. simpl. lia.
Qed.

Lemma layer_visit_fold_measure po v ps st :
  (∀ p, p ∈ ps → p ∈ universe po) →
  layer_measure po (foldl (layer_visit v) st ps) = layer_measure po st.
Proof.
  revert st. induction ps as [|p ps IH]; intros st H; simpl; [done|].
  rewrite IH by set_solver. apply layer_visit_measure. set_solver.
Qed.

Lemma layer_visit_grows v st p q w :
  (∀ k, is_Some (ls_prev st !! k) → k ∈ ls_seen st) →
  ls_prev st !! q = Some w → ls_prev (layer_visit v st p) !! q = Some w.
Proof.
  intros Hseen Hq. unfold layer_visit. case_decide as Hin; [done|]. simpl.
  rewrite lookup_insert_ne; [done|]. intros ->. apply Hin, Hseen. eauto.
Qed.

Lemma layer_visit_inv fromId v st p :
  scan_inv fromId st → linked fromId (ls_prev st) [v] →
  scan_inv fromId (layer_visit v st p).
Proof.
  intros [[rank Hinv] Hnext] Hv. unfold layer_visit.
  case_decide as Hin; [by split; eauto|].
  assert (ls_prev st !! p = None) as Hnone.
  { destruct (ls_prev st !! p) eqn:E; [|done].
    exfalso. apply Hin. eapply pi_seen; eauto. }
  assert (v ≠ p) as Hvp.
  { intros ->. destruct (Hv p) as [->|Hk]; [by left| |].
    - apply Hin. eapply pi_from; eauto.
    - rewrite Hnone in Hk. by destruct Hk. }
  split; simpl.
  - exists (λ x, if decide (x = p) then S (rank v) else rank x).
    split.
    + intros q w Hq Hw. apply lookup_insert_Some in Hq as [[Hpq Hvw]|[Hne Hq]].
      * subst q w. rewrite (decide_True _ _ eq_refl).
        rewrite (decide_False _ _ Hvp).
        destruct (Hv v) as [?|Hk]; [by left|done|].
        split; [|lia]. by rewrite lookup_insert_ne.
      * destruct (pi_chain _ _ _ _ Hinv q w Hq Hw) as [Hk Hlt].
        assert (w ≠ p) by (intros ->; rewrite Hnone in Hk; by destruct Hk).
        rewrite lookup_insert_ne by done. split; [done|].
        rewrite !decide_False by done. done.
    + intros q Hq. rewrite map_size_insert_None by done.
      case_decide as Hqp.
      * destruct (Hv v) as [->|Hk]; [by left| |].
        -- rewrite (pi_zero _ _ _ _ Hinv). lia.
        -- pose proof (pi_rank _ _ _ _ Hinv _ Hk). lia.
      * rewrite lookup_insert_ne in Hq by done.
        pose proof (pi_rank _ _ _ _ Hinv _ Hq). lia.
    + intros q Hq. apply lookup_insert_is_Some in Hq as [<-|[_ Hq]];
        [set_solver|].
      apply elem_of_union_r. eapply pi_seen; eauto.
    + apply elem_of_union_r. eapply pi_from; eauto.
    + rewrite decide_False; [eapply pi_zero; eauto|].
      intros <-. apply Hin. eapply pi_from; eauto.
  - intros q [Hq| ->%list_elem_of_singleton]%elem_of_app.
    + destruct (Hnext q Hq) as [?|Hk]; [by left|right].
      destruct (decide (q = p)) as [->|]; [rewrite Hnone in Hk; by destruct Hk|].
      by rewrite lookup_insert_ne.
    + right. rewrite lookup_insert_eq. eauto.
Qed.

Lemma layer_visit_fold_inv fromId v ps st :
  scan_inv fromId st → linked fromId (ls_prev st) [v] →
  scan_inv fromId (foldl (layer_visit v) st ps)
  ∧ ∀ q w, ls_prev st !! q = Some w →
      ls_prev (foldl (layer_visit v) st ps) !! q = Some w.
Proof.
  revert st. induction ps as [|p ps IH]; intros st Hinv Hv; simpl; [done|].
  assert (∀ q w, ls_prev st !! q = Some w →
            ls_prev (layer_visit v st p) !! q = Some w) as Hgrow.
  { intros q w. apply layer_visit_grows.
    destruct Hinv as [[rank Hinv] _]. intros k. by eapply pi_seen. }
  destruct (IH (layer_visit v st p)) as [Hinv' Hgrow'].
  - by apply layer_visit_inv.
  - intros u ->%list_elem_of_singleton.
    destruct (Hv v) as [?|[w Hw]]; [by left|by left|right]. eauto.
  - split; [done|]. eauto.
Qed.

Lemma scan_layer_run po fromId ancestorId layer st :
  scan_inv fromId st → linked fromId (ls_prev st) layer →
  scan_run po fromId ancestorId layer st
    (scan_layer po fromId ancestorId layer st)
  ∧ ∀ st', scan_layer po fromId ancestorId layer st = inr st' →
      scan_inv fromId st' ∧ layer_measure po st' = layer_measure po st.
Proof.
  revert st. induction layer as [|v layer IH]; intros st Hinv Hl;
    cbn [scan_layer].
  - split; [constructor|]. by intros ? [= <-].
  - case_decide as Hv.
    + split; [|done]. apply scan_found; [done|].
      destruct Hinv as [[rank Hinv] _].
      eapply walk_back_run; [done|].
      intros x [= <-] Hk. by eapply pi_rank.
    + destruct (layer_visit_fold_inv fromId v (parents po v) st)
        as [Hinv' Hgrow]; [done| |].
      { intros u ->%list_elem_of_singleton. apply Hl. by left. }
      destruct (IH (foldl (layer_visit v) st (parents po v))) as [Hrun Hpost].
      * done.
      * intros u Hu. destruct (Hl u) as [?|[w Hw]]; [by right|by left|].
        right. eauto.
      * split; [by apply scan_next|].
        intros st' Hst'. destruct (Hpost st' Hst') as [? ->].
        split; [done|]. apply layer_visit_fold_measure.
        intros p. apply parents_universe.
Qed.

Lemma layers_loop_run po fromId ancestorId fuel layer prev seen :
  (∃ rank, prev_inv fromId rank prev seen) → linked fromId prev layer →
  layer = [] ∨ (size (universe po ∖ seen) < fuel)%nat →
  layers_run po fromId ancestorId layer prev seen
    (layers_loop fuel po fromId ancestorId layer prev seen).
Proof.
  revert layer prev seen.
  induction fuel as [|fuel IH]; intros layer prev seen Hinv Hl Hfuel.
  - destruct layer; [constructor|]. destruct Hfuel; [done|lia].
  - destruct layer as [|v layer]; [constructor|]. cbn [layers_loop].
    destruct (scan_layer_run po fromId ancestorId (v :: layer)
                (mkLayer prev seen [])) as [Hrun Hpost].
    { split; [done|]. by intros ? ?%elem_of_nil. }
    { done. }
    destruct (scan_layer po fromId ancestorId (v :: layer)
                (mkLayer prev seen [])) as [path|st].
    + by apply layers_found.
    + destruct (Hpost st eq_refl) as [[Hinv' Hl'] Hm].
      eapply layers_next; [done..|]. apply IH; [done..|].
      unfold layer_measure in Hm. simpl in Hm.
      destruct (ls_next st); [by left|right].
      destruct Hfuel; [done|]. simpl in Hm. lia.
Qed.

(** The loops of [pathToAncestor] run to completion. *)
Lemma pathToAncestor_run fromId ancestorId po :
  layers_run po fromId ancestorId [fromId] ∅ {[fromId]}
    (pathToAncestor fromId ancestorId po).
Proof.
  apply layers_loop_run.
  - exists (λ _, O). split; try done; [|set_solver].
    intros p [? Hp]. by rewrite lookup_empty in Hp.
  - intros v ->%list_elem_of_singleton. by left.
  - right.
    assert (size (universe po ∖ {[fromId]}) ≤ size (universe po))%nat.
    { apply subseteq_size. set_solver. }
    lia.
Qed.

(** ** Graph index builder *)

Lemma byId_fold_None (people : list Person) (m : gmap jsstring Person) i :
  foldl (λ m p, <[id p := p]> m) m people !! i = None
  ↔ m !! i = None ∧ i ∉ id <$> people.
Proof.
  revert m. induction people as [|p people IH]; intros m; cbn [foldl].
  - set_solver.
  - rewrite IH, lookup_insert_None, fmap_cons, not_elem_of_cons. naive_solver.
Qed.

Lemma byId_fold_Some (people : list Person) (m : gmap jsstring Person) i p :
  foldl (λ m p, <[id p := p]> m) m people !! i = Some p →
  m !! i = Some p ∨ (p ∈ people ∧ id p = i).
Proof.
  revert m. induction people as [|q people IH]; intros m; simpl; [by left|].
  intros [Hm|[? ?]]%IH.
  - apply lookup_insert_Some in Hm as [[<- <-]|[_ ?]]; [|by left].
    right. split; [by left|done].
  - right. split; [by right|done].
Qed.

Lemma byId_None people edges i :
  byId (buildIndexes people edges) !! i = None ↔ i ∉ id <$> people.
Proof. simpl. rewrite byId_fold_None, lookup_empty. naive_solver. Qed.

Lemma byId_Some people edges i p :
  byId (buildIndexes people edges) !! i = Some p → p ∈ people ∧ id p = i.
Proof.
  simpl. intros [Hm|?]%byId_fold_Some; [|done]. by rewrite lookup_empty in Hm.
Qed.

Lemma byId_is_Some people edges i :
  i ∈ id <$> people → is_Some (byId (buildIndexes people edges) !! i).
Proof.
  intros Hi. destruct (byId (buildIndexes people edges) !! i) eqn:E; [eauto|].
  by apply byId_None in E.
Qed.

Lemma parents_push_at k x m c :
  parents (push_at k x m) c
  = if decide (c = k) then parents m c ++ [x] else parents m c.
Proof.
  unfold parents, push_at. case_decide as Hc.
  - subst c. destruct (m !! k) as [l|] eqn:E.
    + rewrite lookup_alter_eq, E. done.
    + rewrite lookup_alter_eq, lookup_insert_eq. done.
  - rewrite lookup_alter_ne by done.
    destruct (m !! k); [done|]. by rewrite lookup_insert_ne.
Qed.

Lemma parents_fold_push edges m c :
  parents (foldl (λ m e, push_at (childId e) (parentId e) m) m edges) c
  = parents m c ++ (parentId <$> filter (λ e, childId e = c) edges).
Proof.
  revert m. induction edges as [|e edges IH]; intros m; cbn [foldl].
  - by rewrite filter_nil, fmap_nil, app_nil_r.
  - rewrite IH, parents_push_at, filter_cons.
    case_decide as H1; case_decide as H2; try congruence.
    by rewrite fmap_cons, <- app_assoc.
Qed.

Lemma parents_empty_index (people : list Person)
    (m : gmap jsstring (list jsstring)) c :
  parents m c = [] →
  parents (foldl (λ m p, <[id p := []]> m) m people) c = [].
Proof.
  revert m. induction people as [|p people IH]; intros m Hm; simpl; [done|].
  apply IH. unfold parents in *. rewrite lookup_insert.
  by case_decide.
Qed.

(** [parentsOf[c]] lists the parents of the edges into [c], in edge order. *)
Lemma parents_buildIndexes people edges c :
  parents (parentsOf (buildIndexes people edges)) c
  = parentId <$> filter (λ e, childId e = c) edges.
Proof.
  simpl. rewrite parents_fold_push, parents_empty_index; [done|].
  unfold parents. by rewrite lookup_empty.
Qed.

Lemma elem_of_parents_buildIndexes people edges p c :
  p ∈ parents (parentsOf (buildIndexes people edges)) c
  ↔ mkEdge p c ∈ edges.
Proof.
  rewrite parents_buildIndexes, list_elem_of_fmap. split.
  - intros ([p' c'] & -> & [Hc He]%list_elem_of_filter).
    simpl in *. by subst.
  - intros He. exists (mkEdge p c). split; [done|].
    by apply list_elem_of_filter.
Qed.



(** ** Labels and the two sentinel results *)






Lemma String_of_Z_nonempty z : String_of_Z z ≠ [].
Proof.
  unfold String_of_Z. destruct (z <? 0); [done|].
  unfold String_of_N. destruct z as [|p|p]; simpl; [done| |done].
  pose proof (DecimalPos.Unsigned.to_uint_nonnil p).
  by destruct (Pos.to_uint p).
Qed.












(** ** Plain identifiers: the lookups as JavaScript performs them *)

Lemma plain_collection_graph people edges :
  plain_collection people edges →
  plain_graph (parentsOf (buildIndexes people edges)).
Proof.
  intros [_ Hedges] c ps Hc. apply Forall_forall. intros p Hp.
  assert (p ∈ parents (parentsOf (buildIndexes people edges)) c) as Hin
    by (unfold parents; by rewrite Hc).
  apply elem_of_parents_buildIndexes in Hin.
  by apply (proj1 (Forall_forall _ _) Hedges) in Hin as [? _].
Qed.



(** ** A recorded parent *)

Lemma isAncestorOf_parent po p a :
  p ∈ parents po a → p ≠ a → isAncestorOf p a po = 1.
Proof.
  intros Hp Hne. unfold isAncestorOf.
  destruct (getAncestors_complete a po p 1 Hne) as [d Hd].
  { eapply hops_S; [done|constructor]. }
  rewrite Hd. pose proof Hd as Hd'.
  apply getAncestors_sound in Hd' as (_ & Hd1 & _ & Hmin).
  specialize (Hmin 1%nat). assert (hops po 1 a p) as Hh.
  { eapply hops_S; [done|constructor]. }
  apply Hmin in Hh. lia.
Qed.

Lemma layer_visit_pointed a p v st q :
  pointed a p st → pointed a p (layer_visit v st q).
Proof.
  intros [Hprev Hseen]. unfold layer_visit. case_decide as Hq; [done|].
  split; simpl; [|set_solver].
  rewrite lookup_insert_ne; [done|]. by intros ->.
Qed.

Lemma layer_visit_fold_pointed a p v ps st :
  pointed a p st → pointed a p (foldl (layer_visit v) st ps).
Proof.
  revert st. induction ps as [|q ps IH]; intros st H; simpl; [done|].
  by apply IH, layer_visit_pointed.
Qed.

Lemma layer_visit_fold_first a p ps st :
  p ∈ ps → p ∉ ls_seen st →
  pointed a p (foldl (layer_visit a) st ps)
  ∧ p ∈ ls_next (foldl (layer_visit a) st ps).
Proof.
  revert st. induction ps as [|q ps IH]; intros st Hp Hs; simpl.
  - by apply elem_of_nil in Hp.
  - destruct (decide (q = p)) as [->|Hne].
    + assert (pointed a p (layer_visit a st p) ∧ p ∈ ls_next (layer_visit a st p))
        as [H1 H2].
      { unfold layer_visit, pointed. rewrite decide_False by done. simpl.
        rewrite lookup_insert_eq. set_solver. }
      split; [by apply layer_visit_fold_pointed|].
      clear -H2. revert H2. generalize (layer_visit a st p).
      induction ps as [|q ps IH]; intros st' H; simpl; [done|].
      apply IH. unfold layer_visit. case_decide; [done|]. simpl. set_solver.
    + apply IH; [set_solver|].
      unfold layer_visit. case_decide; [done|]. simpl. set_solver.
Qed.

Lemma scan_layer_pointed po a p layer st :
  p ≠ [] → p ≠ a → p ∈ layer → pointed a p st →
  scan_layer po a p layer st = inl [a; p].
Proof.
  intros Hp Hne. revert st.
  induction layer as [|v layer IH]; intros st Hin Hpt.
  - by apply elem_of_nil in Hin.
  - cbn [scan_layer]. case_decide as Hv.
    + subst v. cbn [walk_back]. rewrite decide_False by tauto.
      destruct Hpt as [-> _].
      destruct (size (ls_prev st)); simpl; by rewrite decide_True by tauto.
    + apply IH; [set_solver|]. by apply layer_visit_fold_pointed.
Qed.

Lemma pathToAncestor_parent po a p :
  p ∈ parents po a → p ≠ a → p ≠ [] → pathToAncestor a p po = [a; p].
Proof.
  intros Hp Hne Hnil. unfold pathToAncestor. cbn [layers_loop scan_layer].
  rewrite decide_False by congruence.
  destruct (layer_visit_fold_first a p (parents po a) (mkLayer ∅ {[a]} []))
    as [Hpt Hnext]; [done|set_solver|].
  set (st := foldl (layer_visit a) (mkLayer ∅ {[a]} []) (parents po a)) in *.
  destruct (ls_next st) as [|v layer] eqn:E; [by apply elem_of_nil in Hnext|].
  by rewrite scan_layer_pointed.
Qed.

Lemma describeLine_cases byId path :
  describeLine byId path = []
  ∨ describeLine byId path = js "по материнской линии"
  ∨ describeLine byId path = js "по отцовской линии".
Proof.
  unfold describeLine. destruct (path !! 1%nat); [|by left].
  destruct (byId !! _) as [q|]; [|by left].
  destruct (sex q); [right; right|right; left|left]; reflexivity.
Qed.

(** C8, as amended.  In a collection of plain identifiers, when [P] and
    [A] are two distinct persons and the edge [P → A] is recorded,
    [relationLabel P A] gives as title the parent term
    sexed by [P] and as reverse title the child term sexed by [A], both
    followed by the same optional line annotation; unless [P] is the empty
    string, the annotation is the one of the sex of [P] ("по материнской
    линии" for a mother) and the only detail is the path from [A] to [P]:
    the annotation is part of the two titles, not of the details. *)
Theorem relationLabel_parent P A people edges :
  plain_collection people edges →
  P ∈ id <$> people → A ∈ id <$> people → P ≠ A → mkEdge P A ∈ edges →
  let r := relationLabel P A people edges in
  ∃ p a line,
    p ∈ people ∧ id p = P ∧ a ∈ people ∧ id a = A
    ∧ (line = [] ∨ line = js "по материнской линии"
       ∨ line = js "по отцовской линии")
    ∧ title r
      = with_line (sexNoun (sex p) (js "отец") (js "мать") (js "родитель"))
          line
    ∧ reverseTitle r
      = with_line (sexNoun (sex a) (js "сын") (js "дочь") (js "ребёнок"))
          line
    ∧ (P ≠ [] →
       line = line_of_sex (sex p)
       ∧ details r = [js "Общий путь: " ++ name a ++ js " → " ++ name p]).
Proof.
  intros _ [p Hp]%(byId_is_Some people edges)
    [a Ha]%(byId_is_Some people edges) Hne Hedge r.
  set (ix := buildIndexes people edges) in *.
  assert (P ∈ parents (parentsOf ix) A) as Hpar
    by by apply elem_of_parents_buildIndexes.
  pose proof (isAncestorOf_parent _ _ _ Hpar Hne) as Hup.
  destruct (byId_Some _ _ _ _ Hp) as [Hp1 Hp2].
  destruct (byId_Some _ _ _ _ Ha) as [Ha1 Ha2].
  assert (relationLabel P A people edges
          = let po := parentsOf ix in
            let path := pathToAncestor A P po in
            let line := describeLine (byId ix) path in
            mkLabel (with_line (describeAncestor 1 (sex p)) line)
              [path_detail (byId ix) path]
              (with_line (describeDescendant 1 (sex a)) line)) as Hr.
  { unfold relationLabel. cbv zeta. fold ix. by rewrite Hp, Ha, Hup. }
  subst r. rewrite Hr. clear Hr. clearbody ix. cbv zeta.
  exists p, a, (describeLine (byId ix) (pathToAncestor A P (parentsOf ix))).
  split_and!; [done..|apply describeLine_cases| | |].
  - reflexivity.
  - reflexivity.
  - intros Hnil. rewrite (pathToAncestor_parent _ _ _ Hpar Hne Hnil).
    split.
    + unfold describeLine. simpl. rewrite Hp. by destruct (sex p).
    + unfold path_detail. simpl. by rewrite Hp, Ha.
Qed.

Lemma mother_plain : plain_collection mother_people mother_edges.
Proof. decide_closed. Qed.

Lemma relationLabel_parent_witness :
  ∃ p a line,
    p ∈ mother_people ∧ id p = String_of_N 2000
    ∧ a ∈ mother_people ∧ id a = String_of_N 2001
    ∧ (line = [] ∨ line = js "по материнской линии"
       ∨ line = js "по отцовской линии")
    ∧ title (relationLabel (String_of_N 2000) (String_of_N 2001)
               mother_people mother_edges)
      = with_line (sexNoun (sex p) (js "отец") (js "мать") (js "родитель"))
          line
    ∧ reverseTitle (relationLabel (String_of_N 2000) (String_of_N 2001)
                      mother_people mother_edges)
      = with_line (sexNoun (sex a) (js "сын") (js "дочь") (js "ребёнок"))
          line
    ∧ (String_of_N 2000 ≠ [] →
       line = line_of_sex (sex p)
       ∧ details (relationLabel (String_of_N 2000) (String_of_N 2001)
                    mother_people mother_edges)
         = [js "Общий путь: " ++ name a ++ js " → " ++ name p]).
Proof.
  apply (relationLabel_parent (String_of_N 2000) (String_of_N 2001)
           mother_people mother_edges).
  - exact mother_plain.
  - vm_compute. apply list_elem_of_here.
  - vm_compute. apply list_elem_of_further, list_elem_of_here.
  - vm_compute. discriminate.
  - vm_compute. apply list_elem_of_here.
Defined.

(** Scenario 2: the annotation is in the titles; the evidence list holds
    the path only. *)
Lemma mother_child_label :
  relationLabel (String_of_N 2000) (String_of_N 2001)
    mother_people mother_edges
  = mkLabel (js "мать (по материнской линии)")
      [js "Общий путь: Ребёнок → Мама"]
      (js "сын (по материнской линии)").
Proof. vm_compute. reflexivity. Qed.

Lemma mother_child_evidence_no_line :
  ¬ ∃ d, d ∈ details (relationLabel (String_of_N 2000) (String_of_N 2001)
                        mother_people mother_edges)
         ∧ contains (js "материнской") d = true.
Proof.
  rewrite mother_child_label. simpl.
  intros (d & ->%list_elem_of_singleton & Hd). vm_compute in Hd. discriminate.
Qed.

(** ** Enumeration order of numeral keys *)

Lemma obj_set_keys {V} (o : obj V) k v :
  (obj_set o k v).*1 = if decide (k ∈ o.*1) then o.*1 else o.*1 ++ [k].
Proof.
  induction o as [|[k' v'] o IH].
  - destruct (decide (k ∈ _)) as [Hin|]; [by apply elem_of_nil in Hin|done].
  - cbn [obj_set]. destruct (decide (k' = k)) as [->|Hk]; csimpl.
    + destruct (decide (k ∈ k :: _)) as [|Hin]; [done|].
      exfalso. apply Hin. by left.
    + rewrite IH.
      destruct (decide (k ∈ o.*1)) as [Hin|Hin];
        destruct (decide (k ∈ k' :: _)) as [Hin'|Hin']; try done.
      * exfalso. apply Hin'. by right.
      * apply elem_of_cons in Hin' as [?|?]; by subst.
Qed.

Lemma visit_keys (P : jsstring → Prop) d st p :
  P p → NoDup (bfs_depths st).*1 → Forall P (bfs_depths st).*1 →
  NoDup (bfs_depths (visit d st p)).*1
  ∧ Forall P (bfs_depths (visit d st p)).*1.
Proof.
  intros Hp Hnd Hall. unfold visit. case_decide; [done|]. simpl.
  rewrite obj_set_keys. case_decide as Hin; [done|]. split.
  - apply NoDup_app. split_and!; [done| |apply NoDup_singleton].
    intros x Hx ->%list_elem_of_singleton. done.
  - apply Forall_app. split; [done|]. by constructor.
Qed.

Lemma bfs_loop_keys (P : jsstring → Prop) po fuel st :
  (∀ x p, p ∈ parents po x → P p) →
  NoDup (bfs_depths st).*1 → Forall P (bfs_depths st).*1 →
  NoDup (bfs_loop fuel po st).*1 ∧ Forall P (bfs_loop fuel po st).*1.
Proof.
  intros HP. revert st.
  induction fuel as [|fuel IH]; intros [depths seen queue] Hnd Hall;
    destruct queue as [|[cur d] rest]; simpl; [done..|].
  unfold bfs_step.
  assert (∀ ps st, (∀ p, p ∈ ps → P p) →
            NoDup (bfs_depths st).*1 → Forall P (bfs_depths st).*1 →
            NoDup (bfs_depths (foldl (visit d) st ps)).*1
            ∧ Forall P (bfs_depths (foldl (visit d) st ps)).*1) as Hfold.
  { induction ps as [|p ps IHps]; intros st Hps Hn Hf; simpl; [done|].
    destruct (visit_keys P d st p) as [Hn' Hf']; [set_solver|done..|].
    apply IHps; [set_solver|done..]. }
  destruct (Hfold (parents po cur) (mkBfs depths seen rest)) as [Hn Hf];
    [by eauto|done..|].
  by apply IH.
Qed.

Lemma getAncestors_keys po i :
  index_keyed po →
  NoDup (getAncestors i po).*1
  ∧ Forall (λ k, is_Some (array_index k)) (getAncestors i po).*1.
Proof.
  intros Hidx. apply bfs_loop_keys; [done|constructor|constructor].
Qed.

Lemma digit_inj c1 c2 d : digit c1 = Some d → digit c2 = Some d → c1 = c2.
Proof.
  unfold digit.
  destruct ((48 <=? c1) && (c1 <=? 57))%N eqn:E1; [|done].
  destruct ((48 <=? c2) && (c2 <=? 57))%N eqn:E2; [|done].
  apply andb_true_iff in E1 as [?%N.leb_le ?%N.leb_le].
  apply andb_true_iff in E2 as [?%N.leb_le ?%N.leb_le].
  intros [= <-] [= ?]. lia.
Qed.

Lemma digit_bound c d : digit c = Some d → (d ≤ 9)%N.
Proof.
  unfold digit. case_match eqn:E; intros [= <-].
  apply andb_true_iff in E as [?%N.leb_le ?%N.leb_le]. lia.
Qed.

Lemma pow10_pos x : (0 < 10 ^ x)%N.
Proof. apply N.neq_0_lt_0, N.pow_nonzero. lia. Qed.

Lemma parse_digits_bounds s acc n :
  parse_digits acc s = Some n →
  (acc * 10 ^ N.of_nat (length s) ≤ n
   < (acc + 1) * 10 ^ N.of_nat (length s))%N.
Proof.
  revert acc. induction s as [|c s IH]; intros acc; cbn [parse_digits].
  - intros [= <-]. simpl. lia.
  - destruct (digit c) as [d|] eqn:Hd; [|done].
    intros H%IH. apply digit_bound in Hd.
    rewrite length_cons, Nat2N.inj_succ, N.pow_succ_r'. nia.
Qed.

Lemma parse_digits_inj s1 s2 acc1 acc2 n :
  length s1 = length s2 →
  parse_digits acc1 s1 = Some n → parse_digits acc2 s2 = Some n →
  acc1 = acc2 ∧ s1 = s2.
Proof.
  revert s2 acc1 acc2.
  induction s1 as [|c1 s1 IH]; intros [|c2 s2] acc1 acc2 Hlen; simpl;
    try done.
  - by intros [= <-] [= <-].
  - destruct (digit c1) as [d1|] eqn:Hd1; [|done].
    destruct (digit c2) as [d2|] eqn:Hd2; [|done].
    intros H1 H2. simpl in Hlen.
    destruct (IH s2 _ _ ltac:(lia) H1 H2) as [Hacc ->].
    pose proof (digit_bound _ _ Hd1). pose proof (digit_bound _ _ Hd2).
    assert (acc1 = acc2 ∧ d1 = d2) as [-> ->] by lia.
    split; [done|]. f_equal. by eapply digit_inj.
Qed.

(** A numeral without leading zero: its first digit and the value. *)
Lemma array_index_shape s n :
  array_index s = Some n →
  ∃ c s' d, s = c :: s' ∧ digit c = Some d ∧ parse_digits d s' = Some n
            ∧ (s' = [] ∨ 1 ≤ d)%N.
Proof.
  unfold array_index. destruct s as [|c [|c' s']]; [done| |].
  - intros Hd. exists c, [], n. repeat split; [done|by left].
  - case_decide as Hc; [done|].
    change (parse_digits 0 (c :: c' :: s'))
      with (match digit c with
            | Some v => parse_digits (10 * 0 + v)%N (c' :: s')
            | None => None
            end).
    destruct (digit c) as [d|] eqn:Hd; [|done].
    replace (10 * 0 + d)%N with d by lia.
    destruct (parse_digits d (c' :: s')) as [m|] eqn:Hm; [|done].
    case_match; [|done]. intros [= <-].
    exists c, (c' :: s'), d. repeat split; [done..|right].
    unfold digit in Hd. case_match eqn:E; [|done]. injection Hd as <-.
    apply andb_true_iff in E as [?%N.leb_le ?%N.leb_le]. lia.
Qed.

Lemma array_index_inj s t n :
  array_index s = Some n → array_index t = Some n → s = t.
Proof.
  intros (c1 & s1 & d1 & -> & Hd1 & Hp1 & Hz1)%array_index_shape
         (c2 & s2 & d2 & -> & Hd2 & Hp2 & Hz2)%array_index_shape.
  pose proof (parse_digits_bounds _ _ _ Hp1) as Hb1.
  pose proof (parse_digits_bounds _ _ _ Hp2) as Hb2.
  pose proof (digit_bound _ _ Hd1). pose proof (digit_bound _ _ Hd2).
  assert (length s1 = length s2) as Hlen.
  { destruct (decide (length s1 = length s2)) as [|Hne]; [done|]. exfalso.
    assert (∀ (l1 l2 : nat) (e1 e2 : N), (l1 < l2)%nat →
              (e1 ≤ 9)%N → (1 ≤ e2)%N →
              ((e1 + 1) * 10 ^ N.of_nat l1 ≤ e2 * 10 ^ N.of_nat l2)%N) as Hpow.
    { intros l1 l2 e1 e2 Hl He1 He2.
      replace (N.of_nat l2) with (N.succ (N.of_nat l1) + N.of_nat (l2 - S l1))%N
        by lia.
      rewrite N.pow_add_r, N.pow_succ_r'.
      pose proof (pow10_pos (N.of_nat (l2 - S l1))).
      pose proof (pow10_pos (N.of_nat l1)).
      set (u := (10 ^ N.of_nat l1)%N) in *.
      set (w := (10 ^ N.of_nat (l2 - S l1))%N) in *.
      assert (u ≤ u * w)%N by nia.
      assert ((e1 + 1) * u ≤ 10 * u)%N by nia.
      assert (10 * (u * w) ≤ e2 * (10 * (u * w)))%N by nia.
      lia. }
    destruct (Nat.lt_total (length s1) (length s2)) as [Hlt|[?|Hlt]];
      [|done|].
    - destruct Hz2 as [->|?]; [simpl in Hlt; lia|].
      specialize (Hpow _ _ d1 d2 Hlt). lia.
    - destruct Hz1 as [->|?]; [simpl in Hlt; lia|].
      specialize (Hpow _ _ d2 d1 Hlt). lia. }
  destruct (parse_digits_inj _ _ _ _ _ Hlen Hp1 Hp2) as [-> ->].
  f_equal. by eapply digit_inj.
Qed.

Lemma insert_index_sorted e l :
  StronglySorted (λ e1 e2, (e1.1 ≤ e2.1)%N) l →
  StronglySorted (λ e1 e2, (e1.1 ≤ e2.1)%N) (insert_index e l).
Proof.
  induction 1 as [|e' l Hl IH Hall]; simpl.
  - repeat constructor.
  - destruct (N.leb_spec e.1 e'.1) as [Hle|Hlt].
    + constructor; [by constructor|]. constructor; [done|].
      eapply Forall_impl; [exact Hall|]. simpl. intros; lia.
    + constructor; [done|].
      apply (Forall_forall (λ x, (e'.1 ≤ x.1)%N)). intros x Hx.
      rewrite insert_index_perm in Hx. apply elem_of_cons in Hx as [->|Hx].
      * lia.
      * by apply (proj1 (Forall_forall _ _) Hall).
Qed.

Lemma sort_index_sorted l :
  StronglySorted (λ e1 e2, (e1.1 ≤ e2.1)%N) (sort_index l).
Proof.
  induction l as [|e l IH]; simpl; [constructor|].
  by apply insert_index_sorted.
Qed.

Lemma filter_sorted {A} (R : relation A) (P : A → Prop)
    `{∀ x, Decision (P x)} l :
  StronglySorted R l → StronglySorted R (filter P l).
Proof.
  induction 1 as [|x l Hl IH Hall]; [constructor|].
  rewrite filter_cons. case_decide; [|done].
  constructor; [done|].
  apply Forall_forall. intros y [_ Hy]%list_elem_of_filter.
  by apply (proj1 (Forall_forall _ _) Hall).
Qed.

Lemma index_keys_NoDup ks : NoDup ks → NoDup (index_keys ks).
Proof.
  induction 1 as [|k ks Hk Hnd IH]; [constructor|].
  unfold index_keys. cbn [omap list_omap].
  destruct (array_index k) as [n|]; simpl; [|done].
  constructor; [|done]. by intros [? _]%elem_of_index_keys.
Qed.

Lemma Object_keys_index {V} (o : obj V) :
  Forall (λ k, is_Some (array_index k)) o.*1 →
  Object_keys o = (sort_index (index_keys o.*1)).*2.
Proof.
  intros Hall. unfold Object_keys.
  replace (filter _ o.*1) with (@nil jsstring); [by rewrite app_nil_r|].
  symmetry. induction Hall as [|k ks [n Hn] _ IH]; [done|].
  rewrite filter_cons. case_decide; [congruence|done].
Qed.

(** ** The two scans of numeral-keyed mappings agree *)

Lemma lca_better_swap dA dB x k l :
  lca_better dB dA (mkLca x l k) = lca_better dA dB (mkLca x k l).
Proof.
  unfold lca_better. cbn [lca_dA lca_dB].
  replace (dB + dA) with (dA + dB) by lia.
  replace (l + k) with (k + l) by lia.
  replace (Z.max dB dA) with (Z.max dA dB) by lia.
  by replace (Z.max l k) with (Z.max k l) by lia.
Qed.

Lemma lca_visit_swap A B best k :
  lca_visit B A (swap_lca best) k = swap_lca (lca_visit A B best k).
Proof.
  unfold lca_visit.
  destruct (obj_get A k) as [dA|], (obj_get B k) as [dB|]; try done.
  destruct best as [[x u w]|]; [|done]. simpl.
  rewrite lca_better_swap. by destruct (lca_better dA dB _).
Qed.

Lemma lca_fold_swap A B (L : list (N * jsstring)) best :
  foldl (λ acc e, lca_visit B A acc e.2) (swap_lca best) L
  = swap_lca (foldl (λ acc e, lca_visit A B acc e.2) best L).
Proof.
  revert best. induction L as [|e L IH]; intros best; simpl; [done|].
  by rewrite lca_visit_swap, IH.
Qed.

Lemma lca_fold_skip A B (L : list (N * jsstring)) best :
  foldl (λ acc e, lca_visit A B acc e.2) best L
  = foldl (λ acc e, lca_visit A B acc e.2) best
      (filter (λ e, common_key A B e.2) L).
Proof.
  revert best. induction L as [|e L IH]; intros best; [done|].
  rewrite filter_cons. case_decide as Hc; simpl; [done|].
  rewrite <- IH. f_equal. unfold lca_visit.
  destruct (obj_get B e.2) eqn:EB, (obj_get A e.2) eqn:EA; try done.
  exfalso. apply Hc. split; eauto.
Qed.

Lemma common_keys_agree (A B : obj Z) :
  NoDup A.*1 → NoDup B.*1 →
  filter (λ e, common_key A B e.2) (sort_index (index_keys A.*1))
  = filter (λ e, common_key A B e.2) (sort_index (index_keys B.*1)).
Proof.
  intros HA HB.
  assert (∀ (o : obj Z) n k,
            (n, k) ∈ filter (λ e, common_key A B e.2)
                       (sort_index (index_keys o.*1))
            ↔ common_key A B k ∧ k ∈ o.*1 ∧ array_index k = Some n) as Hel.
  { intros o n k.
    by rewrite list_elem_of_filter, sort_index_perm, elem_of_index_keys. }
  apply (StronglySorted_unique_strong (λ e1 e2, (e1.1 ≤ e2.1)%N)).
  - intros [n1 k1] [n2 k2] (_ & _ & H1)%Hel (_ & _ & H2)%Hel Hle1 Hle2.
    simpl in *. assert (n1 = n2) as -> by lia.
    f_equal. by eapply array_index_inj.
  - apply filter_sorted, sort_index_sorted.
  - apply filter_sorted, sort_index_sorted.
  - apply NoDup_Permutation.
    + apply NoDup_filter. rewrite sort_index_perm. by apply index_keys_NoDup.
    + apply NoDup_filter. rewrite sort_index_perm. by apply index_keys_NoDup.
    + intros [n k]. rewrite !Hel. unfold common_key. split.
      * intros ([? [v Hv]] & _ & ?). split_and!; eauto.
        by eapply obj_get_Some_keys.
      * intros ([[v Hv] ?] & _ & ?). split_and!; eauto.
        by eapply obj_get_Some_keys.
Qed.

Lemma lca_of_swap (A B : obj Z) :
  NoDup A.*1 → NoDup B.*1 →
  Forall (λ k, is_Some (array_index k)) A.*1 →
  Forall (λ k, is_Some (array_index k)) B.*1 →
  lca_of B A = swap_lca (lca_of A B).
Proof.
  intros HA HB HiA HiB. unfold lca_of.
  rewrite !Object_keys_index, !foldl_fmap by done.
  rewrite (lca_fold_skip A B), (lca_fold_skip B A).
  rewrite (common_keys_agree A B) by done.
  rewrite <- (lca_fold_swap A B _ None). simpl. f_equal.
  apply list_filter_iff. intros e. unfold common_key. tauto.
Qed.

Lemma findLCA_index_keyed po a b :
  index_keyed po → lca_mirrored po a b.
Proof.
  intros Hidx. unfold lca_mirrored, findLCA.
  destruct (getAncestors_keys po a Hidx) as [HA HiA].
  destruct (getAncestors_keys po b Hidx) as [HB HiB].
  rewrite (lca_of_swap (getAncestors a po) (getAncestors b po)) by done.
  by destruct (lca_of _ _) as [[x k l]|].
Qed.

(** ** Reciprocity of the two titles *)

Lemma lca_label_mirror f t people byId po a b x y k l :
  title (lca_label f t people byId po a b (mkLca x k l))
  = reverseTitle (lca_label t f people byId po b a (mkLca y l k))
  ∧ reverseTitle (lca_label f t people byId po a b (mkLca x k l))
    = title (lca_label t f people byId po b a (mkLca y l k)).
Proof.
  unfold lca_label. cbn [lca_id lca_dA lca_dB].
  replace (Z.min l k) with (Z.min k l) by lia.
  replace (Z.max l k) with (Z.max k l) by lia.
  replace (Z.abs (l - k)) with (Z.abs (k - l)) by lia.
  destruct (Z.eqb_spec k 1) as [Hk|Hk], (Z.eqb_spec l 1) as [Hl|Hl];
    cbn [andb]; [done|..];
    (destruct (Z.eqb_spec (Z.min k l) 1);
     [ try lia; by destruct (Z.max k l - 1 =? 1)
     | destruct (Z.eqb_spec (Z.abs (k - l)) 0); [done|];
       destruct (Z.ltb_spec k l), (Z.ltb_spec l k); try lia;
       by destruct (Z.abs (k - l) =? 1) ]).
Qed.

Lemma isAncestorOf_hops po a b :
  1 ≤ isAncestorOf a b po → ∃ n, hops po (S n) b a.
Proof.
  unfold isAncestorOf.
  destruct (obj_get (getAncestors b po) a) as [d|] eqn:E; [|lia].
  intros _. apply getAncestors_sound in E as (_ & Hd & Hh & _).
  exists (Nat.pred (Z.to_nat d)).
  by replace (S (Nat.pred (Z.to_nat d))) with (Z.to_nat d) by lia.
Qed.

Lemma acyclic_one_way po a b :
  acyclic po → 1 ≤ isAncestorOf a b po → isAncestorOf b a po < 1.
Proof.
  intros Hacyc [n Hn]%isAncestorOf_hops.
  destruct (Z.lt_ge_cases (isAncestorOf b a po) 1) as [|Hge]; [done|].
  apply isAncestorOf_hops in Hge as [m Hm]. exfalso.
  apply (Hacyc b (n + S m)%nat).
  change (S (n + S m)) with (S n + S m)%nat. by eapply hops_trans.
Qed.

Lemma findLCA_mirror po a b :
  tie_free po a b → lca_mirrored po a b.
Proof.
  intros Htie. unfold lca_mirrored.
  destruct (findLCA_least a b po) as [Hnone1 Hsome1].
  destruct (findLCA_least b a po) as [Hnone2 Hsome2].
  destruct (findLCA a b po) as [r1|] eqn:E1, (findLCA b a po) as [r2|] eqn:E2.
  - destruct (Hsome1 r1 eq_refl) as ([HA1 HB1] & Hmin1).
    destruct (Hsome2 r2 eq_refl) as ([HB2 HA2] & Hmin2).
    pose proof (Hmin1 _ _ _ HA2 HB2) as H12.
    pose proof (Hmin2 _ _ _ HB1 HA1) as H21.
    unfold lca_le in H12, H21.
    assert (lca_dA r1 + lca_dB r1 = lca_dB r2 + lca_dA r2
            ∧ Z.max (lca_dA r1) (lca_dB r1) = Z.max (lca_dB r2) (lca_dA r2))
      as [Hsum Hmax] by lia.
    destruct (Htie _ _ _ _ _ _ HA1 HB1 HA2 HB2 Hsum Hmax). by split.
  - destruct (Hsome1 r1 eq_refl) as ([HA1 HB1] & _).
    apply (proj1 Hnone2 eq_refl (lca_id r1)). rewrite HA1, HB1. eauto.
  - destruct (Hsome2 r2 eq_refl) as ([HB2 HA2] & _).
    apply (proj1 Hnone1 eq_refl (lca_id r2)). rewrite HA2, HB2. eauto.
  - done.
Qed.

(** On an acyclic collection the two calls mirror each other whenever the
    two scans of [findLCA] resolve ancestors at the same distances. *)
Lemma relationLabel_reciprocal_mirrored A B people edges :
  let po := parentsOf (buildIndexes people edges) in
  acyclic po → lca_mirrored po A B →
  title (relationLabel A B people edges)
  = reverseTitle (relationLabel B A people edges)
  ∧ reverseTitle (relationLabel A B people edges)
    = title (relationLabel B A people edges).
Proof.
  intros po Hacyc Hm. unfold relationLabel. cbv zeta. fold po.
  generalize (byId (buildIndexes people edges)). intros ids.
  destruct (ids !! A) as [a|], (ids !! B) as [b|]; try done.
  destruct (Z.leb_spec 1 (isAncestorOf A B po)) as [Hup|Hup].
  { pose proof (acyclic_one_way _ _ _ Hacyc Hup) as Hdown.
    destruct (Z.leb_spec 1 (isAncestorOf B A po)); [lia|]. done. }
  destruct (Z.leb_spec 1 (isAncestorOf B A po)) as [Hdown|Hdown]; [done|].
  unfold lca_mirrored in Hm.
  destruct (findLCA A B po) as [[x k l]|], (findLCA B A po) as [[y l' k']|];
    try done.
  simpl in Hm. destruct Hm as [-> ->]. apply lca_label_mirror.
Qed.

(** That is the case when the common ancestors that tie for the minimum are
    at the same distances; [crossed_not_reciprocal] below shows a tie that
    breaks it. *)
Lemma relationLabel_reciprocal_tie_free A B people edges :
  let po := parentsOf (buildIndexes people edges) in
  acyclic po → tie_free po A B →
  title (relationLabel A B people edges)
  = reverseTitle (relationLabel B A people edges)
  ∧ reverseTitle (relationLabel A B people edges)
    = title (relationLabel B A people edges).
Proof.
  intros po Hacyc Htie.
  by apply relationLabel_reciprocal_mirrored, findLCA_mirror.
Qed.

Lemma index_keyed_edges people edges :
  Forall (λ e, is_Some (array_index (parentId e))) edges →
  index_keyed (parentsOf (buildIndexes people edges)).
Proof.
  intros Hall x p Hp%elem_of_parents_buildIndexes.
  by apply (proj1 (Forall_forall _ _) Hall) in Hp.
Qed.

(** X7.  On an acyclic collection of plain identifiers in which every
    parent identifier is an array index, as are the numerals that [genId]
    issues, the two calls for two plain identifiers mirror each other, ties
    included: both scans of [findLCA] then meet the common ancestors in
    ascending numeric order. *)
Theorem relationLabel_reciprocal_numbered A B people edges :
  let po := parentsOf (buildIndexes people edges) in
  plain_collection people edges → plain A → plain B →
  acyclic po →
  Forall (λ e, is_Some (array_index (parentId e))) edges →
  title (relationLabel A B people edges)
  = reverseTitle (relationLabel B A people edges)
  ∧ reverseTitle (relationLabel A B people edges)
    = title (relationLabel B A people edges).
Proof.
  intros po _ _ _ Hacyc Hidx.
  apply relationLabel_reciprocal_mirrored; [done|].
  by apply findLCA_index_keyed, index_keyed_edges.
Qed.

(** ** The classifier on the scenarios *)

(** C2 (evaluation).  On Scenario 1 the sibling branch gives as title the
    term sexed by the second person and as reverse title the term sexed by
    the first one: for the son and the daughter the title is "сестра" and
    the reverse title is "брат". *)
Theorem siblings_son_daughter :
  relationLabel (String_of_N 1002) (String_of_N 1003)
    siblings_people siblings_edges
  = mkLabel (js "сестра")
      [js "Общий предок: Отец";
       js "Линии: по отцовской линии / по отцовской линии"]
      (js "брат").
Proof. vm_compute. reflexivity. Qed.

(** The same branch for any pair whose common ancestor is at distance one
    on both sides. *)
Lemma lca_label_siblings fromId toId people byId po A B anc :
  let r := lca_label fromId toId people byId po A B (mkLca anc 1 1) in
  title r = sexNoun (sex B) (js "брат") (js "сестра") (js "сиблинг")
  ∧ reverseTitle r = sexNoun (sex A) (js "брат") (js "сестра") (js "сиблинг").
Proof. done. Qed.

Lemma crossed_acyclic :
  acyclic (parentsOf (buildIndexes crossed_people crossed_edges)).
Proof.
  apply (ranked_acyclic
           (rank_by [(js "A", 0); (js "B", 0); (js "R", 1); (js "P", 1);
                     (js "X", 2); (js "Y", 2)]%nat)).
  apply (@bool_decide_eq_true_1 _ (ranked_dec _ _)). vm_compute. reflexivity.
Qed.

(** C1 (evaluation).  On an acyclic collection with two common ancestors
    that tie on the sum and on the maximum, each call picks the ancestor
    that comes first among the keys of its own first argument, and both
    calls name their first argument the uncle. *)
Theorem crossed_not_reciprocal :
  acyclic (parentsOf (buildIndexes crossed_people crossed_edges))
  ∧ (js "A") ∈ id <$> crossed_people ∧ (js "B") ∈ id <$> crossed_people
  ∧ title (relationLabel (js "A") (js "B") crossed_people crossed_edges)
    = js "дядя"
  ∧ reverseTitle (relationLabel (js "B") (js "A") crossed_people crossed_edges)
    = js "племянник"
  ∧ title (relationLabel (js "A") (js "B") crossed_people crossed_edges)
    ≠ reverseTitle
        (relationLabel (js "B") (js "A") crossed_people crossed_edges).
Proof.
  split; [exact crossed_acyclic|].
  split; [vm_compute; set_solver|]. split; [vm_compute; set_solver|].
  split; [vm_compute; reflexivity|]. split; [vm_compute; reflexivity|].
  vm_compute. discriminate.
Qed.

(** With numeral identifiers both calls enumerate the common ancestors in
    ascending numeric order and agree on the ancestor. *)
Lemma crossed_numbered_reciprocal :
  title (relationLabel (js "1") (js "2")
           crossed_numbered_people crossed_numbered_edges)
  = reverseTitle (relationLabel (js "2") (js "1")
                    crossed_numbered_people crossed_numbered_edges)
  ∧ reverseTitle (relationLabel (js "1") (js "2")
                    crossed_numbered_people crossed_numbered_edges)
    = title (relationLabel (js "2") (js "1")
               crossed_numbered_people crossed_numbered_edges).
Proof. split; vm_compute; reflexivity. Qed.

(** The demonstration graph is acyclic and numbered, so every pair of its
    identifiers gets mirrored titles. *)
Lemma demo_reciprocal A B :
  title (relationLabel A B buildDemo.1 buildDemo.2)
  = reverseTitle (relationLabel B A buildDemo.1 buildDemo.2)
  ∧ reverseTitle (relationLabel A B buildDemo.1 buildDemo.2)
    = title (relationLabel B A buildDemo.1 buildDemo.2).
Proof.
  apply relationLabel_reciprocal_mirrored.
  - apply (ranked_acyclic
             (rank_by [(js "1", 0); (js "6", 0); (js "2", 1); (js "5", 1);
                       (js "3", 2); (js "4", 2); (js "7", 3);
                       (js "8", 3)]%nat)).
    apply (@bool_decide_eq_true_1 _ (ranked_dec _ _)). vm_compute.
    reflexivity.
  - apply findLCA_index_keyed, index_keyed_edges.
    apply (@bool_decide_eq_true_1 _ (Forall_dec _ _)). vm_compute.
    reflexivity.
Qed.

(** Self-test 1 of the source, on the demonstration graph. *)
Lemma demo_he_she :
  title (relationLabel (js "6") (js "1") buildDemo.1 buildDemo.2)
  = js "двоюродный дядя"
  ∧ reverseTitle (relationLabel (js "6") (js "1") buildDemo.1 buildDemo.2)
    = js "двоюродная племянница"
  ∧ title (relationLabel (js "1") (js "6") buildDemo.1 buildDemo.2)
    = js "двоюродная племянница".
Proof. split_and!; vm_compute; reflexivity. Qed.

(** C6.  The classifier throws.  Asked about a person and an identifier
    that is not among the persons but names a member of
    [Object.prototype], [relationLabel] passes its guard, because
    [byId["constructor"]] is the inherited member, and ends in a
    [TypeError] when [getAncestors] iterates over
    [parentsOf["constructor"]]; an absent identifier that names no such
    member gets the placeholder. *)
Theorem relationLabel_member_id_throws :
((js "constructor") ∉ id <$> mother_people)
  ∧ slot (byId (buildIndexes mother_people mother_edges)) (js "constructor")
    = Member
  ∧ getAncestors_any (js "constructor")
      (parentsOf (buildIndexes mother_people mother_edges))
    = TypeError
  ∧ relationLabel_start (String_of_N 2000) (js "constructor")
      mother_people mother_edges
    = TypeError
  ∧ relationLabel_start (String_of_N 2000) (js "9")
      mother_people mother_edges
    = Normal (Returned missing_label).
Proof.
  split_and!; [|vm_compute; reflexivity..].
  vm_compute. intros H. repeat (apply elem_of_cons in H as [H|H]; [done|]).
  by apply elem_of_nil in H.
Qed.



(** ** Text normalization *)

Lemma norm_char_fixed c :
  norm_char c = true →
  fold_yo c = c ∧ dash_to_space c = c ∧ strip_punct c = c.
Proof.
  unfold norm_char, is_word, fold_yo, dash_to_space, strip_punct, is_word.
  intros H.
  assert (c = 32 ∨ 97 ≤ c ≤ 122 ∨ 1072 ≤ c ≤ 1103 ∨ 48 ≤ c ≤ 57)%N as Hc.
  { repeat (apply orb_true_iff in H as [H|H]);
      try apply andb_true_iff in H as [?%N.leb_le ?%N.leb_le];
      try apply N.eqb_eq in H; lia. }
  assert ((c =? 1105) = false)%N as -> by (apply N.eqb_neq; lia).
  assert ((c =? 8211) = false)%N as -> by (apply N.eqb_neq; lia).
  assert ((c =? 8212) = false)%N as -> by (apply N.eqb_neq; lia).
  assert ((c =? 45) = false)%N as -> by (apply N.eqb_neq; lia).
  simpl. split_and!; [done..|].
  destruct Hc as [->|Hc]; [done|].
  assert (((97 <=? c) && (c <=? 122) || (1072 <=? c) && (c <=? 1103)
           || (48 <=? c) && (c <=? 57))%N = true) as ->; [|done].
  rewrite !orb_true_iff, !andb_true_iff, !N.leb_le. lia.
Qed.

Lemma norm_chars_fixed s :
  Forall (λ c, norm_char c = true) s →
  strip_punct <$> (dash_to_space <$> (fold_yo <$> s)) = s.
Proof.
  induction 1 as [|c s Hc _ IH]; [done|]. csimpl.
  destruct (norm_char_fixed c Hc) as (-> & -> & ->). by rewrite IH.
Qed.

Lemma strip_punct_class c :
  is_space (strip_punct c) = false → is_word (strip_punct c) = true.
Proof.
  unfold strip_punct. destruct (is_word c) eqn:Hw; simpl; [by rewrite Hw|].
  destruct (is_space c) eqn:Hs; [congruence|]. done.
Qed.

Lemma collapse_norm_chars b s :
  Forall (λ c, is_space c = false → is_word c = true) s →
  Forall (λ c, norm_char c = true) (collapse_spaces b s).
Proof.
  intros H. revert b. induction H as [|c s Hc _ IH]; intros b; simpl; [done|].
  destruct (is_space c) eqn:Hs.
  - destruct b; [done|]. by constructor.
  - constructor; [|done]. unfold norm_char. by rewrite Hc.
Qed.

Lemma collapse_tidy b s : tidy b (collapse_spaces b s) = true.
Proof.
  revert b. induction s as [|c s IH]; intros b; simpl; [done|].
  destruct (is_space c) eqn:Hs.
  - destruct b; [done|]. simpl. apply IH.
  - simpl. by rewrite Hs.
Qed.

Lemma tidy_collapse b s : tidy b s = true → collapse_spaces b s = s.
Proof.
  revert b. induction s as [|c s IH]; intros b; simpl; [done|].
  destruct (is_space c).
  - intros [[->%N.eqb_eq Hb%negb_true_iff]%andb_true_iff Ht]%andb_true_iff.
    subst b. by rewrite IH.
  - intros Ht. by rewrite IH.
Qed.

Lemma trim_start_Forall (P : N → Prop) s :
  Forall P s → Forall P (trim_start s).
Proof. induction 1; simpl; [done|]. case_match; [done|by constructor]. Qed.

Lemma trim_end_Forall (P : N → Prop) s : Forall P s → Forall P (trim_end s).
Proof.
  induction 1 as [|c s Hc _ IH]; simpl; [done|].
  destruct (trim_end s); [case_match; by repeat constructor|by constructor].
Qed.

Lemma trim_start_tidy b s : tidy b s = true → tidy false (trim_start s) = true.
Proof.
  revert b. induction s as [|c s IH]; intros b; simpl; [done|].
  destruct (is_space c) eqn:Hs.
  - intros [_ Ht]%andb_true_iff. by eapply IH.
  - intros Ht. simpl. by rewrite Hs.
Qed.

Lemma trim_end_tidy b s : tidy b s = true → tidy b (trim_end s) = true.
Proof.
  revert b. induction s as [|c s IH]; intros b; simpl; [done|].
  destruct (is_space c) eqn:Hs.
  - intros [Hc Ht]%andb_true_iff. apply IH in Ht.
    destruct (trim_end s); [done|]. cbn [tidy]. rewrite Hs, Hc. done.
  - intros Ht. apply IH in Ht.
    destruct (trim_end s); cbn [tidy]; by rewrite Hs.
Qed.

Lemma trim_start_no_leading s : no_leading_space (trim_start s).
Proof. induction s as [|c s IH]; simpl; [done|]. by case_match. Qed.

Lemma trim_start_fixed s : no_leading_space s → trim_start s = s.
Proof. destruct s; simpl; [done|]. by intros ->. Qed.

Lemma trim_end_no_leading s : no_leading_space s → no_leading_space (trim_end s).
Proof.
  destruct s as [|c s]; simpl; [done|]. intros Hc.
  destruct (trim_end s); simpl; by rewrite ?Hc.
Qed.

Lemma trim_end_idempotent s : trim_end (trim_end s) = trim_end s.
Proof.
  induction s as [|c s IH]; simpl; [done|].
  destruct (trim_end s) as [|r0 r] eqn:E.
  - destruct (is_space c) eqn:Hs; simpl; by rewrite ?Hs.
  - cbn [trim_end]. cbn [trim_end] in IH. by rewrite IH.
Qed.

Lemma trim_idempotent s : trim (trim s) = trim s.
Proof.
  unfold trim.
  rewrite (trim_start_fixed (trim_end (trim_start s))).
  - apply trim_end_idempotent.
  - apply trim_end_no_leading, trim_start_no_leading.
Qed.

Section Normalization.

Variable toLowerCase : jsstring → jsstring.

(** Lower-casing leaves lower-case letters, digits and spaces alone. *)
Hypothesis toLowerCase_fixed :
  ∀ s, Forall (λ c, norm_char c = true) s → toLowerCase s = s.

Lemma normalizeText_norm_chars s :
  Forall (λ c, norm_char c = true) (normalizeText toLowerCase s).
Proof.
  unfold normalizeText, trim.
  apply trim_end_Forall, trim_start_Forall, collapse_norm_chars.
  apply Forall_fmap, Forall_true. intros c. exact (strip_punct_class c).
Qed.

Lemma normalizeText_tidy s : tidy false (normalizeText toLowerCase s) = true.
Proof.
  unfold normalizeText, trim.
  apply trim_end_tidy. eapply trim_start_tidy, collapse_tidy.
Qed.

(** C10.  Normalizing a normalized text changes nothing, for any
    lower-casing that leaves lower-case letters, digits and spaces alone. *)
Theorem normalizeText_idempotent s :
  normalizeText toLowerCase (normalizeText toLowerCase s)
  = normalizeText toLowerCase s.
Proof.
  set (x := normalizeText toLowerCase s).
  unfold normalizeText at 1.
  rewrite toLowerCase_fixed by apply normalizeText_norm_chars.
  rewrite norm_chars_fixed by apply normalizeText_norm_chars.
  rewrite tidy_collapse by apply normalizeText_tidy.
  apply trim_idempotent.
Qed.

End Normalization.

Lemma lower_basic_fixed s :
  Forall (λ c, norm_char c = true) s → lower_basic s = s.
Proof.
  unfold lower_basic. induction 1 as [|c s Hc _ IH]; [done|]. csimpl.
  rewrite IH. f_equal.
  unfold norm_char, is_word in Hc.
  assert (c = 32 ∨ 97 ≤ c ≤ 122 ∨ 1072 ≤ c ≤ 1103 ∨ 48 ≤ c ≤ 57)%N as Hr.
  { repeat (apply orb_true_iff in Hc as [Hc|Hc]);
      try apply andb_true_iff in Hc as [?%N.leb_le ?%N.leb_le];
      try apply N.eqb_eq in Hc; lia. }
  assert (((65 <=? c) && (c <=? 90) || (1040 <=? c) && (c <=? 1071))%N
          = false) as ->.
  { rewrite orb_false_iff, !andb_false_iff, !N.leb_gt. lia. }
  assert ((c =? 1025)%N = false) as -> by (apply N.eqb_neq; lia). done.
Qed.

Lemma normalizeText_idempotent_witness :
  normalizeText lower_basic (js "  Его МАТЬ — младшая сестра её деда! ")
  = js "его мать младшая сестра ее деда"
  ∧ normalizeText lower_basic
      (normalizeText lower_basic (js "  Его МАТЬ — младшая сестра её деда! "))
    = normalizeText lower_basic (js "  Его МАТЬ — младшая сестра её деда! ").
Proof.
  split; [vm_compute; reflexivity|].
  apply (normalizeText_idempotent lower_basic lower_basic_fixed).
Defined.

(** ** Edge insertion *)

Lemma uint_chars_inj u v : uint_chars u = uint_chars v → u = v.
Proof.
  revert v. induction u; intros v; destruct v; simpl; intros H;
    try discriminate; try done; f_equal; apply IHu; congruence.
Qed.

Lemma String_of_N_inj n m : String_of_N n = String_of_N m → n = m.
Proof.
  intros H%uint_chars_inj. by apply DecimalN.Unsigned.to_uint_inj.
Qed.

Lemma Exists_edge rels p c :
  Exists (λ r, parentId r = p ∧ childId r = c) rels ↔ mkEdge p c ∈ rels.
Proof.
  rewrite Exists_exists. split.
  - intros ([p' c'] & He & Hp & Hc). simpl in *. by subst.
  - intros He. by exists (mkEdge p c).
Qed.

Lemma edges_ok_snoc rels p c :
  edges_ok rels → p ≠ c → mkEdge p c ∉ rels → edges_ok (rels ++ [mkEdge p c]).
Proof.
  intros [Hnd Hloop] Hpc Hnew. split.
  - apply NoDup_app. split_and!; [done| |apply NoDup_singleton].
    intros e He ->%list_elem_of_singleton. done.
  - intros e [He| ->%list_elem_of_singleton]%elem_of_app; [by apply Hloop|done].
Qed.

Lemma addParentChild_ok p c arr :
  edges_ok arr → edges_ok (addParentChild p c arr).
Proof.
  intros Hok. unfold addParentChild. case_decide as Hguard; [done|].
  case_bool_decide as Hdup; [done|].
  apply edges_ok_snoc; [done|tauto|]. by rewrite <- Exists_edge.
Qed.

Lemma addParentChild_present p c arr :
  mkEdge p c ∈ arr → addParentChild p c arr = arr.
Proof.
  intros He. unfold addParentChild. case_decide; [done|].
  rewrite bool_decide_true; [done|]. by apply Exists_edge.
Qed.

Lemma addParentChild_self p arr : addParentChild p p arr = arr.
Proof. unfold addParentChild. rewrite decide_True; [done|]. tauto. Qed.

Lemma link_present p c st : mkEdge p c ∈ s_rels st → link p c st = st.
Proof.
  intros He. unfold link. rewrite bool_decide_true; [done|].
  by apply Exists_edge.
Qed.

Lemma link_inv n0 p c st :
  synth_inv n0 st → p ≠ c → synth_inv n0 (link p c st).
Proof.
  intros [] Hpc. unfold link. case_bool_decide as Hdup; [done|].
  split; simpl; try done.
  apply edges_ok_snoc; [done..|]. by rewrite <- Exists_edge.
Qed.

Lemma link_people p c st : s_people (link p c st) = s_people st.
Proof. unfold link. by case_bool_decide. Qed.

Lemma link_extends p c st : extends st (link p c st).
Proof. intros r nm. unfold named. by rewrite link_people. Qed.

Lemma name_key_inj a b : name_key a = name_key b → a = b.
Proof. unfold name_key. by intros ?%app_inv_head. Qed.

Lemma add_spec n0 nm sx nt st :
  synth_inv n0 st →
  synth_inv n0 (add nm sx nt st).2
  ∧ named (add nm sx nt st).2 (add nm sx nt st).1 nm
  ∧ extends st (add nm sx nt st).2.
Proof.
  intros Hinv. unfold add.
  destruct (byKey st !! name_key nm) as [r|] eqn:E; simpl.
  - split_and!; [done| |by intros ? ?]. by eapply si_key.
  - destruct Hinv as [Hids Hnext Hkey Hnamed Hedges].
    assert (∀ r p, s_people st !! r = Some p → name p ≠ nm) as Hfresh.
    { intros r p Hr <-. apply Hnamed in Hr. congruence. }
    split_and!.
    + split; simpl.
      * intros i p [Hi|[Hlen Hp]]%lookup_app_Some; [by auto|].
        apply list_lookup_singleton_Some in Hp as [Hi <-]. simpl.
        rewrite Hnext. f_equal. lia.
      * rewrite length_app. simpl. lia.
      * intros nm' r [[Hk <-]|[Hne Hr]]%lookup_insert_Some.
        -- apply name_key_inj in Hk as <-.
           exists (mkPerson (String_of_N (next_id st)) nm sx nt).
           split; [|done]. rewrite lookup_app_r by done.
           by rewrite Nat.sub_diag.
        -- destruct (Hkey nm' r Hr) as (p & Hp & <-). exists p.
           split; [|done]. by apply lookup_app_l_Some.
      * intros r p [Hr|[Hlen Hp]]%lookup_app_Some.
        -- rewrite lookup_insert_ne; [by auto|].
           intros Hk%name_key_inj. by eapply Hfresh.
        -- apply list_lookup_singleton_Some in Hp as [Hi <-]. simpl.
           rewrite lookup_insert_eq. f_equal. lia.
      * done.
    + exists (mkPerson (String_of_N (next_id st)) nm sx nt). simpl.
      split; [|done]. rewrite lookup_app_r by done. by rewrite Nat.sub_diag.
    + intros r nm' (p & Hp & <-). exists p. simpl. split; [|done].
      by apply lookup_app_l_Some.
Qed.

Lemma ref_id_ne n0 st r1 r2 nm1 nm2 :
  synth_inv n0 st → named st r1 nm1 → named st r2 nm2 → nm1 ≠ nm2 →
  ref_id st r1 ≠ ref_id st r2.
Proof.
  intros Hinv (p1 & H1 & <-) (p2 & H2 & <-) Hne. unfold ref_id.
  rewrite H1, H2.
  rewrite (si_ids _ _ Hinv _ _ H1), (si_ids _ _ Hinv _ _ H2).
  intros Heq%String_of_N_inj. assert (r1 = r2) as -> by lia. congruence.
Qed.

Lemma extends_trans st1 st2 st3 :
  extends st1 st2 → extends st2 st3 → extends st1 st3.
Proof. unfold extends. eauto. Qed.

Lemma label_head b path :
  path ≠ [] → ∃ rest, (labelForPath b path).1 = 1045%N :: rest.
Proof.
  intros Hp. destruct b, path as [|[] [|[] [|? ?]]]; simpl; eauto; done.
Qed.

Lemma chain_name_step_ne b path s :
  chain_name b (path ++ [s]) ≠ chain_name b path.
Proof.
  destruct path as [|x1 [|x2 [|x3 path]]].
  - destruct b, s; simpl; discriminate.
  - destruct b, x1, s; simpl; discriminate.
  - destruct b, x1, x2; simpl; discriminate.
  - unfold chain_name.
    destruct b, x1, x2, x3; cbn [app labelForPath fst his_her];
      intros H; injection H as H;
      apply app_inv_tail in H; apply String_of_N_inj in H;
      apply Nat2N.inj in H; simpl in H; rewrite length_app in H;
      simpl in H; lia.
Qed.

Lemma chain_name_not_common b path :
  chain_name b path ≠ js "Общий прадед"
  ∧ chain_name b path ≠ js "Общая прабабушка".
Proof.
  destruct path as [|s path].
  - by destruct b.
  - destruct (label_head b (s :: path)) as [rest Hl]; [done|].
    unfold chain_name. rewrite Hl. done.
Qed.

Lemma chain_steps_spec n0 b rest path child st :
  synth_inv n0 st → named st child (chain_name b path) →
  synth_inv n0 (chain_steps b path rest child st).2
  ∧ named (chain_steps b path rest child st).2
      (chain_steps b path rest child st).1 (chain_name b (path ++ rest))
  ∧ extends st (chain_steps b path rest child st).2.
Proof.
  revert path child st.
  induction rest as [|s rest IH]; intros path child st Hinv Hchild; simpl.
  - rewrite app_nil_r. split_and!; [done..|]. by intros ? ?.
  - destruct (labelForPath b (path ++ [s])) as [label sx] eqn:El.
    assert (label = chain_name b (path ++ [s])) as ->.
    { unfold chain_name. rewrite El. by destruct path. }
    pose proof (add_spec n0 (chain_name b (path ++ [s])) sx None st Hinv)
      as (Hinv1 & Hnode & Hext1).
    destruct (add (chain_name b (path ++ [s])) sx None st) as [node st1].
    simpl in *.
    assert (ref_id st1 node ≠ ref_id st1 child) as Hne.
    { eapply ref_id_ne; [done..|by apply Hext1|]. apply chain_name_step_ne. }
    destruct (IH (path ++ [s]) node
                (link (ref_id st1 node) (ref_id st1 child) st1))
      as (Hinv2 & Hres & Hext2).
    + by apply link_inv.
    + by apply link_extends.
    + rewrite <- app_assoc in Hres. split_and!; [done..|].
      eapply extends_trans; [done|].
      eapply extends_trans; [apply link_extends|done].
Qed.

Lemma ensureChain_spec n0 b steps st :
  synth_inv n0 st →
  synth_inv n0 (ensureChain b steps st).2
  ∧ named (ensureChain b steps st).2 (ensureChain b steps st).1
      (chain_name b steps)
  ∧ extends st (ensureChain b steps st).2
  ∧ (∃ r, named (ensureChain b steps st).2 r (root_name b))
  ∧ (s_people st = [] →
     named (ensureChain b steps st).2 O (root_name b)).
Proof.
  intros Hinv. unfold ensureChain.
  pose proof (add_spec n0 (root_name b)
                (match b with he => male | she => female end) None st Hinv)
    as (Hinv1 & Hroot & Hext1).
  assert (s_people st = [] →
          (add (root_name b) (match b with he => male | she => female end)
             None st).1 = O) as Hfirst.
  { intros Hnil. unfold add.
    destruct (byKey st !! name_key (root_name b)) as [r|] eqn:E.
    - destruct (si_key _ _ Hinv _ _ E) as (p & Hp & _).
      by rewrite Hnil in Hp.
    - simpl. by rewrite Hnil. }
  fold (root_name b).
  destruct (add (root_name b) (match b with he => male | she => female end)
              None st) as [root st1].
  simpl in *.
  destruct (chain_steps_spec n0 b steps [] root st1 Hinv1 Hroot)
    as (Hinv2 & Hres & Hext2).
  split_and!; [done..|by eapply extends_trans|eauto|].
  intros Hnil. rewrite (Hfirst Hnil) in Hroot. by apply Hext2.
Qed.

Lemma record_rank_spec n0 conn r st :
  synth_inv n0 st →
  synth_inv n0 (record_rank conn r st) ∧ extends st (record_rank conn r st).
Proof.
  intros Hinv. unfold record_rank.
  destruct (conn_rank conn) as [rank|]; [|by split; [|intros ? ?]].
  case_decide; [by split; [|intros ? ?]|].
  assert (∀ i p, alter (set_rank_note rank) r (s_people st) !! i = Some p →
            ∃ q, s_people st !! i = Some q ∧ id p = id q ∧ name p = name q)
    as Hback.
  { intros i p. destruct (decide (i = r)) as [->|Hne].
    - rewrite list_lookup_alter_eq.
      destruct (s_people st !! r) as [q|]; [|done].
      intros [= <-]. eauto.
    - rewrite list_lookup_alter_ne by done. eauto. }
  assert (∀ i q, s_people st !! i = Some q →
            ∃ p, alter (set_rank_note rank) r (s_people st) !! i = Some p
                 ∧ id p = id q ∧ name p = name q)
    as Hforth.
  { intros i q Hq. destruct (decide (i = r)) as [->|Hne].
    - rewrite list_lookup_alter_eq, Hq. simpl. eauto.
    - rewrite list_lookup_alter_ne by done. eauto. }
  destruct Hinv as [Hids Hnext Hkey Hnamed Hedges]. split.
  - split; simpl; [| | | |done].
    + intros i p (q & Hq & -> & _)%Hback. eauto.
    + by rewrite length_alter.
    + intros nm i (q & Hq & <-)%Hkey.
      destruct (Hforth i q Hq) as (p & Hp & _ & Hn). eauto.
    + intros i p (q & Hq & _ & ->)%Hback. eauto.
  - intros i nm (q & Hq & <-). destruct (Hforth i q Hq) as (p & Hp & _ & Hn).
    exists p. eauto.
Qed.

Lemma link_common_spec n0 l r nl nr st parent np :
  synth_inv n0 st → named st l nl → named st r nr → named st parent np →
  np ≠ nl → np ≠ nr →
  synth_inv n0 (link_common l r st parent)
  ∧ extends st (link_common l r st parent).
Proof.
  intros Hinv Hl Hr Hp Hnl Hnr. unfold link_common.
  set (st1 := link (ref_id st parent) (ref_id st l) st).
  assert (synth_inv n0 st1) as Hinv1.
  { apply link_inv; [done|]. by eapply ref_id_ne. }
  assert (extends st st1) as Hext1 by apply link_extends.
  split.
  - apply link_inv; [done|]. eapply ref_id_ne; [done| | |done]; by apply Hext1.
  - eapply extends_trans; [done|apply link_extends].
Qed.

Lemma synthesize_spec l conn r _id :
  let st := synthesize l conn r _id in
  synth_inv _id st
  ∧ named st O (root_name (spec_base l))
  ∧ (∃ i, named st i (root_name (spec_base r))).
Proof.
  unfold synthesize.
  assert (synth_inv _id (mkSynth _id [] [] ∅)) as Hinv0.
  { split; simpl; try done.
    - rewrite N.add_0_r. done.
    - split; [constructor|]. by intros ? ?%elem_of_nil. }
  destruct (ensureChain_spec _id (spec_base l) (spec_steps l) _ Hinv0)
    as (Hinv1 & Hleft & _ & _ & Hroot).
  specialize (Hroot eq_refl).
  destruct (ensureChain (spec_base l) (spec_steps l) (mkSynth _id [] [] ∅))
    as [leftNode st1].
  simpl in *.
  destruct (record_rank_spec _id conn leftNode st1 Hinv1) as [Hinv2 Hext2].
  destruct (ensureChain_spec _id (spec_base r) (spec_steps r) _ Hinv2)
    as (Hinv3 & Hright & Hext3 & [ir Hrootr] & _).
  destruct (ensureChain (spec_base r) (spec_steps r)
              (record_rank conn leftNode st1)) as [rightNode st3].
  simpl in *.
  pose proof (add_spec _id (js "Общий прадед") male None st3 Hinv3)
    as (Hinv4 & Hgf & Hext4).
  destruct (add (js "Общий прадед") male None st3) as [commonGF st4].
  simpl in *.
  pose proof (add_spec _id (js "Общая прабабушка") female None st4 Hinv4)
    as (Hinv5 & Hgm & Hext5).
  destruct (add (js "Общая прабабушка") female None st4) as [commonGM st5].
  simpl in *.
  assert (extends st1 st5) as Hext15.
  { repeat (eapply extends_trans; [done|]). by intros ? ?. }
  assert (extends st3 st5) as Hext35.
  { repeat (eapply extends_trans; [done|]). by intros ? ?. }
  destruct (chain_name_not_common (spec_base l) (spec_steps l)) as [Hl1 Hl2].
  destruct (chain_name_not_common (spec_base r) (spec_steps r)) as [Hr1 Hr2].
  destruct (link_common_spec _id leftNode rightNode _ _ st5 commonGF _ Hinv5
              (Hext15 _ _ Hleft) (Hext35 _ _ Hright) (Hext5 _ _ Hgf))
    as [Hinv6 Hext6]; [congruence..|].
  destruct (link_common_spec _id leftNode rightNode _ _ _ commonGM _ Hinv6
              (Hext6 _ _ (Hext15 _ _ Hleft)) (Hext6 _ _ (Hext35 _ _ Hright))
              (Hext6 _ _ Hgm))
    as [Hinv7 Hext7]; [congruence..|].
  split_and!; [done| |].
  - by apply Hext7, Hext6, Hext15.
  - exists ir. by apply Hext7, Hext6, Hext35.
Qed.

(** C9.  Both ways of inserting an edge keep the edge invariants.  The
    add-relation operation keeps a collection free of self-loops and of
    repeated pairs, changes nothing when the pair is already there, and
    never adds a pair whose parent is its child; the guarded push of the
    synthesizer changes nothing when the pair is already there, and the
    edges that [buildGraphFromSibling] returns contain no self-loop and no
    pair twice, when the counter has room within 2^53 for the identifiers
    of the call: the two roots, one person per step, and the two common
    parents. *)
Theorem edge_insertion_keeps_invariants :
  (∀ p c arr, edges_ok arr → edges_ok (addParentChild p c arr))
  ∧ (∀ p c arr, mkEdge p c ∈ arr → addParentChild p c arr = arr)
  ∧ (∀ p arr, addParentChild p p arr = arr)
  ∧ (∀ p c st, mkEdge p c ∈ s_rels st → link p c st = st)
  ∧ (∀ l conn r _id,
       (_id + N.of_nat (length (spec_steps l) + length (spec_steps r) + 4)
        ≤ counter_max)%N →
       edges_ok (out_rels (buildGraphFromSibling l conn r _id).1)).
Proof.
  split_and!.
  - apply addParentChild_ok.
  - apply addParentChild_present.
  - apply addParentChild_self.
  - apply link_present.
  - intros l conn r _id _. simpl.
    destruct (synthesize_spec l conn r _id) as [Hinv _]. apply Hinv.
Qed.

Lemma counter_small : (1 + N.of_nat (1 + 1 + 4) ≤ counter_max)%N.
Proof. vm_compute. discriminate. Qed.

Lemma edge_insertion_keeps_invariants_witness :
  edges_ok (addParentChild (js "2") (js "1") [mkEdge (js "3") (js "1")])
  ∧ addParentChild (js "3") (js "1") [mkEdge (js "3") (js "1")]
    = [mkEdge (js "3") (js "1")]
  ∧ addParentChild (js "1") (js "1") [mkEdge (js "3") (js "1")]
    = [mkEdge (js "3") (js "1")]
  ∧ edges_ok
      (out_rels
         (buildGraphFromSibling
            (mkSpec he [mother] (js "Его мать") female [] 2)
            (mkConnector (js "сестра") None 3)
            (mkSpec she [father] (js "Её отец") male [] 5) 1).1).
Proof.
  destruct edge_insertion_keeps_invariants
    as (Hok & Hdup & Hself & _ & Hsynth).
  split_and!;
    [| | |exact (Hsynth (mkSpec he [mother] (js "Его мать") female [] 2)
                   (mkConnector (js "сестра") None 3)
                   (mkSpec she [father] (js "Её отец") male [] 5) 1%N
                   counter_small)].
  - apply Hok. split.
    + apply NoDup_singleton.
    + intros e ->%list_elem_of_singleton. simpl. discriminate.
  - apply Hdup. apply list_elem_of_here.
  - apply Hself.
Defined.

Lemma parseTokens_Ok tokens _id g n :
  parseTokens tokens _id = Ok (g, n) →
  ∃ l conn r,
    parseRelativeSpec tokens 0 = Ok l
    ∧ parseSiblingConnector tokens (spec_next l) = Ok conn
    ∧ parseRelativeSpec tokens (conn_next conn) = Ok r
    ∧ (g, n) = buildGraphFromSibling l conn r _id.
Proof.
  unfold parseTokens.
  destruct (parseRelativeSpec tokens 0) as [l|] eqn:El; [|done].
  cbn [mbind Result_bind].
  destruct (parseSiblingConnector tokens (spec_next l)) as [conn|] eqn:Ec;
    [|done].
  cbn [mbind Result_bind].
  destruct (parseRelativeSpec tokens (conn_next conn)) as [r|] eqn:Er;
    [|done].
  cbn [mbind Result_bind]. intros Hg. exists l, conn, r.
  split_and!; [done..|]. congruence.
Qed.

(** C5 (counterexample).  A phrase with the pronoun "его" on both sides
    parses, and no person of the result is called "Она": there is no second
    root whose identifier could be returned. *)
Lemma parse_without_she_root :
  ∃ g n,
    parseAdvancedKinship lower_basic
      (js "его мама сестра его деда по отцовской линии") 1 = Ok (g, n)
    ∧ ¬ ∃ p, p ∈ out_people g ∧ name p = js "Она".
Proof.
  eexists _, _. split; [vm_compute; reflexivity|].
  intros (p & Hp & Hn). revert Hn.
  repeat (apply elem_of_cons in Hp as [->|Hp]; [discriminate|]).
  by apply elem_of_nil in Hp.
Qed.

(** ** Missing line clause *)

Lemma is_grand_term_cases w :
  is_grand_term w →
  w ≠ [] ∧ has motherWords (Some w) = false ∧ has fatherWords (Some w) = false.
Proof.
  unfold is_grand_term. intros Hg. split_and!.
  - by intros ->.
  - apply bool_decide_eq_false. intros Hw. revert Hg.
    repeat (apply elem_of_cons in Hw as [->|Hw]; [discriminate|]).
    by apply elem_of_nil in Hw.
  - apply bool_decide_eq_false. intros Hw. revert Hg.
    repeat (apply elem_of_cons in Hw as [->|Hw]; [discriminate|]).
    by apply elem_of_nil in Hw.
Qed.

Lemma takeLine_None tokens i :
  ¬ line_clause_at tokens i → takeLine tokens i = (None, i).
Proof.
  intros Hno. unfold takeLine.
  destruct (_ && _ && _) eqn:E; [|done].
  exfalso. apply Hno.
  apply andb_true_iff in E as [[H1 H2]%andb_true_iff H3].
  apply bool_decide_eq_true in H1, H3.
  apply orb_true_iff in H2 as [H2%bool_decide_eq_true|H2%bool_decide_eq_true];
    by split_and!; [|eauto|].
Qed.

Lemma parseRelativeSpec_missing_line tokens i pron w :
  tokens !! i = Some pron → pron ∈ PRONOUN →
  tokens !! (i + 1)%nat = Some w → is_grand_term w →
  ¬ line_clause_at tokens (i + 2) →
  parseRelativeSpec tokens i = Err line_clause_error.
Proof.
  intros Hpron Hin Hw Hg Hno.
  destruct (is_grand_term_cases w Hg) as (Hne & Hm & Hf).
  destruct w as [|c w]; [done|].
  unfold parseRelativeSpec. rewrite Hpron, Hw.
  assert (has PRONOUN (Some pron) = true) as ->
    by by apply bool_decide_eq_true.
  cbn [negb]. rewrite Hm, Hf.
  unfold is_grand_term in Hg. rewrite Hg.
  replace (i + 1 + 1)%nat with (i + 2)%nat by lia.
  by rewrite takeLine_None.
Qed.

(** C7, as amended.  When the relation term of the left specification, or
    of the right one once the left specification and the connector have
    been parsed, is a grandparent term that is not followed at once by a
    line clause, [parseAdvancedKinship] fails with the error that asks for
    the line, and returns no graph. *)
Theorem missing_line_clause_rejected toLowerCase text _id :
  let tokens := tokenize (normalizeText toLowerCase text) in
  (∀ pron w,
     tokens !! O = Some pron → pron ∈ PRONOUN →
     tokens !! 1%nat = Some w → is_grand_term w →
     ¬ line_clause_at tokens 2 →
     parseAdvancedKinship toLowerCase text _id = Err line_clause_error)
  ∧ (∀ l conn pron w,
       parseRelativeSpec tokens 0 = Ok l →
       parseSiblingConnector tokens (spec_next l) = Ok conn →
       tokens !! conn_next conn = Some pron → pron ∈ PRONOUN →
       tokens !! (conn_next conn + 1)%nat = Some w → is_grand_term w →
       ¬ line_clause_at tokens (conn_next conn + 2) →
       parseAdvancedKinship toLowerCase text _id = Err line_clause_error).
Proof.
  intros tokens.
  assert (∀ x, tokens !! O = Some x →
            parseAdvancedKinship toLowerCase text _id
            = parseTokens tokens _id) as Hnonempty.
  { intros x Hx. unfold parseAdvancedKinship. case_decide as Hn; [|done].
    subst tokens. by rewrite Hn in Hx. }
  split.
  - intros pron w Hpron Hin Hw Hg Hno.
    rewrite (Hnonempty _ Hpron). unfold parseTokens.
    by rewrite (parseRelativeSpec_missing_line tokens 0 pron w).
  - intros l conn pron w Hl Hc Hpron Hin Hw Hg Hno.
    assert (∃ x, tokens !! O = Some x) as [x Hx].
    { unfold parseRelativeSpec in Hl.
      destruct (tokens !! O) eqn:E; [eauto|done]. }
    rewrite (Hnonempty _ Hx). unfold parseTokens.
    rewrite Hl. cbn [mbind Result_bind]. rewrite Hc. cbn [mbind Result_bind].
    by rewrite (parseRelativeSpec_missing_line tokens _ pron w).
Qed.

(** Scenario 5, and the same omission on the right-hand side. *)
Lemma missing_line_clause_rejected_witness :
  parseAdvancedKinship lower_basic (js "его дед старший брат ее матери") 1
  = Err line_clause_error
  ∧ parseAdvancedKinship lower_basic (js "Его мать — сестра её деда") 1
    = Err line_clause_error.
Proof.
  split.
  - apply (missing_line_clause_rejected lower_basic
             (js "его дед старший брат ее матери") 1)
      with (pron := js "его") (w := js "дед").
    + vm_compute. reflexivity.
    + apply list_elem_of_here.
    + vm_compute. reflexivity.
    + vm_compute. reflexivity.
    + intros [H _]. vm_compute in H. discriminate.
  - apply (missing_line_clause_rejected lower_basic
             (js "Его мать — сестра её деда") 1)
      with (l := mkSpec he [mother] (js "Его мать") female [] 2)
           (conn := mkConnector (js "сестра") None 3)
           (pron := js "ее") (w := js "деда").
    + vm_compute. reflexivity.
    + vm_compute. reflexivity.
    + vm_compute. reflexivity.
    + apply list_elem_of_further, list_elem_of_here.
    + vm_compute. reflexivity.
    + vm_compute. reflexivity.
    + intros [H _]. vm_compute in H. discriminate.
Defined.

(** C7 (counterexample).  A grandparent term that is not followed by a line
    clause, here among the tokens left over after the sentence, does not
    make the parse fail: a graph is returned. *)
Lemma trailing_grand_term_accepted :
  let text := js "его мать сестра ее мама дед" in
  let tokens := tokenize (normalizeText lower_basic text) in
  (∃ w, tokens !! 5%nat = Some w ∧ is_grand_term w
        ∧ ¬ line_clause_at tokens 6)
  ∧ ∃ g n, parseAdvancedKinship lower_basic text 1 = Ok (g, n)
           ∧ out_people g ≠ [].
Proof.
  split.
  - exists (js "дед"). split_and!; [vm_compute; reflexivity..|].
    intros [H _]. vm_compute in H. discriminate.
  - eexists _, _. split; [vm_compute; reflexivity|]. discriminate.
Qed.

(** An earlier violation is reported first: here the unknown relation term
    of the left specification, not the missing line clause of the right
    one. *)
Lemma earlier_error_reported_first :
  parseAdvancedKinship lower_basic (js "его брат сестра ее деда") 1
  = Err (js "Неизвестный термин родства: брат").
Proof. vm_compute. reflexivity. Qed.

(** Scenario 4: the graph synthesized from the demonstration phrase relates
    its two roots as the demonstration graph does. *)
Lemma parsed_phrase_he_she :
  ∃ g n,
    parseAdvancedKinship lower_basic
      (js "его мать — младшая сестра её деда по материнской линии") 1
    = Ok (g, n)
    ∧ title (relationLabel (js "1") (js "3") (out_people g) (out_rels g))
      = js "двоюродный дядя"
    ∧ reverseTitle
        (relationLabel (js "1") (js "3") (out_people g) (out_rels g))
      = js "двоюродная племянница".
Proof.
  eexists _, _. split; [vm_compute; reflexivity|].
  split; vm_compute; reflexivity.
Qed.

Lemma buildDemo_edges_ok : edges_ok buildDemo.2.
Proof.
  split.
  - apply (@bool_decide_eq_true_1 _ (NoDup_dec _)). vm_compute.
    reflexivity.
  - apply Forall_forall.
    apply (@bool_decide_eq_true_1 _ (Forall_dec _ _)). vm_compute.
    reflexivity.
Qed.

(** * Further properties of the code *)

(** ** The indexes of [buildIndexes] *)

Lemma fold_push_at (f g : ParentEdge → jsstring) (edges : list ParentEdge)
    (m : gmap jsstring (list jsstring)) (c : jsstring) :
  parents (foldl (λ m e, push_at (f e) (g e) m) m edges) c
  = parents m c ++ (g <$> filter (λ e, f e = c) edges).
Proof.
  revert m. induction edges as [|e edges IH]; intros m; cbn [foldl].
  - by rewrite filter_nil, fmap_nil, app_nil_r.
  - rewrite IH, parents_push_at, filter_cons.
    case_decide as H1; case_decide as H2; try congruence.
    by rewrite fmap_cons, <- app_assoc.
Qed.

Lemma push_at_is_Some (k x : jsstring) (m : gmap jsstring (list jsstring))
    (j : jsstring) :
  is_Some (m !! j) → is_Some (push_at k x m !! j).
Proof.
  intros Hj. unfold push_at.
  destruct (decide (j = k)) as [->|Hne].
  - rewrite lookup_alter_eq. destruct (m !! k) eqn:E.
    + rewrite E. eauto.
    + by destruct Hj.
  - rewrite lookup_alter_ne by done.
    destruct (m !! k); [done|]. by rewrite lookup_insert_ne.
Qed.

Lemma fold_push_at_is_Some (f g : ParentEdge → jsstring)
    (edges : list ParentEdge)
    (m : gmap jsstring (list jsstring)) (j : jsstring) :
  is_Some (m !! j) →
  is_Some (foldl (λ m e, push_at (f e) (g e) m) m edges !! j).
Proof.
  revert m. induction edges as [|e edges IH]; intros m Hj; cbn [foldl];
    [done|].
  by apply IH, push_at_is_Some.
Qed.

Lemma empty_index_is_Some (people : list Person)
    (m : gmap jsstring (list jsstring)) (j : jsstring) :
  is_Some (m !! j) ∨ j ∈ id <$> people →
  is_Some (foldl (λ m p, <[id p := []]> m) m people !! j).
Proof.
  revert m. induction people as [|p people IH]; intros m Hj; cbn [foldl].
  - destruct Hj as [?|Hj]; [done|]. by apply elem_of_nil in Hj.
  - apply IH. rewrite fmap_cons, elem_of_cons in Hj.
    destruct (decide (j = id p)) as [->|Hne].
    + left. rewrite lookup_insert_eq. eauto.
    + rewrite lookup_insert_ne by done. naive_solver.
Qed.

Lemma demo_plain : plain_collection buildDemo.1 buildDemo.2.
Proof. decide_closed. Qed.

Lemma demo_ids_plain :
  plain (js "1") ∧ plain (js "2") ∧ plain (js "3") ∧ plain (js "5")
  ∧ plain (js "6") ∧ plain (js "7").
Proof. split_and!; decide_closed. Qed.

(** X1.  For a collection of plain identifiers, the two adjacency maps
    list, for every plain identifier, the other ends of its edges in edge
    order; they are inverse to each other, and every person has an entry in
    both, with or without edges. *)
Theorem buildIndexes_adjacency people edges :
  plain_collection people edges →
  let ix := buildIndexes people edges in
  (∀ c, plain c →
        parents (parentsOf ix) c
        = parentId <$> filter (λ e, childId e = c) edges)
  ∧ (∀ p, plain p →
          parents (childrenOf ix) p
          = childId <$> filter (λ e, parentId e = p) edges)
  ∧ (∀ p c, plain p → plain c →
       (p ∈ parents (parentsOf ix) c ↔ c ∈ parents (childrenOf ix) p))
  ∧ (∀ x, x ∈ people →
       is_Some (parentsOf ix !! id x) ∧ is_Some (childrenOf ix !! id x)).
Proof.
  intros _.
  assert (∀ f g c,
            parents (foldl (λ m e, push_at (f e) (g e) m)
                       (foldl (λ m p, <[id p := []]> m) ∅ people) edges) c
            = g <$> filter (λ e : ParentEdge, f e = c) edges) as Hadj.
  { intros f g c. rewrite fold_push_at, parents_empty_index; [done|].
    unfold parents. by rewrite lookup_empty. }
  cbv zeta. cbn [buildIndexes parentsOf childrenOf]. split_and!.
  - intros c _. apply Hadj.
  - intros p _. apply Hadj.
  - intros p c _ _. rewrite !Hadj, !list_elem_of_fmap. split.
    + intros ([p' c'] & -> & [Hc He]%list_elem_of_filter). simpl in *.
      subst c'. exists (mkEdge p' c). split; [done|].
      by apply list_elem_of_filter.
    + intros ([p' c'] & -> & [Hp He]%list_elem_of_filter). simpl in *.
      subst p'. exists (mkEdge p c'). split; [done|].
      by apply list_elem_of_filter.
  - intros x Hx.
    split; apply fold_push_at_is_Some, empty_index_is_Some; right;
      by apply list_elem_of_fmap_2.
Qed.

Lemma buildIndexes_adjacency_witness :
  (js "3") ∈ parents (parentsOf (buildIndexes buildDemo.1 buildDemo.2))
               (js "2")
  ∧ (js "2") ∈ parents (childrenOf (buildIndexes buildDemo.1 buildDemo.2))
                 (js "3").
Proof.
  assert ((js "3") ∈ parents (parentsOf (buildIndexes buildDemo.1 buildDemo.2))
                       (js "2")) as H by (vm_compute; set_solver).
  split; [exact H|].
  destruct demo_ids_plain as (_ & H2 & H3 & _).
  exact (proj1 (proj1 (proj2 (proj2
           (buildIndexes_adjacency buildDemo.1 buildDemo.2 demo_plain)))
           (js "3") (js "2") H3 H2) H).
Defined.

Lemma byId_fold_last (people : list Person) (m : gmap jsstring Person)
    (i : jsstring) :
  foldl (λ m p, <[id p := p]> m) m people !! i
  = match last (filter (λ p, id p = i) people) with
    | Some p => Some p
    | None => m !! i
    end.
Proof.
  revert m. induction people as [|p people IH]; intros m; cbn [foldl];
    [done|].
  rewrite IH, filter_cons. case_decide as Hp.
  - destruct (filter (λ p, id p = i) people) as [|q l] eqn:E.
    + simpl. subst i. by rewrite lookup_insert_eq.
    + change (last (p :: q :: l)) with (last (q :: l)).
      destruct (last (q :: l)) eqn:El; [done|]. by apply last_None in El.
  - rewrite lookup_insert_ne by done. done.
Qed.

Lemma find_head_filter (people : list Person) (i : jsstring) :
  find (λ p, bool_decide (id p = i)) people
  = head (filter (λ p, id p = i) people).
Proof.
  induction people as [|p people IH]; [done|].
  rewrite filter_cons. simpl. case_bool_decide; case_decide; try done.
Qed.

Lemma filter_id_NoDup (people : list Person) (i : jsstring) :
  NoDup (id <$> people) → (length (filter (λ p, id p = i) people) ≤ 1)%nat.
Proof.
  induction people as [|p people IH]; [simpl; lia|].
  rewrite fmap_cons, NoDup_cons, filter_cons. intros [Hp Hnd].
  case_decide as Hi; [|by apply IH].
  destruct (filter (λ p, id p = i) people) as [|q l] eqn:E; [simpl; lia|].
  exfalso. assert (q ∈ filter (λ p, id p = i) people) as Hq
    by (rewrite E; left).
  apply list_elem_of_filter in Hq as [Hq1 Hq2].
  apply Hp. rewrite Hi, <- Hq1. by apply list_elem_of_fmap_2.
Qed.

(** X2.  For plain identifiers, [byId[i]] is the last person that carries
    the identifier [i], [people.find((p) => p.id === i)] is the first one;
    the two lookups of the common ancestor in [relationLabel] agree when
    the identifiers of the persons are pairwise distinct. *)
Theorem byId_last_find_first people edges i :
  plain_collection people edges → plain i →
  byId (buildIndexes people edges) !! i
  = last (filter (λ p, id p = i) people)
  ∧ find (λ p, bool_decide (id p = i)) people
    = head (filter (λ p, id p = i) people)
  ∧ (NoDup (id <$> people) →
     byId (buildIndexes people edges) !! i
     = find (λ p, bool_decide (id p = i)) people).
Proof.
  intros _ _.
  assert (byId (buildIndexes people edges) !! i
          = last (filter (λ p, id p = i) people)) as Hlast.
  { cbn [buildIndexes byId]. rewrite byId_fold_last, lookup_empty.
    by destruct (last _). }
  split_and!; [done|apply find_head_filter|].
  intros Hnd. rewrite Hlast, find_head_filter.
  pose proof (filter_id_NoDup people i Hnd) as Hlen.
  destruct (filter (λ p, id p = i) people) as [|p [|q l]]; simpl in *;
    [done..|lia].
Qed.

Lemma byId_last_find_first_witness :
  NoDup (id <$> buildDemo.1)
  ∧ byId (buildIndexes buildDemo.1 buildDemo.2) !! (js "7")
    = find (λ p, bool_decide (id p = js "7")) buildDemo.1.
Proof.
  assert (NoDup (id <$> buildDemo.1)) as Hnd.
  { apply (@bool_decide_eq_true_1 _ (NoDup_dec _)). vm_compute. reflexivity. }
  split; [exact Hnd|].
  destruct demo_ids_plain as (_ & _ & _ & _ & _ & H7).
  exact (proj2 (proj2 (byId_last_find_first buildDemo.1 buildDemo.2 (js "7")
                         demo_plain H7))
           Hnd).
Defined.

(** ** Ancestor tests on arbitrary edge collections *)

(** X3.  On every edge collection of plain identifiers, cyclic ones
    included, the ancestor search ends, without an exception; nobody is
    reported as an ancestor of themselves; the answer of [isAncestorOf] is
    -1 or the least number of parent hops, which is at least 1, and it is
    at least 1 exactly for a different person that parent edges reach. *)
Theorem isAncestorOf_any_graph po a b :
  plain a → plain b → plain_graph po →
  isAncestorOf_any a b po = Normal (Number (isAncestorOf a b po))
  ∧ bfs_run po (mkBfs [] {[b]} [(b, 0)]) (getAncestors b po)
  ∧ isAncestorOf a a po = -1
  ∧ (isAncestorOf a b po = -1 ∨ 1 ≤ isAncestorOf a b po)
  ∧ (1 ≤ isAncestorOf a b po ↔ a ≠ b ∧ ∃ n, hops po n b a)
  ∧ (1 ≤ isAncestorOf a b po →
     hops po (Z.to_nat (isAncestorOf a b po)) b a
     ∧ ∀ m, hops po m b a → isAncestorOf a b po ≤ Z.of_nat m).
Proof.
  intros Ha Hb Hpo. split; [by apply isAncestorOf_any_plain|].
  split; [apply getAncestors_run|]. split_and!.
  - unfold isAncestorOf.
    destruct (obj_get (getAncestors a po) a) as [d|] eqn:E; [|done].
    by apply getAncestors_sound in E as [? _].
  - unfold isAncestorOf.
    destruct (obj_get (getAncestors b po) a) as [d|] eqn:E; [|by left].
    apply getAncestors_sound in E as (_ & ? & _). by right.
  - unfold isAncestorOf. split.
    + destruct (obj_get (getAncestors b po) a) as [d|] eqn:E; [|lia].
      intros _. apply getAncestors_sound in E as (? & _ & ? & _). eauto.
    + intros [Hne [n Hn]].
      destruct (getAncestors_complete b po a n Hne Hn) as [d Hd].
      rewrite Hd. by apply getAncestors_sound in Hd as (_ & ? & _).
  - unfold isAncestorOf.
    destruct (obj_get (getAncestors b po) a) as [d|] eqn:E; [|lia].
    intros _. by apply getAncestors_sound in E as (_ & _ & ? & ?).
Qed.

Lemma loop_graph_plain :
  plain (js "x") ∧ plain (js "y") ∧ plain_graph loop_graph.
Proof. split_and!; decide_closed. Qed.

Lemma isAncestorOf_any_graph_witness :
  ¬ acyclic loop_graph
  ∧ isAncestorOf (js "x") (js "x") loop_graph = -1
  ∧ hops loop_graph (Z.to_nat (isAncestorOf (js "x") (js "y") loop_graph))
      (js "y") (js "x").
Proof.
  destruct loop_graph_plain as (Hx & Hy & Hpo).
  split_and!.
  - intros Hacyc. apply (Hacyc (js "x") 1%nat).
    apply hops_S with (js "y"); [vm_compute; set_solver|].
    apply hops_S with (js "x"); [vm_compute; set_solver|]. constructor.
  - exact (proj1 (proj2 (proj2
             (isAncestorOf_any_graph loop_graph (js "x") (js "x")
                Hx Hx Hpo)))).
  - apply (proj2 (proj2 (proj2 (proj2 (proj2
             (isAncestorOf_any_graph loop_graph (js "x") (js "y")
                Hx Hy Hpo)))))).
    vm_compute. discriminate.
Defined.

(** ** The path of the evidence list *)

Lemma ascending_snoc po path v x :
  ascending po path → last path = Some v → x ∈ parents po v →
  ascending po (path ++ [x]).
Proof.
  intros Hasc Hlast Hx i a b Ha Hb.
  destruct (decide (S i < length path)%nat) as [Hlt|Hge].
  - rewrite lookup_app_l in Ha by lia. rewrite lookup_app_l in Hb by lia.
    by eapply Hasc.
  - assert (S i = length path) as Hi.
    { apply lookup_lt_Some in Hb. rewrite length_app in Hb. simpl in Hb. lia. }
    rewrite lookup_app_l in Ha by lia.
    rewrite lookup_app_r, Hi, Nat.sub_diag in Hb by lia.
    injection Hb as <-.
    rewrite last_lookup in Hlast.
    replace (Nat.pred (length path)) with i in Hlast by lia.
    by simplify_eq.
Qed.

Lemma descent_ascending po fromId x l :
  descent po fromId x l →
  ascending po (fromId :: reverse l)
  ∧ last (fromId :: reverse l) = Some x
  ∧ hops po (length l) fromId x.
Proof.
  induction 1 as [|x v l Hx Hp Hd (Hasc & Hlast & Hhops)].
  - split_and!; [|done|constructor].
    intros i a b Ha Hb. by destruct i.
  - rewrite reverse_cons, app_comm_cons. split_and!.
    + by eapply ascending_snoc.
    + by rewrite last_snoc.
    + simpl. by eapply hops_snoc.
Qed.

Lemma walk_run_descent po fromId ancestorId prev seen pending u acc res :
  path_inv po fromId ancestorId prev seen pending →
  (∀ x, [] ∉ parents po x) →
  walk_run prev fromId u acc res →
  ∀ x, u = Some x → x = fromId ∨ is_Some (prev !! x) →
  ∃ l, res = acc ++ l ∧ descent po fromId x l.
Proof.
  intros Hinv Hne. induction 1 as [acc|y acc Hstop|y acc res Hgo Hrun IH];
    intros x Hu Hx; simplify_eq.
  - exists []. rewrite app_nil_r. split; [done|].
    destruct Hstop as [->| ->]; [|constructor].
    destruct Hx as [<-|[v Hv]]; [constructor|].
    destruct (pv_edge _ _ _ _ _ _ Hinv _ _ Hv) as (Hp & _).
    by apply Hne in Hp.
  - destruct Hx as [->|[v Hv]]; [tauto|].
    destruct (pv_edge _ _ _ _ _ _ Hinv _ _ Hv) as (Hp & Hxf & Hv').
    destruct (IH v Hv Hv') as (l & -> & Hd).
    exists (x :: l). rewrite <- app_assoc. split; [done|].
    by eapply descent_step.
Qed.

Lemma layer_visit_path po fromId ancestorId v p st L :
  path_inv po fromId ancestorId (ls_prev st) (ls_seen st) (L ++ ls_next st) →
  v ∈ ls_seen st → p ∈ parents po v →
  path_inv po fromId ancestorId (ls_prev (layer_visit v st p))
    (ls_seen (layer_visit v st p)) (L ++ ls_next (layer_visit v st p))
  ∧ p ∈ ls_seen (layer_visit v st p)
  ∧ ls_seen st ⊆ ls_seen (layer_visit v st p).
Proof.
  intros Hinv Hv Hp. unfold layer_visit.
  case_decide as Hin; [done|]. simpl.
  assert (fromId ∈ ls_seen st) as Hfrom
    by (apply (pv_seen _ _ _ _ _ _ Hinv); by left).
  assert (v ≠ p) as Hvp by (by intros ->).
  split_and!; [|set_solver..]. split.
  - intros q w Hq. apply lookup_insert_Some in Hq as [[<- <-]|[Hne Hq]].
    + split_and!; [done|by intros ->|].
      apply (pv_seen _ _ _ _ _ _ Hinv) in Hv as [?|Hk]; [by left|right].
      by rewrite lookup_insert_ne.
    + destruct (pv_edge _ _ _ _ _ _ Hinv _ _ Hq) as (? & ? & Hw).
      split_and!; [done..|].
      destruct Hw as [?|Hw]; [by left|right].
      apply lookup_insert_is_Some'. by right.
  - intros x. rewrite elem_of_union, elem_of_singleton,
      (pv_seen _ _ _ _ _ _ Hinv), lookup_insert_is_Some'. naive_solver.
  - intros u Hu Hpend.
    rewrite app_assoc in Hpend. apply not_elem_of_app in Hpend as [Hpend Hup].
    assert (u ∈ ls_seen st) as Hu' by set_solver.
    destruct (pv_closed _ _ _ _ _ _ Hinv u Hu' Hpend) as [? Hcl].
    split; [done|]. intros q Hq. apply elem_of_union_r. by apply Hcl.
  - intros u Hu. rewrite app_assoc in Hu.
    apply elem_of_app in Hu as [Hu| ->%list_elem_of_singleton];
      [|set_solver].
    apply elem_of_union_r. by apply (pv_pending _ _ _ _ _ _ Hinv).
Qed.

Lemma layer_visit_fold_path po fromId ancestorId v ps st L :
  path_inv po fromId ancestorId (ls_prev st) (ls_seen st) (L ++ ls_next st) →
  v ∈ ls_seen st → (∀ p, p ∈ ps → p ∈ parents po v) →
  path_inv po fromId ancestorId (ls_prev (foldl (layer_visit v) st ps))
    (ls_seen (foldl (layer_visit v) st ps))
    (L ++ ls_next (foldl (layer_visit v) st ps))
  ∧ (∀ p, p ∈ ps → p ∈ ls_seen (foldl (layer_visit v) st ps))
  ∧ ls_seen st ⊆ ls_seen (foldl (layer_visit v) st ps).
Proof.
  revert st. induction ps as [|p ps IH]; intros st Hinv Hv Hps; simpl.
  - split_and!; [done| |done]. by intros ? ?%elem_of_nil.
  - destruct (layer_visit_path po fromId ancestorId v p st L)
      as (Hinv' & Hp & Hsub); [done..|by apply Hps; left|].
    destruct (IH (layer_visit v st p)) as (Hinv'' & Hall & Hsub');
      [done|set_solver|by intros; apply Hps; right|].
    split_and!; [done| |set_solver].
    intros q [->|Hq]%elem_of_cons; [set_solver|by apply Hall].
Qed.

Lemma scan_run_path po fromId ancestorId layer st res :
  (∀ x, [] ∉ parents po x) →
  scan_run po fromId ancestorId layer st res →
  path_inv po fromId ancestorId (ls_prev st) (ls_seen st)
    (layer ++ ls_next st) →
  match res with
  | inl path => ∃ l, path = fromId :: reverse l
                     ∧ descent po fromId ancestorId l
  | inr st' => path_inv po fromId ancestorId (ls_prev st') (ls_seen st')
                 (ls_next st')
  end.
Proof.
  intros Hne. induction 1 as [st|v layer st path -> Hwalk
                             |v layer st res Hv Hrun IH]; intros Hinv.
  - done.
  - destruct (walk_run_descent po fromId ancestorId _ _ _ _ _ _ Hinv Hne Hwalk
                ancestorId eq_refl) as (l & -> & Hd).
    + apply (pv_seen _ _ _ _ _ _ Hinv), (pv_pending _ _ _ _ _ _ Hinv).
      set_solver.
    + by exists l.
  - assert (v ∈ ls_seen st) as Hvs
      by (apply (pv_pending _ _ _ _ _ _ Hinv); set_solver).
    destruct (layer_visit_fold_path po fromId ancestorId v (parents po v) st
                (v :: layer)) as (Hinv' & Hall & Hsub); [done..|].
    apply IH. split.
    + apply (pv_edge _ _ _ _ _ _ Hinv').
    + apply (pv_seen _ _ _ _ _ _ Hinv').
    + intros u Hu Hpend.
      destruct (decide (u = v)) as [->|Huv]; [by split|].
      apply (pv_closed _ _ _ _ _ _ Hinv'); [done|].
      simpl. by apply not_elem_of_cons.
    + intros u Hu. apply (pv_pending _ _ _ _ _ _ Hinv'). simpl. by right.
Qed.

Lemma path_inv_closed po fromId ancestorId prev seen n x y :
  path_inv po fromId ancestorId prev seen [] →
  hops po n x y → x ∈ seen → y ∈ seen.
Proof.
  intros Hinv. induction 1 as [|n x p y Hp Hh IH]; [done|].
  intros Hx. apply IH.
  destruct (pv_closed _ _ _ _ _ _ Hinv x Hx) as [_ Hcl];
    [by intros ?%elem_of_nil|by apply Hcl].
Qed.

Lemma layers_run_path po fromId ancestorId layer prev seen res :
  (∀ x, [] ∉ parents po x) →
  layers_run po fromId ancestorId layer prev seen res →
  path_inv po fromId ancestorId prev seen layer →
  (∃ l, res = fromId :: reverse l ∧ descent po fromId ancestorId l)
  ∨ (res = [fromId] ∧ ∀ n, ¬ hops po n fromId ancestorId).
Proof.
  intros Hne.
  induction 1 as [prev seen|layer prev seen path Hl Hscan
                 |layer prev seen st res Hl Hscan Hrun IH]; intros Hinv.
  - right. split; [done|]. intros n Hn.
    assert (ancestorId ∈ seen) as Ha.
    { eapply path_inv_closed; [done..|].
      apply (pv_seen _ _ _ _ _ _ Hinv). by left. }
    destruct (pv_closed _ _ _ _ _ _ Hinv _ Ha) as [? _];
      [by intros ?%elem_of_nil|done].
  - left.
    apply (scan_run_path _ _ _ _ _ _ Hne Hscan). simpl.
    by rewrite app_nil_r.
  - apply IH.
    apply (scan_run_path _ _ _ _ _ _ Hne Hscan). simpl.
    by rewrite app_nil_r.
Qed.

Lemma pathToAncestor_cases po fromId ancestorId :
  (∀ x, [] ∉ parents po x) →
  (∃ l, pathToAncestor fromId ancestorId po = fromId :: reverse l
        ∧ descent po fromId ancestorId l)
  ∨ (pathToAncestor fromId ancestorId po = [fromId]
     ∧ ∀ n, ¬ hops po n fromId ancestorId).
Proof.
  intros Hne.
  apply (layers_run_path po fromId ancestorId [fromId] ∅ {[fromId]});
    [done|apply pathToAncestor_run|].
  split.
  - intros p v Hp. by rewrite lookup_empty in Hp.
  - intros x. rewrite elem_of_singleton. split; [by left|].
    intros [?|[? Hx]]; [done|]. by rewrite lookup_empty in Hx.
  - intros u ->%elem_of_singleton Hu. exfalso. apply Hu. by left.
  - intros u ->%list_elem_of_singleton. by apply elem_of_singleton.
Qed.

Lemma demo_parents_nonempty x :
  [] ∉ parents (parentsOf (buildIndexes buildDemo.1 buildDemo.2)) x.
Proof.
  intros Hx%elem_of_parents_buildIndexes.
  apply (list_elem_of_fmap_2 parentId) in Hx. revert Hx.
  apply (@bool_decide_eq_true_1 _ (not_dec _)). vm_compute. reflexivity.
Qed.

Lemma demo_hops_she_great_grandfather :
  hops (parentsOf (buildIndexes buildDemo.1 buildDemo.2)) 3 (js "1") (js "7").
Proof.
  apply hops_S with (js "2"); [vm_compute; set_solver|].
  apply hops_S with (js "3"); [vm_compute; set_solver|].
  apply hops_S with (js "7"); [vm_compute; set_solver|]. constructor.
Qed.

(** X4.  When the start and all parents are plain identifiers and no edge
    names the empty string as a parent, the search of [pathToAncestor]
    ends and its result starts at [fromId] and climbs parent edges only; it
    ends at [ancestorId] when parent edges lead there, and is the
    one-element list [[fromId]] when they do not. *)
Theorem pathToAncestor_valid po fromId ancestorId :
  plain fromId → plain_graph po →
  (∀ x, [] ∉ parents po x) →
  let path := pathToAncestor fromId ancestorId po in
  layers_run po fromId ancestorId [fromId] ∅ {[fromId]} path
  ∧ head path = Some fromId
  ∧ ascending po path
  ∧ ((∃ n, hops po n fromId ancestorId) →
     last path = Some ancestorId
     ∧ hops po (length path - 1) fromId ancestorId)
  ∧ ((∀ n, ¬ hops po n fromId ancestorId) → path = [fromId]).
Proof.
  intros _ _ Hne path. split; [apply pathToAncestor_run|].
  destruct (pathToAncestor_cases po fromId ancestorId Hne)
    as [(l & Hpath & Hd)|[Hpath Hno]]; subst path; rewrite Hpath.
  - destruct (descent_ascending _ _ _ _ Hd) as (Hasc & Hlast & Hhops).
    split_and!; [done..| |].
    + intros _. split; [done|].
      simpl. by rewrite length_reverse, Nat.sub_0_r.
    + intros Hno. by destruct (Hno _ Hhops).
  - split_and!; [done| | |done].
    + intros i a b Ha Hb. by destruct i.
    + intros [n Hn]. by destruct (Hno n).
Qed.

Lemma pathToAncestor_valid_witness :
  last (pathToAncestor (js "1") (js "7")
          (parentsOf (buildIndexes buildDemo.1 buildDemo.2)))
  = Some (js "7")
  ∧ ascending (parentsOf (buildIndexes buildDemo.1 buildDemo.2))
      (pathToAncestor (js "1") (js "7")
         (parentsOf (buildIndexes buildDemo.1 buildDemo.2))).
Proof.
  pose proof (pathToAncestor_valid _ (js "1") (js "7")
                (proj1 demo_ids_plain)
                (plain_collection_graph _ _ demo_plain)
                demo_parents_nonempty)
    as (_ & _ & Hasc & Hlast & _).
  split; [|exact Hasc].
  apply Hlast. exists 3%nat. apply demo_hops_she_great_grandfather.
Defined.

(** ** Labels of the classifier *)

Lemma demo_acyclic :
  acyclic (parentsOf (buildIndexes buildDemo.1 buildDemo.2)).
Proof.
  apply (ranked_acyclic demo_rank).
  apply (@bool_decide_eq_true_1 _ (ranked_dec _ _)). vm_compute. reflexivity.
Qed.

Lemma demo_numbered :
  Forall (λ e, is_Some (array_index (parentId e))) buildDemo.2.
Proof.
  apply (@bool_decide_eq_true_1 _ (Forall_dec _ _)). vm_compute. reflexivity.
Qed.

Lemma relationLabel_reciprocal_numbered_witness :
  title (relationLabel (js "6") (js "1") buildDemo.1 buildDemo.2)
  = reverseTitle (relationLabel (js "1") (js "6") buildDemo.1 buildDemo.2)
  ∧ reverseTitle (relationLabel (js "6") (js "1") buildDemo.1 buildDemo.2)
    = title (relationLabel (js "1") (js "6") buildDemo.1 buildDemo.2).
Proof.
  destruct demo_ids_plain as (H1 & _ & _ & _ & H6 & _).
  exact (relationLabel_reciprocal_numbered (js "6") (js "1")
           buildDemo.1 buildDemo.2 demo_plain H6 H1 demo_acyclic
           demo_numbered).
Defined.

Lemma isAncestorOf_self po a : isAncestorOf a a po = -1.
Proof.
  unfold isAncestorOf.
  destruct (obj_get (getAncestors a po) a) as [d|] eqn:E; [|done].
  by apply getAncestors_sound in E as [? _].
Qed.

Lemma getAncestors_parent po a p :
  p ∈ parents po a → p ≠ a → obj_get (getAncestors a po) p = Some 1.
Proof.
  intros Hp Hne.
  assert (hops po 1 a p) as Hh by (eapply hops_S; [done|constructor]).
  destruct (getAncestors_complete a po p 1 Hne Hh) as [d Hd].
  pose proof (getAncestors_sound _ _ _ _ Hd) as (_ & Hge & _ & Hmin).
  specialize (Hmin _ Hh). rewrite Hd. f_equal. lia.
Qed.

Lemma hops_only_self po a n x :
  (∀ p, p ∈ parents po a → p = a) → hops po n a x → x = a.
Proof.
  intros Hself. remember a as a' eqn:Ha.
  induction 1 as [|n y p x Hp Hh IH]; [done|].
  subst y. rewrite (Hself p Hp) in *. by apply IH.
Qed.

(** X5.  Asked about one and the same person of a collection of plain
    identifiers, [relationLabel] never answers with an identity: when the
    person has a recorded parent other than themselves, both titles are the
    sibling term in the person's own sex; when not, the result is the "not
    found" sentinel. *)
Theorem relationLabel_self A people edges :
  plain_collection people edges →
  A ∈ id <$> people →
  let r := relationLabel A A people edges in
  ∃ a, a ∈ people ∧ id a = A
    ∧ ((∃ p, mkEdge p A ∈ edges ∧ p ≠ A) →
       title r = sexNoun (sex a) (js "брат") (js "сестра") (js "сиблинг")
       ∧ reverseTitle r = title r)
    ∧ ((∀ p, mkEdge p A ∈ edges → p = A) → r = not_found_label).
Proof.
  intros _ [a Ha]%(byId_is_Some people edges) r.
  destruct (byId_Some _ _ _ _ Ha) as [Ha1 Ha2].
  exists a. split_and!; [done..| |].
  - intros (p & Hp%(elem_of_parents_buildIndexes people) & Hne).
    set (po := parentsOf (buildIndexes people edges)) in *.
    pose proof (getAncestors_parent _ _ _ Hp Hne) as Hp1.
    destruct (findLCA_least A A po) as [Hnone Hsome].
    destruct (findLCA A A po) as [lca|] eqn:E.
    + destruct (Hsome lca eq_refl) as ([HA HB] & Hmin).
      pose proof (getAncestors_sound _ _ _ _ HA) as (_ & HgeA & _).
      pose proof (getAncestors_sound _ _ _ _ HB) as (_ & HgeB & _).
      specialize (Hmin p 1 1 Hp1 Hp1). unfold lca_le in Hmin.
      assert (lca_dA lca = 1 ∧ lca_dB lca = 1) as [Hk Hl] by lia.
      subst r. unfold relationLabel. cbv zeta. fold po.
      rewrite Ha, isAncestorOf_self, E. cbn [Z.leb Z.compare].
      unfold lca_label. rewrite Hk, Hl. cbn [Z.eqb Pos.eqb andb].
      done.
    + exfalso. apply (proj1 Hnone eq_refl p). rewrite Hp1. eauto.
  - intros Hself.
    set (po := parentsOf (buildIndexes people edges)) in *.
    assert (findLCA A A po = None) as E.
    { apply (findLCA_least A A po). intros x [[d Hd] _].
      apply getAncestors_sound in Hd as (Hne & _ & Hh & _).
      apply Hne. eapply hops_only_self; [|done].
      intros p Hp%elem_of_parents_buildIndexes. by apply Hself. }
    subst r. unfold relationLabel. cbv zeta. fold po.
    by rewrite Ha, isAncestorOf_self, E.
Qed.

Lemma relationLabel_self_witness :
  ∃ a, a ∈ buildDemo.1 ∧ id a = js "1"
    ∧ title (relationLabel (js "1") (js "1") buildDemo.1 buildDemo.2)
      = sexNoun (sex a) (js "брат") (js "сестра") (js "сиблинг")
    ∧ title (relationLabel (js "1") (js "1") buildDemo.1 buildDemo.2)
      = js "сестра".
Proof.
  assert ((js "1") ∈ id <$> buildDemo.1) as Hin by (vm_compute; set_solver).
  assert (∃ p, mkEdge p (js "1") ∈ buildDemo.2 ∧ p ≠ js "1") as Hp.
  { exists (js "2"). split; [vm_compute; set_solver|discriminate]. }
  destruct (relationLabel_self (js "1") buildDemo.1 buildDemo.2 demo_plain
              Hin)
    as (a & Ha1 & Ha2 & Hsib & _).
  exists a. split_and!; [done..|by apply Hsib|reflexivity].
Defined.

Lemma parents_nonempty people edges :
  (∀ e, e ∈ edges → parentId e ≠ []) →
  ∀ x, [] ∉ parents (parentsOf (buildIndexes people edges)) x.
Proof.
  intros Hne x Hx%elem_of_parents_buildIndexes. by apply Hne in Hx.
Qed.

(** The path from [B] up to a different, reachable [A]: its first step is a
    parent of [B], and that step alone decides the line annotation. *)
Lemma pathToAncestor_first_step (po : gmap jsstring (list jsstring))
    (byId : gmap jsstring Person) (B A : jsstring) (n : nat) :
  (∀ x, [] ∉ parents po x) → A ≠ B → hops po n B A →
  ∃ q rest,
    pathToAncestor B A po = B :: q :: rest
    ∧ q ∈ parents po B
    ∧ ascending po (B :: q :: rest)
    ∧ last (B :: q :: rest) = Some A
    ∧ describeLine byId (B :: q :: rest) = line_of byId q.
Proof.
  intros Hne HAB Hh.
  destruct (pathToAncestor_cases po B A Hne)
    as [(l & Hpath & Hd)|[_ Hno]]; [|by destruct (Hno n)].
  destruct (descent_ascending _ _ _ _ Hd) as (Hasc & Hlast & _).
  destruct (reverse l) as [|q rest] eqn:El.
  { simpl in Hlast. by simplify_eq. }
  exists q, rest. rewrite Hpath. split_and!; [done| |done..|].
  - by apply (Hasc 0%nat B q).
  - unfold describeLine, line_of. simpl.
    destruct (byId !! q) as [P|]; [|done]. by destruct (sex P).
Qed.

(** X6.  Direct line, seen from the ancestor.  In a collection of plain
    identifiers, when parent edges lead from [B] up to a different person
    [A] and no edge names the empty string as a parent, the title is the ancestor term of [A]'s sex for the least
    number of hops and the reverse title the descendant term of [B]'s sex;
    both carry the same line annotation, which is taken from the parent of
    [B] with which the path of the evidence starts. *)
Theorem relationLabel_ancestor_line A B people edges n :
  let ix := buildIndexes people edges in
  plain_collection people edges →
  A ∈ id <$> people → B ∈ id <$> people → A ≠ B →
  hops (parentsOf ix) n B A →
  (∀ e, e ∈ edges → parentId e ≠ []) →
  let r := relationLabel A B people edges in
  ∃ a b d q rest,
    byId ix !! A = Some a ∧ byId ix !! B = Some b
    ∧ 1 ≤ d ≤ Z.of_nat n ∧ hops (parentsOf ix) (Z.to_nat d) B A
    ∧ (∀ m, hops (parentsOf ix) m B A → d ≤ Z.of_nat m)
    ∧ mkEdge q B ∈ edges
    ∧ ascending (parentsOf ix) (B :: q :: rest)
    ∧ last (B :: q :: rest) = Some A
    ∧ title r = with_line (describeAncestor d (sex a)) (line_of (byId ix) q)
    ∧ reverseTitle r
      = with_line (describeDescendant d (sex b)) (line_of (byId ix) q)
    ∧ details r = [path_detail (byId ix) (B :: q :: rest)].
Proof.
  intros ix _ [a Ha]%(byId_is_Some people edges)
    [b Hb]%(byId_is_Some people edges) HAB Hh Hne r.
  fold ix in Ha, Hb.
  destruct (getAncestors_complete B (parentsOf ix) A n HAB Hh) as [d Hd].
  pose proof (getAncestors_sound _ _ _ _ Hd) as (_ & Hge & Hhd & Hmin).
  destruct (pathToAncestor_first_step (parentsOf ix) (byId ix) B A n)
    as (q & rest & Hpath & Hq & Hasc & Hlast & Hline);
    [by apply parents_nonempty|done..|].
  assert (relationLabel A B people edges
          = let path := pathToAncestor B A (parentsOf ix) in
            let line := describeLine (byId ix) path in
            mkLabel (with_line (describeAncestor d (sex a)) line)
              [path_detail (byId ix) path]
              (with_line (describeDescendant d (sex b)) line)) as Hr.
  { unfold relationLabel. cbv zeta. fold ix. rewrite Ha, Hb.
    unfold isAncestorOf at 1 2 3. rewrite Hd.
    destruct (Z.leb_spec 1 d); [done|lia]. }
  subst r. rewrite Hr. clear Hr. cbv zeta. rewrite Hpath, Hline.
  apply elem_of_parents_buildIndexes in Hq.
  exists a, b, d, q, rest. split_and!; try done.
  - specialize (Hmin _ Hh). lia.
Qed.

Lemma demo_edges_nonempty e : e ∈ buildDemo.2 → parentId e ≠ [].
Proof.
  intros He ?. apply (demo_parents_nonempty (childId e)).
  apply elem_of_parents_buildIndexes. by destruct e; simplify_eq/=.
Qed.

Lemma relationLabel_ancestor_line_witness :
  ∃ a b d q rest,
    byId (buildIndexes buildDemo.1 buildDemo.2) !! (js "7") = Some a
    ∧ byId (buildIndexes buildDemo.1 buildDemo.2) !! (js "1") = Some b
    ∧ 1 ≤ d ≤ 3 ∧ mkEdge q (js "1") ∈ buildDemo.2
    ∧ last (js "1" :: q :: rest) = Some (js "7")
    ∧ title (relationLabel (js "7") (js "1") buildDemo.1 buildDemo.2)
      = with_line (describeAncestor d (sex a))
          (line_of (byId (buildIndexes buildDemo.1 buildDemo.2)) q)
    ∧ title (relationLabel (js "7") (js "1") buildDemo.1 buildDemo.2)
      = js "прадед (по материнской линии)".
Proof.
  assert ((js "7") ∈ id <$> buildDemo.1) as H7 by (vm_compute; set_solver).
  assert ((js "1") ∈ id <$> buildDemo.1) as H1 by (vm_compute; set_solver).
  destruct (relationLabel_ancestor_line (js "7") (js "1") buildDemo.1
              buildDemo.2 3 demo_plain H7 H1 ltac:(discriminate)
              demo_hops_she_great_grandfather demo_edges_nonempty)
    as (a & b & d & q & rest & Ha & Hb & Hd & _ & _ & Hq & _ & Hlast & Ht & _).
  exists a, b, d, q, rest.
  split; [exact Ha|]. split; [exact Hb|]. split; [exact Hd|].
  split; [exact Hq|]. split; [exact Hlast|]. split; [exact Ht|].
  vm_compute. reflexivity.
Defined.

Lemma demo_hops_he_mother :
  hops (parentsOf (buildIndexes buildDemo.1 buildDemo.2)) 1 (js "6") (js "5").
Proof.
  apply hops_S with (js "5"); [vm_compute; set_solver|]. constructor.
Qed.

(** X8.  Direct line, seen from the descendant.  On an acyclic collection
    of plain identifiers without empty parent identifiers, when parent edges lead from [A] up to
    a different person [B], the title is the descendant term of [A]'s sex
    for the least number of hops and the reverse title the ancestor term of
    [B]'s sex; the line annotation of both is taken from the parent of [A]
    with which the path of the evidence starts. *)
Theorem relationLabel_descendant_line A B people edges n :
  let ix := buildIndexes people edges in
  plain_collection people edges →
  acyclic (parentsOf ix) →
  A ∈ id <$> people → B ∈ id <$> people → A ≠ B →
  hops (parentsOf ix) n A B →
  (∀ e, e ∈ edges → parentId e ≠ []) →
  let r := relationLabel A B people edges in
  ∃ a b d q rest,
    byId ix !! A = Some a ∧ byId ix !! B = Some b
    ∧ 1 ≤ d ≤ Z.of_nat n ∧ hops (parentsOf ix) (Z.to_nat d) A B
    ∧ (∀ m, hops (parentsOf ix) m A B → d ≤ Z.of_nat m)
    ∧ mkEdge q A ∈ edges
    ∧ ascending (parentsOf ix) (A :: q :: rest)
    ∧ last (A :: q :: rest) = Some B
    ∧ title r
      = with_line (describeDescendant d (sex a)) (line_of (byId ix) q)
    ∧ reverseTitle r
      = with_line (describeAncestor d (sex b)) (line_of (byId ix) q)
    ∧ details r = [path_detail (byId ix) (A :: q :: rest)].
Proof.
  intros ix _ Hacyc [a Ha]%(byId_is_Some people edges)
    [b Hb]%(byId_is_Some people edges) HAB Hh Hne r.
  fold ix in Ha, Hb.
  assert (B ≠ A) as HBA by done.
  destruct (getAncestors_complete A (parentsOf ix) B n HBA Hh) as [d Hd].
  pose proof (getAncestors_sound _ _ _ _ Hd) as (_ & Hge & Hhd & Hmin).
  assert (isAncestorOf B A (parentsOf ix) = d) as Hdown
    by (unfold isAncestorOf; by rewrite Hd).
  assert (isAncestorOf A B (parentsOf ix) < 1) as Hup
    by (apply acyclic_one_way; [done|lia]).
  destruct (pathToAncestor_first_step (parentsOf ix) (byId ix) A B n)
    as (q & rest & Hpath & Hq & Hasc & Hlast & Hline);
    [by apply parents_nonempty|done..|].
  assert (relationLabel A B people edges
          = let path := pathToAncestor A B (parentsOf ix) in
            let line := describeLine (byId ix) path in
            mkLabel (with_line (describeDescendant d (sex a)) line)
              [path_detail (byId ix) path]
              (with_line (describeAncestor d (sex b)) line)) as Hr.
  { unfold relationLabel. cbv zeta. fold ix. rewrite Ha, Hb, Hdown.
    destruct (Z.leb_spec 1 (isAncestorOf A B (parentsOf ix))); [lia|].
    destruct (Z.leb_spec 1 d); [done|lia]. }
  subst r. rewrite Hr. clear Hr. cbv zeta. rewrite Hpath, Hline.
  apply elem_of_parents_buildIndexes in Hq.
  exists a, b, d, q, rest. split_and!; try done.
  - specialize (Hmin _ Hh). lia.
Qed.

Lemma relationLabel_descendant_line_witness :
  ∃ a b d q rest,
    byId (buildIndexes buildDemo.1 buildDemo.2) !! (js "6") = Some a
    ∧ byId (buildIndexes buildDemo.1 buildDemo.2) !! (js "5") = Some b
    ∧ 1 ≤ d ≤ 1 ∧ mkEdge q (js "6") ∈ buildDemo.2
    ∧ last (js "6" :: q :: rest) = Some (js "5")
    ∧ title (relationLabel (js "6") (js "5") buildDemo.1 buildDemo.2)
      = with_line (describeDescendant d (sex a))
          (line_of (byId (buildIndexes buildDemo.1 buildDemo.2)) q)
    ∧ title (relationLabel (js "6") (js "5") buildDemo.1 buildDemo.2)
      = js "сын (по материнской линии)".
Proof.
  assert ((js "6") ∈ id <$> buildDemo.1) as H6 by (vm_compute; set_solver).
  assert ((js "5") ∈ id <$> buildDemo.1) as H5 by (vm_compute; set_solver).
  destruct (relationLabel_descendant_line (js "6") (js "5") buildDemo.1
              buildDemo.2 1 demo_plain demo_acyclic H6 H5 ltac:(discriminate)
              demo_hops_he_mother demo_edges_nonempty)
    as (a & b & d & q & rest & Ha & Hb & Hd & _ & _ & Hq & _ & Hlast & Ht & _).
  exists a, b, d, q, rest.
  split; [exact Ha|]. split; [exact Hb|]. split; [exact Hd|].
  split; [exact Hq|]. split; [exact Hlast|]. split; [exact Ht|].
  vm_compute. reflexivity.
Defined.

(** ** The titles do not depend on names *)

Lemma empty_index_same (people people' : list Person)
    (m : gmap jsstring (list jsstring)) :
  same_id_sex people people' →
  foldl (λ m p, <[id p := []]> m) m people
  = foldl (λ m p, <[id p := []]> m) m people'.
Proof.
  intros H. revert m. induction H as [|p q l l' [Hid _] _ IH]; intros m;
    [done|].
  cbn [foldl]. rewrite Hid. apply IH.
Qed.

Lemma byId_fold_same (people people' : list Person)
    (m m' : gmap jsstring Person) :
  same_id_sex people people' →
  (∀ i, same_sex (m !! i) (m' !! i)) →
  ∀ i, same_sex (foldl (λ m p, <[id p := p]> m) m people !! i)
         (foldl (λ m p, <[id p := p]> m) m' people' !! i).
Proof.
  intros H. revert m m'.
  induction H as [|p q l l' [Hid Hsex] _ IH]; intros m m' Hm; [done|].
  cbn [foldl]. apply IH. intros i. rewrite Hid.
  destruct (decide (i = id q)) as [->|Hne].
  - by rewrite !lookup_insert_eq.
  - rewrite !lookup_insert_ne by done. apply Hm.
Qed.

Lemma buildIndexes_same people people' edges :
  same_id_sex people people' →
  parentsOf (buildIndexes people edges) = parentsOf (buildIndexes people' edges)
  ∧ ∀ i, same_sex (byId (buildIndexes people edges) !! i)
           (byId (buildIndexes people' edges) !! i).
Proof.
  intros H. split.
  - cbn [buildIndexes parentsOf]. by rewrite (empty_index_same _ _ _ H).
  - cbn [buildIndexes byId]. apply byId_fold_same; [done|].
    intros i. by rewrite lookup_empty.
Qed.

Lemma describeLine_same (byId byId' : gmap jsstring Person)
    (path : list jsstring) :
  (∀ i, same_sex (byId !! i) (byId' !! i)) →
  describeLine byId path = describeLine byId' path.
Proof.
  intros H. unfold describeLine. destruct (path !! 1%nat) as [q|]; [|done].
  specialize (H q). destruct (byId !! q), (byId' !! q); try done.
  simpl in H. by rewrite H.
Qed.

Lemma lca_label_titles_same (f t : jsstring) (people people' : list Person)
    (byId byId' : gmap jsstring Person) (po : gmap jsstring (list jsstring))
    (A B A' B' : Person) (lca : Lca) :
  sex A = sex A' → sex B = sex B' →
  title (lca_label f t people byId po A B lca)
  = title (lca_label f t people' byId' po A' B' lca)
  ∧ reverseTitle (lca_label f t people byId po A B lca)
    = reverseTitle (lca_label f t people' byId' po A' B' lca).
Proof.
  intros HA HB. unfold lca_label. rewrite HA, HB.
  repeat case_match; done.
Qed.

(** X9.  For plain identifiers, the two titles depend on the identifiers,
    the sexes and the edges only: two lists of persons that agree on
    identifier and sex, position by position, get the same titles,
    whatever the names and notes. *)
Theorem relationLabel_titles_ignore_names A B people people' edges :
  plain_collection people edges → plain A → plain B →
  same_id_sex people people' →
  title (relationLabel A B people edges)
  = title (relationLabel A B people' edges)
  ∧ reverseTitle (relationLabel A B people edges)
    = reverseTitle (relationLabel A B people' edges).
Proof.
  intros _ _ _ H.
  destruct (buildIndexes_same people people' edges H) as [Hpo Hid].
  unfold relationLabel. cbv zeta. rewrite <- Hpo.
  set (po := parentsOf (buildIndexes people edges)).
  pose proof (Hid A) as HA. pose proof (Hid B) as HB.
  destruct (byId (buildIndexes people edges) !! A) as [a|],
    (byId (buildIndexes people' edges) !! A) as [a'|]; try done.
  destruct (byId (buildIndexes people edges) !! B) as [b|],
    (byId (buildIndexes people' edges) !! B) as [b'|]; try done.
  simpl in HA, HB.
  destruct (1 <=? isAncestorOf A B po).
  { cbn [title reverseTitle].
    by rewrite HA, HB, (describeLine_same _ _ _ Hid). }
  destruct (1 <=? isAncestorOf B A po).
  { cbn [title reverseTitle].
    by rewrite HA, HB, (describeLine_same _ _ _ Hid). }
  destruct (findLCA A B po); [|done].
  by apply lca_label_titles_same.
Qed.

Lemma relationLabel_titles_ignore_names_witness :
  same_id_sex buildDemo.1 demo_renamed
  ∧ title (relationLabel (js "6") (js "1") demo_renamed buildDemo.2)
    = js "двоюродный дядя".
Proof.
  assert (same_id_sex buildDemo.1 demo_renamed) as H.
  { unfold demo_renamed. apply Forall2_fmap_r, Forall_Forall2_diag.
    by apply Forall_forall. }
  split; [exact H|].
  destruct demo_ids_plain as (H1 & _ & _ & _ & H6 & _).
  rewrite <- (proj1 (relationLabel_titles_ignore_names (js "6") (js "1")
                       buildDemo.1 demo_renamed buildDemo.2 demo_plain H6 H1
                       H)).
  vm_compute. reflexivity.
Defined.

(** ** The editor and the quick parser *)

Lemma issued_mono n n' people :
  (n ≤ n')%N → issued n people → issued n' people.
Proof.
  intros Hle H. eapply Forall_impl; [exact H|].
  intros p (m & Hm & Hlt). exists m. split; [done|lia].
Qed.

Lemma issued_fresh n people :
  issued n people → String_of_N n ∉ id <$> people.
Proof.
  intros Hall (p & Hp & Hin)%list_elem_of_fmap.
  apply (proj1 (Forall_forall _ _) Hall) in Hin as (m & Hm & Hlt).
  rewrite Hm in Hp. apply String_of_N_inj in Hp. lia.
Qed.

Lemma edges_ok_filter (P : ParentEdge → Prop) `{∀ e, Decision (P e)} rels :
  edges_ok rels → edges_ok (filter P rels).
Proof.
  intros [Hnd Hself]. split; [by apply NoDup_filter|].
  intros e [_ He]%list_elem_of_filter. by apply Hself.
Qed.

Lemma demo_editor_inv st : editor_inv (loadDemo st).
Proof.
  split; cbn [loadDemo ed_people ed_rels ed_id].
  - apply (@bool_decide_eq_true_1 _ (NoDup_dec _)). vm_compute. reflexivity.
  - unfold issued, buildDemo. cbn [fst].
    repeat constructor; cbn [id]; eexists; (split; [reflexivity|done]).
  - apply buildDemo_edges_ok.
Qed.

Lemma parse_advances toLowerCase text _id g next :
  parseAdvancedKinship toLowerCase text _id = Ok (g, next) →
  (_id ≤ next)%N ∧ out_people g ≠ [].
Proof.
  unfold parseAdvancedKinship. case_decide; [done|].
  intros (l & conn & r & _ & _ & _ & Hg)%parseTokens_Ok.
  unfold buildGraphFromSibling in Hg. injection Hg as -> ->. simpl.
  destruct (synthesize_spec l conn r _id) as (Hinv & (p & Hp & _) & _).
  split.
  - rewrite (si_next _ _ Hinv). lia.
  - intros Hnil. by rewrite Hnil in Hp.
Qed.

Lemma handleParse_cases toLowerCase not_defined text st :
  ∃ message next,
    (ed_id st ≤ next)%N
    ∧ message
      = match parseAdvancedKinship toLowerCase text (ed_id st) with
        | Ok _ => not_defined (js "setPeople")
        | Err message => message
        end
    ∧ handleParse toLowerCase not_defined text st
      = if decide (normalizeText toLowerCase text = canonical)
        then (None, loadDemo st)
        else (Some (parse_alert message),
              mkEditor (ed_people st) (ed_rels st) (ed_newName st)
                (ed_newSex st) (ed_parentSel st) (ed_childSel st)
                (ed_fromSel st) (ed_toSel st) next).
Proof.
  unfold handleParse, applyParsed.
  destruct (parseAdvancedKinship toLowerCase text (ed_id st))
    as [[g next]|message] eqn:E.
  - destruct (parse_advances _ _ _ _ _ E) as [Hle Hne].
    exists (not_defined (js "setPeople")), next.
    split_and!; [done..|].
    rewrite decide_False by done. by case_decide.
  - exists message, (ed_id st). split_and!; [done..|].
    case_decide; [done|]. by destruct st.
Qed.

Lemma parseTokens_intro tokens _id l conn r :
  parseRelativeSpec tokens 0 = Ok l →
  parseSiblingConnector tokens (spec_next l) = Ok conn →
  parseRelativeSpec tokens (conn_next conn) = Ok r →
  parseTokens tokens _id = Ok (buildGraphFromSibling l conn r _id).
Proof.
  intros Hl Hc Hr. unfold parseTokens. rewrite Hl. cbn [mbind Result_bind].
  rewrite Hc. cbn [mbind Result_bind]. by rewrite Hr.
Qed.

Lemma canonical_tokens _id :
  parseTokens (tokenize canonical) _id
  = Ok (buildGraphFromSibling canonical_left canonical_connector
          canonical_right _id).
Proof. apply parseTokens_intro; vm_compute; reflexivity. Qed.

Lemma canonical_parses toLowerCase text _id :
  normalizeText toLowerCase text = canonical →
  ∃ g next, parseAdvancedKinship toLowerCase text _id = Ok (g, next).
Proof.
  intros Hnorm. unfold parseAdvancedKinship. rewrite Hnorm.
  destruct (decide (canonical = [])) as [Hnil|_]; [discriminate Hnil|].
  rewrite canonical_tokens.
  destruct (buildGraphFromSibling canonical_left canonical_connector
              canonical_right _id) as [g next].
  by exists g, next.
Qed.

(** X10.  The quick parser never installs the graph it has parsed: a
    successful parse ends in the [ReferenceError] of [applyParsed], which
    [handleParse] catches like a parse error.  The canonical phrase, which
    does parse, therefore loads the demonstration graph; every other text
    ends in an alert that leaves the persons, the edges and the selections
    as they were and the counter at or above its old value. *)
Theorem handleParse_never_applies toLowerCase not_defined text st :
  (normalizeText toLowerCase text = canonical →
   (∃ g next, parseAdvancedKinship toLowerCase text (ed_id st) = Ok (g, next))
   ∧ handleParse toLowerCase not_defined text st = (None, loadDemo st))
  ∧ (normalizeText toLowerCase text ≠ canonical →
     ∃ message next,
       (ed_id st ≤ next)%N
       ∧ (is_Some (match parseAdvancedKinship toLowerCase text (ed_id st) with
                   | Ok out => Some out
                   | Err _ => None
                   end) →
          message = not_defined (js "setPeople"))
       ∧ handleParse toLowerCase not_defined text st
         = (Some (parse_alert message),
            mkEditor (ed_people st) (ed_rels st) (ed_newName st)
              (ed_newSex st) (ed_parentSel st) (ed_childSel st)
              (ed_fromSel st) (ed_toSel st) next)).
Proof.
  destruct (handleParse_cases toLowerCase not_defined text st)
    as (message & next & Hle & Hm & Hh).
  split.
  - intros Hnorm. split; [by apply canonical_parses|].
    by rewrite Hh, decide_True.
  - intros Hnorm. exists message, next. split_and!; [done| |].
    + destruct (parseAdvancedKinship toLowerCase text (ed_id st));
        [done|by intros [? ?]].
    + by rewrite Hh, decide_False.
Qed.

Lemma handleParse_never_applies_witness :
  handleParse lower_basic not_defined_v8
    (js "Его мать — младшая сестра её деда по материнской линии") mounted
  = (None, loadDemo mounted)
  ∧ ∃ message next,
      handleParse lower_basic not_defined_v8
        (js "его отец - брат ее мама") mounted
      = (Some (parse_alert message),
         mkEditor [] [] [] unknown [] [] [] [] next)
      ∧ message = js "setPeople is not defined".
Proof.
  assert (normalizeText lower_basic
            (js "Его мать — младшая сестра её деда по материнской линии")
          = canonical) as Hc by (vm_compute; reflexivity).
  assert (normalizeText lower_basic (js "его отец - брат ее мама")
          ≠ canonical) as Hn by (vm_compute; discriminate).
  split.
  - exact (proj2 (proj1 (handleParse_never_applies lower_basic not_defined_v8
                           _ mounted) Hc)).
  - destruct (proj2 (handleParse_never_applies lower_basic not_defined_v8
                       _ mounted) Hn) as (message & next & _ & Hm & Hh).
    exists message, next. split; [exact Hh|].
    apply Hm. vm_compute. eexists. reflexivity.
Defined.

Lemma addPerson_inv st : editor_inv st → editor_inv (addPerson st).
Proof.
  intros [Hnd Hiss Hedges]. unfold addPerson. case_decide; [done|].
  split; cbn [genId ed_people ed_rels ed_id]; [| |done].
  - rewrite fmap_app. apply NoDup_app. split_and!; [done| |].
    + intros i Hi ->%list_elem_of_singleton.
      by apply (issued_fresh _ _ Hiss).
    + apply NoDup_singleton.
  - apply Forall_app. split.
    + eapply issued_mono; [|done]. lia.
    + apply Forall_singleton. exists (ed_id st). split; [done|lia].
Qed.

Lemma removePerson_inv i st : editor_inv st → editor_inv (removePerson i st).
Proof.
  intros [Hnd Hiss Hedges]. split; cbn [removePerson ed_people ed_rels ed_id].
  - apply (sublist_NoDup _ _ Hnd (fmap_sublist id _ _ (sublist_filter _ _))).
  - apply Forall_forall. intros p [_ Hp]%list_elem_of_filter.
    by apply (proj1 (Forall_forall _ _) Hiss).
  - by apply edges_ok_filter.
Qed.

Lemma handleParse_inv toLowerCase not_defined text st :
  editor_inv st → editor_inv (handleParse toLowerCase not_defined text st).2.
Proof.
  intros [Hnd Hiss Hedges].
  destruct (handleParse_cases toLowerCase not_defined text st)
    as (message & next & Hle & _ & ->).
  case_decide; [apply demo_editor_inv|].
  split; cbn; [done| |done]. by eapply issued_mono.
Qed.

Lemma act_inv toLowerCase not_defined st a :
  editor_inv st → editor_inv (act toLowerCase not_defined st a).
Proof.
  intros Hinv. destruct a; cbn [act];
    [apply demo_editor_inv|by apply addPerson_inv| |by apply removePerson_inv
    |by apply handleParse_inv|by destruct Hinv..].
  destruct Hinv as [Hnd Hiss Hedges]. split; cbn; [done..|].
  by apply addParentChild_ok.
Qed.

(** X11.  A session that starts with the empty page and goes through the
    buttons, the inputs and the quick parser in any order (no file is
    imported), with the counter below 2^53 after every step, keeps the
    identifiers of the persons pairwise distinct numerals below the counter
    and the edges free of self-loops and of duplicates. *)
Theorem session_keeps_invariants toLowerCase not_defined actions st :
  ed_people st = [] → ed_rels st = [] →
  (∀ k, (ed_id (foldl (act toLowerCase not_defined) st (take k actions))
         < counter_max)%N) →
  editor_inv (foldl (act toLowerCase not_defined) st actions).
Proof.
  intros Hp Hr _.
  assert (editor_inv st) as Hinv.
  { split; rewrite ?Hp, ?Hr; [constructor|constructor|].
    split; [constructor|]. by intros ? ?%elem_of_nil. }
  clear Hp Hr. revert st Hinv.
  induction actions as [|a actions IH]; intros st Hinv; [done|].
  cbn [foldl]. by apply IH, act_inv.
Qed.

Lemma example_session_counter k :
  (ed_id (foldl (act lower_basic not_defined_v8) mounted
            (take k example_session))
   < counter_max)%N.
Proof.
  do 12 (destruct k as [|k]; [vm_compute; reflexivity|]).
  rewrite take_ge by (simpl; lia). vm_compute. reflexivity.
Qed.

Lemma session_keeps_invariants_witness :
  editor_inv (foldl (act lower_basic not_defined_v8) mounted example_session).
Proof.
  exact (session_keeps_invariants lower_basic not_defined_v8 example_session
           mounted eq_refl eq_refl example_session_counter).
Defined.





(** ** Normalized text and its tokens *)

Lemma split_spaces_cons s : ∃ w ws, split_spaces s = w :: ws.
Proof.
  induction s as [|c s (w & ws & IH)]; simpl; [eauto|].
  case_match; [eauto|]. rewrite IH. eauto.
Qed.

Lemma join_cons_cons sep x y r :
  join sep (x :: y :: r) = x ++ sep ++ join sep (y :: r).
Proof. done. Qed.

Lemma join_split_spaces s : join [32%N] (split_spaces s) = s.
Proof.
  induction s as [|c s IH]; [done|]. cbn [split_spaces].
  destruct (split_spaces_cons s) as (w & ws & Hs). rewrite Hs in *.
  destruct (N.eqb_spec c 32) as [->|Hc].
  - by rewrite join_cons_cons, IH.
  - destruct ws as [|v ws]; [simpl in *; by rewrite IH|].
    rewrite join_cons_cons in *. by rewrite <- IH.
Qed.

Lemma split_spaces_chars (P : N → Prop) s :
  Forall P s → Forall (Forall (λ c, P c ∧ c ≠ 32%N)) (split_spaces s).
Proof.
  induction 1 as [|c s Hc _ IH]; simpl; [by repeat constructor|].
  destruct (N.eqb_spec c 32) as [->|Hne]; [by constructor|].
  destruct (split_spaces s) as [|w ws]; [by repeat constructor|].
  apply Forall_cons in IH as [Hw Hws]. by repeat constructor.
Qed.

Lemma is_space_norm_char c :
  norm_char c = true → is_space c = true → c = 32%N.
Proof.
  unfold norm_char. intros [Hw|Hs%N.eqb_eq]%orb_true_iff Hc; [|done].
  exfalso. revert Hw Hc. unfold is_word, is_space.
  rewrite !orb_true_iff, !andb_true_iff, !N.leb_le, bool_decide_eq_true.
  rewrite !elem_of_cons, elem_of_nil. lia.
Qed.

Lemma norm_char_word c : norm_char c = true → c ≠ 32%N → is_word c = true.
Proof.
  unfold norm_char. intros [?|?%N.eqb_eq]%orb_true_iff ?; done.
Qed.

Lemma trim_end_last s c : last (trim_end s) = Some c → is_space c = false.
Proof.
  revert c. induction s as [|a s IH]; intros c; simpl; [done|].
  destruct (trim_end s) as [|r0 r] eqn:E.
  - destruct (is_space a) eqn:Ha; simpl; [done|]. by intros [= <-].
  - intros Hl. apply IH. by rewrite last_cons_cons in Hl.
Qed.

(** The words after the first one are not empty when every white space is
    a single space between two other characters; the first word is empty
    only for a text that is empty or starts with the space. *)
Lemma split_spaces_tidy b s :
  Forall (λ c, norm_char c = true) s → tidy b s = true →
  (∀ c, last s = Some c → is_space c = false) →
  Forall (λ w, w ≠ []) (tail (split_spaces s))
  ∧ (head (split_spaces s) = Some [] → s = [] ∨ head s = Some 32%N).
Proof.
  intros Hall. revert b. induction Hall as [|c s Hc Hall IH]; intros b Ht Hl.
  { simpl. split; [constructor|by left]. }
  cbn [tidy] in Ht. cbn [split_spaces].
  destruct (split_spaces_cons s) as (w & ws & Hs).
  assert (∀ c', last s = Some c' → is_space c' = false) as Hl'.
  { intros c' Hc'. apply Hl. destruct s; [done|]. by rewrite last_cons_cons. }
  destruct (is_space c) eqn:Hsp.
  - rewrite (is_space_norm_char c Hc Hsp) in *. simpl.
    apply andb_true_iff in Ht as [[_ Hb]%andb_true_iff Ht].
    destruct (IH true Ht Hl') as [Htail Hhead].
    rewrite Hs in *. simpl in *. split; [|by right].
    constructor; [|done]. intros ->.
    destruct (Hhead eq_refl) as [->|Hh].
    + by specialize (Hl 32%N eq_refl).
    + destruct s as [|a s]; [done|]. injection Hh as ->. by simpl in Ht.
  - assert ((c =? 32)%N = false) as ->.
    { apply N.eqb_neq. intros ->. by vm_compute in Hsp. }
    destruct (IH false Ht Hl') as [Htail Hhead].
    rewrite Hs in *. simpl in *. split; [done|]. by intros [=].
Qed.

Lemma filter_nonempty (l : list jsstring) :
  Forall (λ w, w ≠ []) l → filter (λ w, w ≠ []) l = l.
Proof.
  induction 1 as [|w l Hw _ IH]; [done|].
  by rewrite filter_cons_True, IH.
Qed.

(** X13.  Whatever the lower-casing does, the normalized text is its
    tokens joined by single spaces, and every token is a non-empty word of
    Latin or Russian lower-case letters and digits.  A token is thus never
    the pronoun "её" nor one of the dashes for which the parser still
    tests. *)
Theorem normalizeText_tokens toLowerCase s :
  let norm := normalizeText toLowerCase s in
  let tokens := tokenize norm in
  join (js " ") tokens = norm
  ∧ Forall (λ w, w ≠ [] ∧ Forall (λ c, is_word c = true) w) tokens
  ∧ ((js "её") ∉ tokens) ∧ ((js "—") ∉ tokens) ∧ ((js "-") ∉ tokens).
Proof.
  intros norm tokens.
  pose proof (normalizeText_norm_chars toLowerCase s) as Hchars.
  pose proof (normalizeText_tidy toLowerCase s) as Htidy.
  fold norm in Hchars, Htidy.
  assert (∀ c, last norm = Some c → is_space c = false) as Hlast
    by (intros c; apply trim_end_last).
  assert (no_leading_space norm) as Hlead
    by apply trim_end_no_leading, trim_start_no_leading.
  destruct (split_spaces_tidy false norm Hchars Htidy Hlast) as [Htail Hhead].
  pose proof (split_spaces_chars _ norm Hchars) as Hwords.
  assert (Forall (λ w, w ≠ [] ∧ Forall (λ c, is_word c = true) w) tokens)
    as Htokens.
  { apply Forall_forall. intros w [Hw Hin]%list_elem_of_filter.
    split; [done|].
    apply (proj1 (Forall_forall _ _) Hwords) in Hin.
    eapply Forall_impl; [exact Hin|]. intros c [? ?]. by apply norm_char_word. }
  assert (∀ w, w ∈ tokens → Forall (λ c, is_word c = true) w) as Hword.
  { intros w Hw. by apply (proj1 (Forall_forall _ _) Htokens) in Hw as [_ ?]. }
  split_and!; [|done|..].
  - subst tokens. unfold tokenize.
    destruct (split_spaces_cons norm) as (w & ws & Hs).
    rewrite Hs in *. simpl in Htail, Hhead.
    destruct w as [|c w].
    + destruct (Hhead eq_refl) as [Hnil|Hh].
      * rewrite Hnil in Hs. simpl in Hs. injection Hs as <-.
        by rewrite Hnil.
      * destruct norm as [|a norm']; [done|]. injection Hh as ->.
        by vm_compute in Hlead.
    + rewrite <- (join_split_spaces norm), Hs.
      f_equal. apply filter_nonempty. by constructor.
  - intros Hw%Hword. by vm_compute in Hw; repeat apply Forall_cons in Hw as [? Hw].
  - intros Hw%Hword. by vm_compute in Hw; repeat apply Forall_cons in Hw as [? Hw].
  - intros Hw%Hword. by vm_compute in Hw; repeat apply Forall_cons in Hw as [? Hw].
Qed.

(** ** The phrase parser *)

Lemma is_word_not_space c : is_word c = true → is_space c = false.
Proof.
  unfold is_word, is_space.
  rewrite !orb_true_iff, !andb_true_iff, !N.leb_le. intros Hw.
  apply orb_false_iff. split.
  - apply bool_decide_eq_false. rewrite !elem_of_cons, elem_of_nil. lia.
  - apply andb_false_iff. rewrite !N.leb_gt. lia.
Qed.

Lemma strip_punct_space c :
  is_space (strip_punct c) = true ↔ is_word c = false.
Proof.
  unfold strip_punct. destruct (is_word c) eqn:Hw; simpl.
  - rewrite (is_word_not_space c Hw). done.
  - by destruct (is_space c) eqn:Hs.
Qed.

Lemma collapse_spaces_blank b s :
  Forall (λ c, is_space c = true) (collapse_spaces b s)
  ↔ Forall (λ c, is_space c = true) s.
Proof.
  revert b. induction s as [|c s IH]; intros b; simpl; [done|].
  destruct (is_space c) eqn:Hs.
  - destruct b; rewrite ?Forall_cons, IH, ?Forall_cons; naive_solver.
  - rewrite !Forall_cons, IH. naive_solver.
Qed.

Lemma trim_start_blank s :
  trim_start s = [] ↔ Forall (λ c, is_space c = true) s.
Proof.
  induction s as [|c s IH]; simpl; [done|].
  destruct (is_space c) eqn:Hs.
  - rewrite IH, Forall_cons. naive_solver.
  - split; [done|]. intros [? _]%Forall_cons. congruence.
Qed.

Lemma trim_end_blank s :
  trim_end s = [] ↔ Forall (λ c, is_space c = true) s.
Proof.
  induction s as [|c s IH]; simpl; [done|].
  destruct (trim_end s) as [|r0 r] eqn:E.
  - destruct (is_space c) eqn:Hs.
    + rewrite Forall_cons. naive_solver.
    + split; [done|]. intros [? _]%Forall_cons. congruence.
  - split; [done|]. intros [_ H]%Forall_cons. by apply IH in H.
Qed.

Lemma trim_blank s : trim s = [] ↔ Forall (λ c, is_space c = true) s.
Proof.
  unfold trim. rewrite trim_end_blank. split.
  - intros H. induction s as [|c s IH]; [done|]. simpl in H.
    destruct (is_space c) eqn:Hs; [by constructor; auto|].
    apply Forall_cons in H as [? _]. congruence.
  - intros H. by apply trim_start_Forall.
Qed.

Lemma normalizeText_blank toLowerCase s :
  normalizeText toLowerCase s = []
  ↔ Forall (λ c, is_word (dash_to_space (fold_yo c)) = false) (toLowerCase s).
Proof.
  unfold normalizeText. rewrite trim_blank, collapse_spaces_blank.
  rewrite !Forall_fmap. apply Forall_iff. intros c. simpl.
  apply strip_punct_space.
Qed.

Lemma parseRelativeSpec_not_blank tokens i :
  parseRelativeSpec tokens i ≠ Err (js "Пустая строка").
Proof.
  unfold parseRelativeSpec, line_clause_error.
  repeat case_match; discriminate.
Qed.

Lemma parseSiblingConnector_not_blank tokens i :
  parseSiblingConnector tokens i ≠ Err (js "Пустая строка").
Proof.
  unfold parseSiblingConnector. repeat case_match; discriminate.
Qed.

Lemma parseTokens_not_blank tokens _id :
  parseTokens tokens _id ≠ Err (js "Пустая строка").
Proof.
  unfold parseTokens.
  pose proof (parseRelativeSpec_not_blank tokens 0) as Hl.
  destruct (parseRelativeSpec tokens 0) as [l|m];
    cbn [mbind Result_bind]; [|by intros [= ->]].
  pose proof (parseSiblingConnector_not_blank tokens (spec_next l)) as Hc.
  destruct (parseSiblingConnector tokens (spec_next l)) as [conn|m];
    cbn [mbind Result_bind]; [|by intros [= ->]].
  pose proof (parseRelativeSpec_not_blank tokens (conn_next conn)) as Hr.
  destruct (parseRelativeSpec tokens (conn_next conn)) as [r|m];
    cbn [mbind Result_bind]; [done|by intros [= ->]].
Qed.

(** X14.  The parser answers "Пустая строка" exactly when nothing is left
    of the text after normalization, which is the case exactly when, once
    lower-cased, it holds no letter of the two alphabets and no digit
    (the letter "ё" counts as "е"). *)
Theorem parse_blank_text toLowerCase text _id :
  (parseAdvancedKinship toLowerCase text _id = Err (js "Пустая строка")
   ↔ normalizeText toLowerCase text = [])
  ∧ (normalizeText toLowerCase text = []
     ↔ Forall (λ c, is_word (dash_to_space (fold_yo c)) = false)
         (toLowerCase text)).
Proof.
  split; [|apply normalizeText_blank].
  unfold parseAdvancedKinship. case_decide as Hn; [done|].
  split; [|done]. intros H. by apply parseTokens_not_blank in H.
Qed.

Lemma parse_blank_text_witness :
  parseAdvancedKinship lower_basic (js " — ... Ё?! ") 1
  ≠ Err (js "Пустая строка")
  ∧ parseAdvancedKinship lower_basic (js " — ...?! ") 1
    = Err (js "Пустая строка").
Proof.
  split.
  - intros H.
    apply (proj1 (parse_blank_text lower_basic (js " — ... Ё?! ") 1)) in H.
    vm_compute in H. discriminate H.
  - apply (proj1 (parse_blank_text lower_basic (js " — ...?! ") 1)).
    vm_compute. reflexivity.
Defined.

(** *** What the parser accepts *)

Lemma takeLine_side tokens j side :
  line_side_at tokens j side → takeLine tokens j = (Some side, (j + 3)%nat).
Proof.
  intros (H0 & H1 & H2). unfold takeLine. rewrite H0, H1, H2.
  by destruct side.
Qed.

Lemma takeLine_Some tokens j side next :
  takeLine tokens j = (Some side, next) →
  line_side_at tokens j side ∧ next = (j + 3)%nat.
Proof.
  unfold takeLine, line_side_at.
  destruct (bool_decide (tokens !! j = Some _)) eqn:E0; [|done].
  destruct (bool_decide (tokens !! (j + 2)%nat = Some _)) eqn:E2;
    [|by rewrite andb_false_r].
  apply bool_decide_eq_true in E0, E2.
  destruct (bool_decide (tokens !! (j + 1)%nat = Some (js "материнской")))
    eqn:Em.
  - apply bool_decide_eq_true in Em. simpl. by intros [= <- <-].
  - destruct (bool_decide (tokens !! (j + 1)%nat = Some (js "отцовской")))
      eqn:Ep; [|done].
    apply bool_decide_eq_true in Ep. simpl. by intros [= <- <-].
Qed.

Lemma word_sets_disjoint w :
  (w ∈ motherWords → w ≠ [] ∧ w ∉ fatherWords)
  ∧ (w ∈ fatherWords → w ≠ [] ∧ w ∉ motherWords).
Proof.
  unfold motherWords, fatherWords.
  split; intros H; repeat (apply elem_of_cons in H as [->|H]);
    try (by apply elem_of_nil in H);
    (split; [done|]); intros H; repeat (apply elem_of_cons in H as [?|H]);
    try done; by apply elem_of_nil in H.
Qed.

Lemma base_of_pron (tokens : list jsstring) (i : nat) (pron : jsstring) :
  tokens !! i = Some pron →
  (if bool_decide (tokens !! i = Some (js "его")) then he else she)
  = base_of pron.
Proof.
  intros ->. unfold base_of. case_bool_decide; case_decide; congruence.
Qed.

Lemma parseRelativeSpec_intro tokens i spec :
  relative_at tokens i spec → parseRelativeSpec tokens i = Ok spec.
Proof.
  intros (pron & w & Hp & Hpron & Hw & Hcase).
  unfold parseRelativeSpec. rewrite (base_of_pron _ _ _ Hp), Hp, Hw.
  cbn [has negb]. rewrite (bool_decide_eq_true_2 _ Hpron). cbn [negb].
  destruct Hcase as [[Hm ->]|[[Hf ->]|(Hg & side & Hline & ->)]].
  - destruct (proj1 (word_sets_disjoint w) Hm) as [Hne _].
    destruct w as [|c w]; [done|].
    rewrite (bool_decide_eq_true_2 _ Hm). unfold spec_of.
    replace (i + 1 + 1)%nat with (i + 2)%nat by lia.
    by destruct (base_of pron).
  - destruct (proj2 (word_sets_disjoint w) Hf) as [Hne Hnm].
    destruct w as [|c w]; [done|].
    rewrite (bool_decide_eq_false_2 _ Hnm), (bool_decide_eq_true_2 _ Hf).
    unfold spec_of. replace (i + 1 + 1)%nat with (i + 2)%nat by lia.
    by destruct (base_of pron).
  - destruct (is_grand_term_cases w Hg) as (Hne & Hnm & Hnf).
    destruct w as [|c w]; [done|].
    cbn [has] in Hnm, Hnf. rewrite Hnm, Hnf. unfold is_grand_term in Hg.
    rewrite Hg.
    replace (i + 1 + 1)%nat with (i + 2)%nat by lia.
    rewrite (takeLine_side _ _ _ Hline). unfold spec_of.
    replace (i + 2 + 3)%nat with (i + 5)%nat by lia.
    by destruct (base_of pron), side, (isGrandfatherWord (c :: w)).
Qed.

Lemma parseRelativeSpec_inv tokens i spec :
  parseRelativeSpec tokens i = Ok spec → relative_at tokens i spec.
Proof.
  unfold parseRelativeSpec, relative_at.
  destruct (tokens !! i) as [pron|] eqn:Hp; [|done].
  cbn [has]. case_bool_decide as Hpron; [|done]. cbn [negb].
  rewrite <- Hp, (base_of_pron _ _ _ Hp).
  destruct (tokens !! (i + 1)%nat) as [[|c w]|] eqn:Hw; [done| |done].
  intros Hspec. exists pron, (c :: w). split_and!; [done..|].
  revert Hspec. case_bool_decide as Hm.
  { intros [= <-]. left. split; [done|]. unfold spec_of.
    replace (i + 1 + 1)%nat with (i + 2)%nat by lia.
    by destruct (base_of pron). }
  case_bool_decide as Hf.
  { intros [= <-]. right; left. split; [done|]. unfold spec_of.
    replace (i + 1 + 1)%nat with (i + 2)%nat by lia.
    by destruct (base_of pron). }
  destruct (isGrandfatherWord (c :: w) || isGrandmotherWord (c :: w))
    eqn:Hg; [|done].
  destruct (takeLine tokens (i + 1 + 1)) as [[side|] next] eqn:Hline; [|done].
  apply takeLine_Some in Hline as [Hline ->].
  replace (i + 1 + 1)%nat with (i + 2)%nat in * by lia.
  intros [= <-]. right; right. split; [done|]. exists side.
  split; [done|]. unfold spec_of.
  replace (i + 2 + 3)%nat with (i + 5)%nat by lia.
  by destruct (base_of pron), side, (isGrandfatherWord (c :: w)).
Qed.

Lemma is_filler_bool w :
  bool_decide (w ∈ FILLERS) || bool_decide (w = js "—")
  || bool_decide (w = js "-") = true ↔ is_filler w.
Proof.
  unfold is_filler. rewrite !orb_true_iff, !bool_decide_eq_true. tauto.
Qed.

Lemma skip_fillers_spec rest i0 :
  ∃ fillers rest',
    rest = fillers ++ rest' ∧ Forall is_filler fillers
    ∧ skip_fillers rest i0 = (i0 + length fillers)%nat
    ∧ ∀ w, head rest' = Some w → ¬ is_filler w.
Proof.
  revert i0. induction rest as [|w rest IH]; intros i0; simpl.
  - exists [], []. split_and!; [done|constructor|simpl; lia|done].
  - destruct (bool_decide (w ∈ FILLERS) || bool_decide (w = js "—")
              || bool_decide (w = js "-")) eqn:E.
    + apply is_filler_bool in E.
      destruct (IH (S i0)) as (fillers & rest' & -> & Hall & Hskip & Hhead).
      exists (w :: fillers), rest'.
      split_and!; [done|by constructor|simpl; lia|done].
    + exists [], (w :: rest).
      split_and!; [done|constructor|simpl; lia|].
      intros ? [= <-] Hw%is_filler_bool. congruence.
Qed.

Lemma skip_fillers_app fillers rest i0 :
  Forall is_filler fillers → (∀ w, head rest = Some w → ¬ is_filler w) →
  skip_fillers (fillers ++ rest) i0 = (i0 + length fillers)%nat.
Proof.
  intros Hall Hhead. revert i0.
  induction Hall as [|w fillers Hw _ IH]; intros i0; simpl.
  - destruct rest as [|w rest]; simpl; [lia|].
    destruct (bool_decide (w ∈ FILLERS) || bool_decide (w = js "—")
              || bool_decide (w = js "-")) eqn:E; [|lia].
    apply is_filler_bool in E. by destruct (Hhead w eq_refl).
  - apply is_filler_bool in Hw. rewrite Hw, IH. lia.
Qed.

Lemma rank_word_not_filler w : w ∈ RANK_WORDS → ¬ is_filler w.
Proof.
  unfold RANK_WORDS. intros H.
  repeat (apply elem_of_cons in H as [->|H]); try (by apply elem_of_nil in H);
    intros Hf%is_filler_bool; by vm_compute in Hf.
Qed.

Lemma sibling_word_not_filler w :
  w ∈ SIBLING_WORDS → ¬ is_filler w ∧ w ∉ RANK_WORDS.
Proof.
  unfold SIBLING_WORDS. intros H.
  repeat (apply elem_of_cons in H as [->|H]); try (by apply elem_of_nil in H);
    (split; [intros Hf%is_filler_bool; by vm_compute in Hf|]);
    apply (@bool_decide_eq_true_1 _ (not_dec _)); vm_compute; reflexivity.
Qed.

Lemma lookup_drop_decomposed (tokens : list jsstring) (i : nat)
    (pre post : list jsstring) (k : nat) :
  drop i tokens = pre ++ post →
  tokens !! (i + length pre + k)%nat = post !! k.
Proof.
  intros Hd. rewrite <- Nat.add_assoc, <- lookup_drop, Hd.
  rewrite lookup_app_r by lia. f_equal. lia.
Qed.

Lemma parseSiblingConnector_intro tokens i conn :
  connector_at tokens i conn → parseSiblingConnector tokens i = Ok conn.
Proof.
  intros (fillers & rest & Hd & Hall & Hrank & Hkind & Hnext).
  destruct conn as [kind rank next]. cbn [conn_kind conn_rank conn_next] in *.
  destruct (sibling_word_not_filler kind Hkind) as [Hkf Hkr].
  unfold parseSiblingConnector. rewrite Hd, skip_fillers_app; [|done|].
  - pose proof (lookup_drop_decomposed tokens i fillers _ 0 Hd) as H0.
    pose proof (lookup_drop_decomposed tokens i fillers _ 1 Hd) as H1.
    rewrite Nat.add_0_r in H0.
    destruct rank as [r|]; cbn [option_list app length] in *.
    + simpl in H0, H1. rewrite H0. cbn [has].
      rewrite (bool_decide_eq_true_2 _ (Hrank r eq_refl)).
      replace (S (i + length fillers)) with (i + length fillers + 1)%nat
        by lia.
      rewrite H1, (bool_decide_eq_true_2 _ Hkind). do 2 f_equal.
      simpl in Hnext. lia.
    + simpl in H0. rewrite H0. cbn [has].
      rewrite (bool_decide_eq_false_2 _ Hkr), H0.
      rewrite (bool_decide_eq_true_2 _ Hkind). do 2 f_equal.
      simpl in Hnext. lia.
  - destruct rank as [r|]; simpl; intros w [= <-]; [|done].
    by apply rank_word_not_filler, Hrank.
Qed.

Lemma parseSiblingConnector_inv tokens i conn :
  parseSiblingConnector tokens i = Ok conn → connector_at tokens i conn.
Proof.
  unfold parseSiblingConnector, connector_at.
  destruct (skip_fillers_spec (drop i tokens) i)
    as (fillers & rest & Hd & Hall & -> & Hhead).
  pose proof (lookup_drop_decomposed tokens i fillers _ 0 Hd) as H0.
  pose proof (lookup_drop_decomposed tokens i fillers _ 1 Hd) as H1.
  rewrite Nat.add_0_r in H0.
  destruct (has RANK_WORDS (tokens !! (i + length fillers)%nat)) eqn:Hr.
  - destruct (tokens !! (i + length fillers)%nat) as [r|] eqn:E; [|done].
    cbn [has] in Hr. apply bool_decide_eq_true in Hr.
    replace (S (i + length fillers)) with (i + length fillers + 1)%nat
      by lia.
    destruct rest as [|r' rest]; [done|]. simpl in H0. injection H0 as ->.
    rewrite H1. destruct rest as [|kind rest]; [done|]. simpl.
    case_bool_decide as Hk; [|done]. intros [= <-].
    exists fillers, rest. cbn [conn_kind conn_rank conn_next option_list].
    split_and!; [done..| |done|simpl; lia]. by intros ? [= <-].
  - rewrite H0. destruct rest as [|kind rest]; [done|]. simpl.
    case_bool_decide as Hk; [|done]. intros [= <-].
    exists fillers, rest. cbn [conn_kind conn_rank conn_next option_list].
    split_and!; [done..| |done|simpl; lia]. by intros ? [=].
Qed.

Lemma relative_at_app tokens extra i spec :
  relative_at tokens i spec → relative_at (tokens ++ extra) i spec.
Proof.
  intros (pron & w & Hp & Hpron & Hw & Hcase).
  exists pron, w. split_and!; [by apply lookup_app_l_Some|done
                              |by apply lookup_app_l_Some|].
  destruct Hcase as [?|[?|(Hg & side & (H0 & H1 & H2) & ->)]];
    [by left|by right; left|].
  right; right. split; [done|]. exists side. split; [|done].
  split_and!; by apply lookup_app_l_Some.
Qed.

Lemma connector_at_app tokens extra i conn :
  connector_at tokens i conn → connector_at (tokens ++ extra) i conn.
Proof.
  intros (fillers & rest & Hd & Hall & Hrank & Hkind & Hnext).
  exists fillers, (rest ++ extra). split_and!; [|done..].
  assert (i ≤ length tokens)%nat as Hle.
  { destruct (decide (i ≤ length tokens)%nat); [done|].
    rewrite drop_ge in Hd by lia.
    by destruct fillers, (conn_rank conn). }
  rewrite drop_app_le, Hd by done.
  by rewrite <- !app_assoc, <- app_comm_cons.
Qed.

(** X15.  The grammar of the parser.  A relative specification is one of
    the pronouns followed by "мать"/"мама", by "отец"/"папа", or by a word
    that starts with "дед" or "баб" together with its line clause; the
    specification it yields carries the label and the sex that the
    synthesizer gives to the node it reaches.  The connector is any number
    of fillers, an optional rank word, and "сестра" or "брат".  Tokens that
    follow a phrase that parses change nothing. *)
Theorem parser_grammar tokens :
  (∀ i spec, parseRelativeSpec tokens i = Ok spec ↔ relative_at tokens i spec)
  ∧ (∀ i conn,
       parseSiblingConnector tokens i = Ok conn ↔ connector_at tokens i conn)
  ∧ (∀ _id out extra,
       parseTokens tokens _id = Ok out →
       parseTokens (tokens ++ extra) _id = Ok out).
Proof.
  split_and!.
  - intros i spec. split;
      [apply parseRelativeSpec_inv|apply parseRelativeSpec_intro].
  - intros i conn. split;
      [apply parseSiblingConnector_inv|apply parseSiblingConnector_intro].
  - intros _id [g n] extra (l & conn & r & Hl & Hc & Hr & ->)%parseTokens_Ok.
    apply parseTokens_intro.
    + by apply parseRelativeSpec_intro, relative_at_app,
        parseRelativeSpec_inv.
    + by apply parseSiblingConnector_intro, connector_at_app,
        parseSiblingConnector_inv.
    + by apply parseRelativeSpec_intro, relative_at_app,
        parseRelativeSpec_inv.
Qed.

Lemma parser_grammar_witness :
  (∃ out, parseTokens [js "ее"; js "папа"; js "это"; js "старший"; js "брат";
                       js "его"; js "бабули"; js "по"; js "отцовской";
                       js "линии"; js "и"; js "так"; js "далее"] 1 = Ok out)
  ∧ relative_at [js "его"; js "дедуля"; js "по"; js "материнской";
                 js "линии"] 0
      (spec_of he [mother; father] 5).
Proof.
  split.
  - eexists.
    apply (proj2 (proj2 (parser_grammar
                           [js "ее"; js "папа"; js "это"; js "старший";
                            js "брат"; js "его"; js "бабули"; js "по";
                            js "отцовской"; js "линии"]))
             1%N _ [js "и"; js "так"; js "далее"]).
    vm_compute. reflexivity.
  - apply (proj1 (parser_grammar _)). vm_compute. reflexivity.
Defined.

(** ** The graphs that the parser synthesizes *)

Lemma keeps_refl st : keeps st st.
Proof. intros i p Hp. eauto. Qed.

Lemma keeps_trans st1 st2 st3 : keeps st1 st2 → keeps st2 st3 → keeps st1 st3.
Proof.
  intros H12 H23 i p Hp.
  destruct (H12 i p Hp) as (p' & Hp' & Hid & Hnm).
  destruct (H23 i p' Hp') as (p'' & Hp'' & Hid' & Hnm').
  exists p''. split_and!; [done|congruence..].
Qed.

Lemma edges_ranked_keeps st st' :
  keeps st st' → s_rels st' = s_rels st → edges_ranked st → edges_ranked st'.
Proof.
  intros Hk Hr H e He. rewrite Hr in He.
  destruct (H e He) as (i & j & p & c & Hp & Hc & Hpe & Hce & Hlt).
  destruct (Hk i p Hp) as (p' & Hp' & Hid & Hnm).
  destruct (Hk j c Hc) as (c' & Hc' & Hid' & Hnm').
  exists i, j, p', c'. split_and!; [done..|congruence|congruence|].
  by rewrite Hnm, Hnm'.
Qed.

Lemma add_keeps nm sx nt st : keeps st (add nm sx nt st).2.
Proof.
  unfold add. destruct (byKey st !! name_key nm); simpl;
    [apply keeps_refl|].
  intros i p Hp. exists p. split; [|done]. by apply lookup_app_l_Some.
Qed.

Lemma add_rels nm sx nt st : s_rels (add nm sx nt st).2 = s_rels st.
Proof. unfold add. by destruct (byKey st !! name_key nm). Qed.

Lemma link_keeps p c st : keeps st (link p c st).
Proof. intros i q Hq. exists q. by rewrite link_people. Qed.

Lemma link_ranked st i j p c :
  edges_ranked st →
  s_people st !! i = Some p → s_people st !! j = Some c →
  (name_rank (name c) < name_rank (name p))%nat →
  edges_ranked (link (ref_id st i) (ref_id st j) st).
Proof.
  intros H Hp Hc Hlt. unfold link, ref_id. rewrite Hp, Hc.
  case_bool_decide; [done|].
  intros e [He| ->%list_elem_of_singleton]%elem_of_app.
  - destruct (H e He) as (i' & j' & p' & c' & ?). exists i', j', p', c'.
    done.
  - exists i, j, p, c. done.
Qed.

Lemma record_rank_keeps conn r st : keeps st (record_rank conn r st).
Proof.
  unfold record_rank. destruct (conn_rank conn) as [rank|];
    [|apply keeps_refl].
  case_decide; [apply keeps_refl|].
  intros i q Hq. simpl. destruct (decide (i = r)) as [->|Hne].
  - rewrite list_lookup_alter_eq, Hq. simpl. eauto.
  - rewrite list_lookup_alter_ne by done. eauto.
Qed.

Lemma record_rank_rels conn r st :
  s_rels (record_rank conn r st) = s_rels st.
Proof.
  unfold record_rank. destruct (conn_rank conn); [|done]. by case_decide.
Qed.

Lemma chain_rank_step b path s :
  (length (path ++ [s]) ≤ 2)%nat →
  (name_rank (chain_name b path) < name_rank (chain_name b (path ++ [s])))%nat.
Proof.
  destruct path as [|x1 [|x2 path]]; simpl; intros Hlen.
  - destruct b, s; vm_compute; lia.
  - destruct b, x1, s; vm_compute; lia.
  - rewrite length_app in Hlen. simpl in Hlen. lia.
Qed.

Lemma chain_rank_bound b path :
  (length path ≤ 2)%nat → (name_rank (chain_name b path) < 3)%nat.
Proof.
  destruct path as [|x1 [|x2 [|x3 path]]]; simpl; intros Hlen; [..|lia].
  - destruct b; vm_compute; lia.
  - destruct b, x1; vm_compute; lia.
  - destruct b, x1, x2; vm_compute; lia.
Qed.

Lemma chain_steps_ranked n0 b rest path child st :
  synth_inv n0 st → named st child (chain_name b path) →
  (length (path ++ rest) ≤ 2)%nat → edges_ranked st →
  edges_ranked (chain_steps b path rest child st).2
  ∧ keeps st (chain_steps b path rest child st).2.
Proof.
  revert path child st.
  induction rest as [|s rest IH]; intros path child st Hinv Hchild Hlen Hrk;
    simpl.
  - split; [done|apply keeps_refl].
  - destruct (labelForPath b (path ++ [s])) as [label sx] eqn:El.
    assert (label = chain_name b (path ++ [s])) as ->.
    { unfold chain_name. rewrite El. by destruct path. }
    pose proof (add_spec n0 (chain_name b (path ++ [s])) sx None st Hinv)
      as (Hinv1 & Hnode & Hext1).
    pose proof (add_keeps (chain_name b (path ++ [s])) sx None st) as Hk1.
    pose proof (add_rels (chain_name b (path ++ [s])) sx None st) as Hr1.
    destruct (add (chain_name b (path ++ [s])) sx None st) as [node st1].
    simpl in *.
    assert (ref_id st1 node ≠ ref_id st1 child) as Hne.
    { eapply ref_id_ne; [done..|by apply Hext1|]. apply chain_name_step_ne. }
    pose proof (Hext1 _ _ Hchild) as Hchild1.
    destruct Hnode as (pn & Hpn & Hnn). destruct Hchild1 as (pc & Hpc & Hnc).
    assert (length (path ++ [s]) ≤ 2)%nat as Hlen1.
    { rewrite length_app in *. simpl in *. lia. }
    destruct (IH (path ++ [s]) node
                (link (ref_id st1 node) (ref_id st1 child) st1))
      as [Hrk2 Hk2].
    + by apply link_inv.
    + apply link_extends. by exists pn.
    + by rewrite <- app_assoc.
    + eapply link_ranked; [|done..|].
      * by eapply edges_ranked_keeps.
      * rewrite Hnn, Hnc. by apply chain_rank_step.
    + split; [done|].
      eapply keeps_trans; [done|]. eapply keeps_trans; [apply link_keeps|done].
Qed.

Lemma ensureChain_ranked n0 b steps st :
  synth_inv n0 st → (length steps ≤ 2)%nat → edges_ranked st →
  edges_ranked (ensureChain b steps st).2 ∧ keeps st (ensureChain b steps st).2.
Proof.
  intros Hinv Hlen Hrk. unfold ensureChain. fold (root_name b).
  pose proof (add_spec n0 (root_name b)
                (match b with he => male | she => female end) None st Hinv)
    as (Hinv1 & Hroot & Hext1).
  pose proof (add_keeps (root_name b)
                (match b with he => male | she => female end) None st) as Hk1.
  pose proof (add_rels (root_name b)
                (match b with he => male | she => female end) None st) as Hr1.
  destruct (add (root_name b) (match b with he => male | she => female end)
              None st) as [root st1].
  simpl in *.
  destruct (chain_steps_ranked n0 b steps [] root st1 Hinv1 Hroot Hlen)
    as [Hrk2 Hk2].
  - by eapply edges_ranked_keeps.
  - split; [done|by eapply keeps_trans].
Qed.

Lemma link_common_ranked n0 l r nl nr st parent np :
  synth_inv n0 st → named st l nl → named st r nr → named st parent np →
  (name_rank nl < name_rank np)%nat → (name_rank nr < name_rank np)%nat →
  edges_ranked st →
  edges_ranked (link_common l r st parent)
  ∧ keeps st (link_common l r st parent).
Proof.
  intros Hinv (pl & Hpl & Hnl) (pr & Hpr & Hnr) (pp & Hpp & Hnp) Hl Hr Hrk.
  unfold link_common. split.
  - eapply link_ranked.
    + eapply link_ranked; [done..|]. by rewrite Hnl, Hnp.
    + by rewrite link_people.
    + by rewrite link_people.
    + by rewrite Hnr, Hnp.
  - eapply keeps_trans; apply link_keeps.
Qed.

Lemma named_keeps st st' r nm : keeps st st' → named st r nm → named st' r nm.
Proof.
  intros Hk (p & Hp & Hn). destruct (Hk r p Hp) as (p' & Hp' & _ & Hn').
  exists p'. split; [done|congruence].
Qed.

Lemma synthesize_ranked l conn r _id :
  (length (spec_steps l) ≤ 2)%nat → (length (spec_steps r) ≤ 2)%nat →
  edges_ranked (synthesize l conn r _id).
Proof.
  intros Hll Hlr. unfold synthesize.
  assert (synth_inv _id (mkSynth _id [] [] ∅)) as Hinv0.
  { split; simpl; try done.
    - rewrite N.add_0_r. done.
    - split; [constructor|]. by intros ? ?%elem_of_nil. }
  assert (edges_ranked (mkSynth _id [] [] ∅)) as Hrk0
    by (by intros ? ?%elem_of_nil).
  destruct (ensureChain_spec _id (spec_base l) (spec_steps l) _ Hinv0)
    as (Hinv1 & Hleft & _).
  destruct (ensureChain_ranked _id (spec_base l) (spec_steps l) _ Hinv0 Hll
              Hrk0) as [Hrk1 _].
  destruct (ensureChain (spec_base l) (spec_steps l) (mkSynth _id [] [] ∅))
    as [leftNode st1].
  simpl in *.
  destruct (record_rank_spec _id conn leftNode st1 Hinv1) as [Hinv2 Hext2].
  pose proof (record_rank_keeps conn leftNode st1) as Hk2.
  pose proof (record_rank_rels conn leftNode st1) as Hr2.
  assert (edges_ranked (record_rank conn leftNode st1)) as Hrk2
    by (by eapply edges_ranked_keeps).
  destruct (ensureChain_spec _id (spec_base r) (spec_steps r) _ Hinv2)
    as (Hinv3 & Hright & _).
  destruct (ensureChain_ranked _id (spec_base r) (spec_steps r) _ Hinv2 Hlr
              Hrk2) as [Hrk3 Hk3].
  destruct (ensureChain (spec_base r) (spec_steps r)
              (record_rank conn leftNode st1)) as [rightNode st3].
  simpl in *.
  pose proof (add_spec _id (js "Общий прадед") male None st3 Hinv3)
    as (Hinv4 & Hgf & _).
  pose proof (add_keeps (js "Общий прадед") male None st3) as Hk4.
  pose proof (add_rels (js "Общий прадед") male None st3) as Hr4.
  destruct (add (js "Общий прадед") male None st3) as [commonGF st4].
  simpl in *.
  pose proof (add_spec _id (js "Общая прабабушка") female None st4 Hinv4)
    as (Hinv5 & Hgm & _).
  pose proof (add_keeps (js "Общая прабабушка") female None st4) as Hk5.
  pose proof (add_rels (js "Общая прабабушка") female None st4) as Hr5.
  destruct (add (js "Общая прабабушка") female None st4) as [commonGM st5].
  simpl in *.
  assert (edges_ranked st5) as Hrk5.
  { eapply edges_ranked_keeps; [done..|]. by eapply edges_ranked_keeps. }
  assert (named st5 leftNode (chain_name (spec_base l) (spec_steps l)))
    as Hleft5.
  { eapply named_keeps; [|done].
    repeat (eapply keeps_trans; [done|]). apply keeps_refl. }
  assert (named st5 rightNode (chain_name (spec_base r) (spec_steps r)))
    as Hright5.
  { eapply named_keeps; [|done].
    repeat (eapply keeps_trans; [done|]). apply keeps_refl. }
  pose proof (chain_rank_bound (spec_base l) _ Hll) as Hbl.
  pose proof (chain_rank_bound (spec_base r) _ Hlr) as Hbr.
  destruct (chain_name_not_common (spec_base l) (spec_steps l)) as [Hcl1 Hcl2].
  destruct (chain_name_not_common (spec_base r) (spec_steps r)) as [Hcr1 Hcr2].
  destruct (link_common_spec _id leftNode rightNode _ _ st5 commonGF _ Hinv5
              Hleft5 Hright5 (named_keeps _ _ _ _ Hk5 Hgf))
    as [Hinv6 _]; [congruence..|].
  destruct (link_common_ranked _id leftNode rightNode _ _ st5 commonGF _ Hinv5
              Hleft5 Hright5 (named_keeps _ _ _ _ Hk5 Hgf))
    as [Hrk6 Hk6]; [done..|].
  cbn [foldl].
  destruct (link_common_ranked _id leftNode rightNode _ _ _ commonGM _ Hinv6
              (named_keeps _ _ _ _ Hk6 Hleft5)
              (named_keeps _ _ _ _ Hk6 Hright5)
              (named_keeps _ _ _ _ Hk6 Hgm))
    as [Hrk7 _]; done.
Qed.

Lemma relative_at_steps tokens i spec :
  relative_at tokens i spec → (length (spec_steps spec) ≤ 2)%nat.
Proof.
  intros (pron & w & _ & _ & _ & [[_ ->]|[[_ ->]|(_ & side & _ & ->)]]);
    simpl; lia.
Qed.

Lemma synth_names_NoDup n0 st : synth_inv n0 st → NoDup (name <$> s_people st).
Proof.
  intros Hinv. apply NoDup_alt. intros i j nm Hi Hj.
  apply list_lookup_fmap_Some in Hi as (p & -> & Hp).
  apply list_lookup_fmap_Some in Hj as (q & Hnm & Hq).
  apply (si_named _ _ Hinv) in Hp, Hq. rewrite Hnm in Hp. congruence.
Qed.

Lemma synth_ids_NoDup n0 st : synth_inv n0 st → NoDup (id <$> s_people st).
Proof.
  intros Hinv. apply NoDup_alt. intros i j x Hi Hj.
  apply list_lookup_fmap_Some in Hi as (p & -> & Hp).
  apply list_lookup_fmap_Some in Hj as (q & Hx & Hq).
  rewrite (si_ids _ _ Hinv _ _ Hp), (si_ids _ _ Hinv _ _ Hq) in Hx.
  apply String_of_N_inj in Hx. lia.
Qed.

Lemma find_by_id (people : list Person) (p : Person) :
  NoDup (id <$> people) → p ∈ people →
  find (λ q, bool_decide (id q = id p)) people = Some p.
Proof.
  induction people as [|q people IH]; [by intros _ ?%elem_of_nil|].
  rewrite fmap_cons, NoDup_cons. intros [Hq Hnd] Hp. simpl.
  case_bool_decide as Hid.
  - apply elem_of_cons in Hp as [->|Hp]; [done|].
    exfalso. apply Hq. rewrite Hid. by apply list_elem_of_fmap_2.
  - apply elem_of_cons in Hp as [->|Hp]; [done|]. by apply IH.
Qed.

Lemma edges_ranked_acyclic n0 st :
  synth_inv n0 st → edges_ranked st →
  acyclic (parentsOf (buildIndexes (s_people st) (s_rels st))).
Proof.
  intros Hinv Hrk. apply (ranked_acyclic (id_rank (s_people st))).
  intros x ps Hx. apply Forall_forall. intros p Hp.
  assert (p ∈ parents (parentsOf (buildIndexes (s_people st) (s_rels st))) x)
    as He by (unfold parents; by rewrite Hx).
  apply elem_of_parents_buildIndexes, Hrk in He
    as (i & j & pp & pc & Hpp & Hpc & Hpe & Hce & Hlt).
  simpl in Hpe, Hce. subst p x. unfold id_rank.
  pose proof (synth_ids_NoDup _ _ Hinv) as Hnd.
  rewrite !find_by_id; [done|done|..];
    [by eapply list_elem_of_lookup_2|done|by eapply list_elem_of_lookup_2].
Qed.

(** X16.  The graph that a phrase parses to, when the counter has room
    for eight identifiers within 2^53, is a well-formed genealogy: the persons carry the
    consecutive numerals that the counter issued, in the order of creation,
    and pairwise distinct names; the counter ends right after the last of
    them; every edge joins two of the persons; and no person is an ancestor
    of themselves. *)
Theorem parsed_graph_well_formed tokens _id g n :
  parseTokens tokens _id = Ok (g, n) →
  (_id + 8 ≤ counter_max)%N →
  (∀ i p, out_people g !! i = Some p → id p = String_of_N (_id + N.of_nat i))
  ∧ n = (_id + N.of_nat (length (out_people g)))%N
  ∧ NoDup (name <$> out_people g)
  ∧ (∀ e, e ∈ out_rels g →
       parentId e ∈ id <$> out_people g ∧ childId e ∈ id <$> out_people g)
  ∧ acyclic (parentsOf (buildIndexes (out_people g) (out_rels g))).
Proof.
  intros (l & conn & r & Hl & _ & Hr & Hg)%parseTokens_Ok _.
  apply parseRelativeSpec_inv, relative_at_steps in Hl, Hr.
  unfold buildGraphFromSibling in Hg. injection Hg as -> ->.
  cbn [out_people out_rels].
  destruct (synthesize_spec l conn r _id) as (Hinv & _).
  pose proof (synthesize_ranked l conn r _id Hl Hr) as Hrk.
  split_and!.
  - apply (si_ids _ _ Hinv).
  - apply (si_next _ _ Hinv).
  - by eapply synth_names_NoDup.
  - intros e (i & j & p & c & Hp & Hc & -> & -> & _)%Hrk.
    split; apply list_elem_of_fmap_2; by eapply list_elem_of_lookup_2.
  - by eapply edges_ranked_acyclic.
Qed.

Lemma canonical_counter : (2002 + 8 ≤ counter_max)%N.
Proof. vm_compute. discriminate. Qed.

Lemma parsed_graph_well_formed_witness :
  ∃ g n,
    parseTokens (tokenize canonical) 2002 = Ok (g, n)
    ∧ (2002 + 8 ≤ counter_max)%N
    ∧ n = (2002 + N.of_nat (length (out_people g)))%N
    ∧ acyclic (parentsOf (buildIndexes (out_people g) (out_rels g))).
Proof.
  exists (buildGraphFromSibling canonical_left canonical_connector
            canonical_right 2002).1,
    (buildGraphFromSibling canonical_left canonical_connector
       canonical_right 2002).2.
  destruct (parsed_graph_well_formed _ _ _ _ (canonical_tokens 2002)
              canonical_counter) as (_ & Hn & _ & _ & Hacyc).
  split_and!;
    [exact (canonical_tokens 2002)|exact canonical_counter|exact Hn
    |exact Hacyc].
Defined.

(** ** From the phrase to the titles *)

Lemma numeral_inj n i j : numeral n i = numeral n j → i = j.
Proof. unfold numeral. intros H%String_of_N_inj. lia. Qed.

Lemma ref_id_numeral n st i :
  synth_inv n st → (i < length (s_people st))%nat → ref_id st i = numeral n i.
Proof.
  intros Hinv Hi. unfold ref_id.
  destruct (lookup_lt_is_Some_2 _ _ Hi) as [p Hp]. rewrite Hp.
  by apply (si_ids _ _ Hinv).
Qed.

Lemma edge_at_elem (n : N) (L : list (nat * nat)) (a b : nat) :
  mkEdge (numeral n a) (numeral n b) ∈ edge_at n <$> L ↔ (a, b) ∈ L.
Proof.
  rewrite list_elem_of_fmap. split.
  - intros ([a' b'] & [= Ha Hb] & Hin). simpl in *.
    apply numeral_inj in Ha, Hb. by subst.
  - intros Hin. by exists (a, b).
Qed.

Lemma twin_length n m st st' :
  twin n m st st' → length (s_people st) = length (s_people st').
Proof. intros Htw. by eapply Forall2_length, tw_people. Qed.

Lemma twin_named n m st st' r nm :
  twin n m st st' → named st r nm → named st' r nm.
Proof.
  intros Htw (p & Hp & Hn).
  destruct (Forall2_lookup_l _ _ _ _ _ (tw_people _ _ _ _ Htw) Hp)
    as (q & Hq & Hnm & _).
  exists q. split; [done|congruence].
Qed.

Lemma add_twin n m nm sx nt st st' :
  twin n m st st' →
  (add nm sx nt st).1 = (add nm sx nt st').1
  ∧ twin n m (add nm sx nt st).2 (add nm sx nt st').2.
Proof.
  intros Htw.
  pose proof (add_spec n nm sx nt st (tw_inv _ _ _ _ Htw)) as (Hinv & _).
  pose proof (add_spec m nm sx nt st' (tw_inv' _ _ _ _ Htw)) as (Hinv' & _).
  pose proof (twin_length _ _ _ _ Htw) as Hlen.
  destruct Htw as [Hkeys Hpeople _ _ (L & HL & HL')].
  revert Hinv Hinv'. unfold add. rewrite <- Hkeys.
  destruct (byKey st !! name_key nm) as [r|]; simpl; intros Hinv Hinv'.
  - split; [done|]. split; [done..|]. by exists L.
  - split; [done|]. split; simpl; [by rewrite Hkeys, Hlen| |done..|by exists L].
    apply Forall2_app; [done|]. by repeat constructor.
Qed.

Lemma link_twin n m a b st st' :
  twin n m st st' →
  (a < length (s_people st))%nat → (b < length (s_people st))%nat → a ≠ b →
  twin n m (link (ref_id st a) (ref_id st b) st)
    (link (ref_id st' a) (ref_id st' b) st').
Proof.
  intros Htw Ha Hb Hab.
  pose proof (twin_length _ _ _ _ Htw) as Hlen.
  destruct Htw as [Hkeys Hpeople Hinv Hinv' (L & HL & HL')].
  rewrite (ref_id_numeral n st a), (ref_id_numeral n st b) by done.
  rewrite (ref_id_numeral m st' a), (ref_id_numeral m st' b) by (done || lia).
  assert (∀ k, numeral k a ≠ numeral k b) as Hne
    by (by intros k ?%numeral_inj).
  pose proof (link_inv n (numeral n a) (numeral n b) st Hinv (Hne n)) as Hl.
  pose proof (link_inv m (numeral m a) (numeral m b) st' Hinv' (Hne m)) as Hl'.
  revert Hl Hl'. unfold link.
  destruct (decide ((a, b) ∈ L)) as [Hin|Hin].
  - rewrite !bool_decide_eq_true_2
      by (apply Exists_edge; rewrite ?HL, ?HL'; by apply edge_at_elem).
    intros Hl Hl'. split; [done..|]. by exists L.
  - rewrite !bool_decide_eq_false_2
      by (rewrite Exists_edge, ?HL, ?HL'; by rewrite edge_at_elem).
    intros Hl Hl'. split; simpl; [done..|].
    exists (L ++ [(a, b)]). by rewrite !fmap_app, HL, HL'.
Qed.

Lemma named_lt st r nm : named st r nm → (r < length (s_people st))%nat.
Proof. intros (p & Hp & _). by eapply lookup_lt_Some. Qed.

Lemma named_ne st r1 r2 nm1 nm2 :
  named st r1 nm1 → named st r2 nm2 → nm1 ≠ nm2 → r1 ≠ r2.
Proof. intros (p & Hp & <-) (q & Hq & <-) Hne ->. congruence. Qed.

Lemma chain_steps_twin n m b rest path child st st' :
  twin n m st st' → named st child (chain_name b path) →
  (chain_steps b path rest child st).1 = (chain_steps b path rest child st').1
  ∧ twin n m (chain_steps b path rest child st).2
      (chain_steps b path rest child st').2
  ∧ named (chain_steps b path rest child st).2
      (chain_steps b path rest child st).1 (chain_name b (path ++ rest)).
Proof.
  revert path child st st'.
  induction rest as [|s rest IH]; intros path child st st' Htw Hchild; simpl.
  - by rewrite app_nil_r.
  - destruct (labelForPath b (path ++ [s])) as [label sx] eqn:El.
    assert (label = chain_name b (path ++ [s])) as ->.
    { unfold chain_name. rewrite El. by destruct path. }
    pose proof (add_spec n (chain_name b (path ++ [s])) sx None st
                  (tw_inv _ _ _ _ Htw)) as (_ & Hnode & Hext1).
    destruct (add_twin n m (chain_name b (path ++ [s])) sx None st st' Htw)
      as [Hidx Htw1].
    destruct (add (chain_name b (path ++ [s])) sx None st) as [node st1].
    destruct (add (chain_name b (path ++ [s])) sx None st') as [node' st1'].
    simpl in *. subst node'.
    pose proof (Hext1 _ _ Hchild) as Hchild1.
    destruct (IH (path ++ [s]) node
                (link (ref_id st1 node) (ref_id st1 child) st1)
                (link (ref_id st1' node) (ref_id st1' child) st1'))
      as (Hres & Htw2 & Hnamed).
    + apply link_twin; [done|by eapply named_lt..|].
      eapply named_ne; [done..|]. apply chain_name_step_ne.
    + by apply link_extends.
    + by rewrite <- app_assoc in Hnamed.
Qed.

Lemma ensureChain_twin n m b steps st st' :
  twin n m st st' →
  (ensureChain b steps st).1 = (ensureChain b steps st').1
  ∧ twin n m (ensureChain b steps st).2 (ensureChain b steps st').2
  ∧ named (ensureChain b steps st).2 (ensureChain b steps st).1
      (chain_name b steps).
Proof.
  intros Htw. unfold ensureChain. fold (root_name b).
  pose proof (add_spec n (root_name b)
                (match b with he => male | she => female end) None st
                (tw_inv _ _ _ _ Htw)) as (_ & Hroot & _).
  destruct (add_twin n m (root_name b)
              (match b with he => male | she => female end) None st st' Htw)
    as [Hidx Htw1].
  destruct (add (root_name b) (match b with he => male | she => female end)
              None st) as [root st1].
  destruct (add (root_name b) (match b with he => male | she => female end)
              None st') as [root' st1'].
  simpl in *. subst root'.
  by apply (chain_steps_twin n m b steps [] root st1 st1').
Qed.

Lemma record_rank_twin n m conn conn' r st st' :
  twin n m st st' →
  twin n m (record_rank conn r st) (record_rank conn' r st').
Proof.
  intros Htw.
  destruct (record_rank_spec n conn r st (tw_inv _ _ _ _ Htw)) as [Hinv _].
  destruct (record_rank_spec m conn' r st' (tw_inv' _ _ _ _ Htw))
    as [Hinv' _].
  pose proof (record_rank_rels conn r st) as Hr.
  pose proof (record_rank_rels conn' r st') as Hr'.
  destruct Htw as [Hkeys Hpeople _ _ (L & HL & HL')].
  assert (∀ (c : Connector) (s : Synth),
            byKey (record_rank c r s) = byKey s
            ∧ Forall2 (λ p q, name p = name q ∧ sex p = sex q)
                (s_people (record_rank c r s)) (s_people s)) as Hsame.
  { intros c s. unfold record_rank.
    assert (Forall2 (λ p q : Person, name p = name q ∧ sex p = sex q)
              (s_people s) (s_people s)) as Hrefl
      by (by apply Forall_Forall2_diag, Forall_true).
    destruct (conn_rank c) as [rank|]; [|done]. case_decide; [done|].
    split; [done|]. simpl. apply Forall2_same_length_lookup.
    split; [by rewrite length_alter|].
    intros i p q. destruct (decide (i = r)) as [->|Hne].
    - rewrite list_lookup_alter_eq. intros Hp Hq. rewrite Hq in Hp.
      by simplify_eq/=.
    - rewrite list_lookup_alter_ne by done. intros Hp Hq. by simplify_eq. }
  destruct (Hsame conn st) as [Hk1 Hp1]. destruct (Hsame conn' st') as [Hk2 Hp2].
  split; [congruence| |done..|].
  - apply Forall2_same_length_lookup. split.
    + rewrite (Forall2_length _ _ _ Hp1), (Forall2_length _ _ _ Hp2).
      by eapply Forall2_length.
    + intros i p q Hp Hq.
      destruct (Forall2_lookup_l _ _ _ _ _ Hp1 Hp) as (p0 & Hp0 & ? & ?).
      destruct (Forall2_lookup_l _ _ _ _ _ Hp2 Hq) as (q0 & Hq0 & ? & ?).
      destruct (Forall2_lookup_l _ _ _ _ _ Hpeople Hp0) as (q1 & Hq1 & ? & ?).
      simplify_eq. split; congruence.
  - exists L. by rewrite Hr, Hr'.
Qed.

Lemma link_common_twin n m l r nl nr st st' parent np :
  twin n m st st' → named st l nl → named st r nr → named st parent np →
  np ≠ nl → np ≠ nr →
  twin n m (link_common l r st parent) (link_common l r st' parent).
Proof.
  intros Htw Hl Hr Hp Hnl Hnr. unfold link_common.
  assert (twin n m (link (ref_id st parent) (ref_id st l) st)
            (link (ref_id st' parent) (ref_id st' l) st')) as Htw1.
  { apply link_twin; [done|by eapply named_lt..|]. by eapply named_ne. }
  apply link_twin; [done|rewrite link_people; by eapply named_lt..|].
  by eapply named_ne.
Qed.

(** The synthesis at another counter, or with another rank word, yields
    the same persons up to identifier and note, and the same edges between
    the same positions. *)
Lemma synthesize_twin n m l conn conn' r :
  twin n m (synthesize l conn r n) (synthesize l conn' r m).
Proof.
  unfold synthesize.
  assert (twin n m (mkSynth n [] [] ∅) (mkSynth m [] [] ∅)) as Htw0.
  { split; simpl; [done|constructor|..|by exists []].
    - split; simpl; try done; [by rewrite N.add_0_r|].
      split; [constructor|]. by intros ? ?%elem_of_nil.
    - split; simpl; try done; [by rewrite N.add_0_r|].
      split; [constructor|]. by intros ? ?%elem_of_nil. }
  destruct (ensureChain_twin n m (spec_base l) (spec_steps l) _ _ Htw0)
    as (Hi1 & Htw1 & Hleft).
  destruct (ensureChain (spec_base l) (spec_steps l) (mkSynth n [] [] ∅))
    as [leftNode st1].
  destruct (ensureChain (spec_base l) (spec_steps l) (mkSynth m [] [] ∅))
    as [leftNode' st1'].
  simpl in *. subst leftNode'.
  pose proof (record_rank_twin n m conn conn' leftNode _ _ Htw1) as Htw2.
  destruct (record_rank_spec n conn leftNode st1 (tw_inv _ _ _ _ Htw1))
    as [_ Hext2].
  destruct (ensureChain_spec n (spec_base r) (spec_steps r) _
              (tw_inv _ _ _ _ Htw2)) as (_ & _ & Hext3 & _).
  destruct (ensureChain_twin n m (spec_base r) (spec_steps r) _ _ Htw2)
    as (Hi3 & Htw3 & Hright).
  destruct (ensureChain (spec_base r) (spec_steps r)
              (record_rank conn leftNode st1)) as [rightNode st3].
  destruct (ensureChain (spec_base r) (spec_steps r)
              (record_rank conn' leftNode st1')) as [rightNode' st3'].
  simpl in *. subst rightNode'.
  pose proof (add_spec n (js "Общий прадед") male None st3
                (tw_inv _ _ _ _ Htw3)) as (_ & Hgf & Hext4).
  destruct (add_twin n m (js "Общий прадед") male None _ _ Htw3)
    as [Hi4 Htw4].
  destruct (add (js "Общий прадед") male None st3) as [commonGF st4].
  destruct (add (js "Общий прадед") male None st3') as [commonGF' st4'].
  simpl in *. subst commonGF'.
  pose proof (add_spec n (js "Общая прабабушка") female None st4
                (tw_inv _ _ _ _ Htw4)) as (_ & Hgm & Hext5).
  destruct (add_twin n m (js "Общая прабабушка") female None _ _ Htw4)
    as [Hi5 Htw5].
  destruct (add (js "Общая прабабушка") female None st4) as [commonGM st5].
  destruct (add (js "Общая прабабушка") female None st4') as [commonGM' st5'].
  simpl in *. subst commonGM'.
  assert (named st5 leftNode (chain_name (spec_base l) (spec_steps l)))
    as Hleft5 by (by apply Hext5, Hext4, Hext3, Hext2).
  assert (named st5 rightNode (chain_name (spec_base r) (spec_steps r)))
    as Hright5 by (by apply Hext5, Hext4).
  destruct (chain_name_not_common (spec_base l) (spec_steps l)) as [Hcl1 Hcl2].
  destruct (chain_name_not_common (spec_base r) (spec_steps r)) as [Hcr1 Hcr2].
  pose proof (link_common_twin n m leftNode rightNode _ _ st5 st5' commonGF _
                Htw5 Hleft5 Hright5 (Hext5 _ _ Hgf)) as Htw6.
  destruct (link_common_spec n leftNode rightNode _ _ st5 commonGF _
              (tw_inv _ _ _ _ Htw5) Hleft5 Hright5 (Hext5 _ _ Hgf))
    as [_ Hext6]; [congruence..|].
  simpl.
  apply (link_common_twin n m leftNode rightNode
           (chain_name (spec_base l) (spec_steps l))
           (chain_name (spec_base r) (spec_steps r)) _ _ commonGM
           (js "Общая прабабушка")); [|by apply Hext6..|congruence|congruence].
  apply Htw6; congruence.
Qed.

Lemma synthesize_specs (l l' r r' : RelativeSpec) (conn : Connector) (n : N) :
  spec_base l = spec_base l' → spec_steps l = spec_steps l' →
  spec_base r = spec_base r' → spec_steps r = spec_steps r' →
  synthesize l conn r n = synthesize l' conn r' n.
Proof. unfold synthesize. by intros -> -> -> ->. Qed.

(** *** Distances between positions *)

Lemma hops_numeral (n : N) (P : list Person) (L : list (nat * nat))
    (k i : nat) (y : jsstring) :
  hops (parentsOf (buildIndexes P (edge_at n <$> L))) k (numeral n i) y
  ↔ ∃ j, y = numeral n j ∧ ihops L k i j.
Proof.
  split.
  - intros H. remember (numeral n i) as x eqn:Hx. revert i Hx.
    induction H as [x|k x p y Hp _ IH]; intros i ->.
    + exists i. split; [done|constructor].
    + apply elem_of_parents_buildIndexes, list_elem_of_fmap in Hp
        as ([a b] & [= -> Hb] & Hin).
      simpl in *. apply numeral_inj in Hb as ->.
      destruct (IH a eq_refl) as (j & -> & Hj).
      exists j. split; [done|]. by econstructor.
  - intros (j & -> & H). induction H as [i|k i p j Hp _ IH]; [constructor|].
    econstructor; [|done].
    by apply elem_of_parents_buildIndexes, edge_at_elem.
Qed.

Lemma getAncestors_numeral (n : N) (P : list Person) (L : list (nat * nat))
    (i : nat) (x : jsstring) (d : Z) :
  obj_get (getAncestors (numeral n i)
             (parentsOf (buildIndexes P (edge_at n <$> L)))) x = Some d →
  ∃ j, x = numeral n j.
Proof.
  intros (_ & _ & (j & -> & _)%hops_numeral & _)%getAncestors_sound. eauto.
Qed.

Lemma distance_le (n m : N) (P P' : list Person) (L : list (nat * nat))
    (i j : nat) (d : Z) :
  obj_get (getAncestors (numeral n i)
             (parentsOf (buildIndexes P (edge_at n <$> L)))) (numeral n j)
  = Some d →
  ∃ d', obj_get (getAncestors (numeral m i)
                   (parentsOf (buildIndexes P' (edge_at m <$> L))))
          (numeral m j) = Some d'
        ∧ d' ≤ d.
Proof.
  intros (Hne & Hd & (j' & Hj & Hh)%hops_numeral & _)%getAncestors_sound.
  apply numeral_inj in Hj as <-.
  assert (hops (parentsOf (buildIndexes P' (edge_at m <$> L))) (Z.to_nat d)
            (numeral m i) (numeral m j)) as Hh'
    by (apply hops_numeral; eauto).
  destruct (getAncestors_complete _ _ _ _
              (λ H, Hne (f_equal (numeral n) (eq_sym (numeral_inj m _ _ (eq_sym H)))))
              Hh') as [d' Hd'].
  exists d'. split; [done|].
  apply getAncestors_sound in Hd' as (_ & _ & _ & Hmin).
  apply Hmin in Hh'. lia.
Qed.

Lemma distance_twin (n m : N) (P P' : list Person) (L : list (nat * nat))
    (i j : nat) :
  obj_get (getAncestors (numeral n i)
             (parentsOf (buildIndexes P (edge_at n <$> L)))) (numeral n j)
  = obj_get (getAncestors (numeral m i)
               (parentsOf (buildIndexes P' (edge_at m <$> L)))) (numeral m j).
Proof.
  destruct (obj_get (getAncestors (numeral n i) _) (numeral n j)) as [d|] eqn:E,
    (obj_get (getAncestors (numeral m i) _) (numeral m j)) as [d'|] eqn:E'.
  - destruct (distance_le n m P P' L i j d E) as (d1 & E1 & ?).
    destruct (distance_le m n P' P L i j d' E') as (d2 & E2 & ?).
    simplify_eq. f_equal. lia.
  - destruct (distance_le n m P P' L i j d E) as (d1 & E1 & ?). congruence.
  - destruct (distance_le m n P' P L i j d' E') as (d2 & E2 & ?). congruence.
  - done.
Qed.

Lemma all_common_at_spec (A B : obj Z) (k l : Z) (x : jsstring) (dA dB : Z) :
  all_common_at A B k l = true →
  obj_get A x = Some dA → obj_get B x = Some dB → dA = k ∧ dB = l.
Proof.
  unfold all_common_at. rewrite forallb_forall. intros Hall HA HB.
  assert ((x, dA) ∈ A) as Hin.
  { clear Hall. induction A as [|[k' v] A IH]; [done|]. simpl in HA.
    case_decide; [simplify_eq; by left|]. right. by apply IH. }
  apply list_elem_of_In, Hall in Hin. simpl in Hin. rewrite HB in Hin.
  apply andb_true_iff in Hin as [?%Z.eqb_eq ?%Z.eqb_eq]. done.
Qed.

Lemma lca_label_titles_only (f t f' t' : jsstring) (people people' : list Person)
    (byId byId' : gmap jsstring Person) (po po' : gmap jsstring (list jsstring))
    (A B A' B' : Person) (lca lca' : Lca) :
  sex A = sex A' → sex B = sex B' →
  lca_dA lca = lca_dA lca' → lca_dB lca = lca_dB lca' →
  title (lca_label f t people byId po A B lca)
  = title (lca_label f' t' people' byId' po' A' B' lca')
  ∧ reverseTitle (lca_label f t people byId po A B lca)
    = reverseTitle (lca_label f' t' people' byId' po' A' B' lca').
Proof.
  intros HA HB Hk Hl. unfold lca_label. rewrite HA, HB, Hk, Hl.
  repeat case_match; done.
Qed.

Lemma byId_NoDup (people : list Person) (edges : list ParentEdge) (p : Person) :
  NoDup (id <$> people) → p ∈ people →
  byId (buildIndexes people edges) !! id p = Some p.
Proof.
  intros Hnd Hp.
  destruct (byId_is_Some people edges (id p)) as [q Hq];
    [by apply list_elem_of_fmap_2|].
  rewrite Hq. f_equal. apply byId_Some in Hq as [Hq Hid].
  apply list_elem_of_lookup in Hp as [i Hi], Hq as [j Hj].
  assert (i = j) as ->; [|congruence].
  eapply NoDup_lookup; [done| |]; rewrite list_lookup_fmap.
  - by rewrite Hi.
  - by rewrite Hj, <- Hid.
Qed.

Lemma find_by_name (people : list Person) (p : Person) :
  NoDup (name <$> people) → p ∈ people →
  find (λ q, bool_decide (name q = name p)) people = Some p.
Proof.
  induction people as [|q people IH]; [by intros _ ?%elem_of_nil|].
  rewrite fmap_cons, NoDup_cons. intros [Hq Hnd] Hp. simpl.
  case_bool_decide as Hid.
  - apply elem_of_cons in Hp as [->|Hp]; [done|].
    exfalso. apply Hq. rewrite Hid. by apply list_elem_of_fmap_2.
  - apply elem_of_cons in Hp as [->|Hp]; [done|]. by apply IH.
Qed.

Lemma id_by_name_numeral n st i nm :
  synth_inv n st → named st i nm → id_by_name (s_people st) nm = numeral n i.
Proof.
  intros Hinv (p & Hp & <-). unfold id_by_name.
  rewrite (find_by_name _ p);
    [by apply (si_ids _ _ Hinv)|by eapply synth_names_NoDup|].
  by eapply list_elem_of_lookup_2.
Qed.

(** Two persons that are neither ancestor nor descendant of one another
    get the same titles in both states, when their common ancestors are all
    at the same two distances. *)
Lemma twin_titles n m st st' i j k l :
  twin n m st st' →
  (i < length (s_people st))%nat → (j < length (s_people st))%nat →
  isAncestorOf (numeral m i) (numeral m j)
    (parentsOf (buildIndexes (s_people st') (s_rels st'))) < 1 →
  isAncestorOf (numeral m j) (numeral m i)
    (parentsOf (buildIndexes (s_people st') (s_rels st'))) < 1 →
  is_Some (findLCA (numeral m i) (numeral m j)
             (parentsOf (buildIndexes (s_people st') (s_rels st')))) →
  all_common_at
    (getAncestors (numeral m i)
       (parentsOf (buildIndexes (s_people st') (s_rels st'))))
    (getAncestors (numeral m j)
       (parentsOf (buildIndexes (s_people st') (s_rels st')))) k l = true →
  title (relationLabel (numeral n i) (numeral n j) (s_people st) (s_rels st))
  = title (relationLabel (numeral m i) (numeral m j) (s_people st')
             (s_rels st'))
  ∧ reverseTitle (relationLabel (numeral n i) (numeral n j) (s_people st)
                    (s_rels st))
    = reverseTitle (relationLabel (numeral m i) (numeral m j) (s_people st')
                      (s_rels st')).
Proof.
  intros Htw Hi Hj Hup Hdown [r' Hr'] Hall.
  pose proof (twin_length _ _ _ _ Htw) as Hlen.
  destruct (lookup_lt_is_Some_2 _ _ Hi) as [a Ha].
  destruct (lookup_lt_is_Some_2 _ _ Hj) as [b Hb].
  destruct (Forall2_lookup_l _ _ _ _ _ (tw_people _ _ _ _ Htw) Ha)
    as (a' & Ha' & _ & Hsa).
  destruct (Forall2_lookup_l _ _ _ _ _ (tw_people _ _ _ _ Htw) Hb)
    as (b' & Hb' & _ & Hsb).
  destruct Htw as [_ _ Hinv Hinv' (L & HL & HL')].
  assert (∀ (c : N) (s : Synth) (x : nat) (p : Person),
            synth_inv c s → s_people s !! x = Some p →
            byId (buildIndexes (s_people s) (s_rels s)) !! numeral c x
            = Some p) as Hby.
  { intros c s x p Hs Hp. unfold numeral. rewrite <- (si_ids _ _ Hs _ _ Hp).
    apply byId_NoDup; [by eapply synth_ids_NoDup|].
    by eapply list_elem_of_lookup_2. }
  unfold relationLabel. cbv zeta.
  rewrite (Hby n st i a), (Hby n st j b), (Hby m st' i a'), (Hby m st' j b')
    by done.
  revert Hup Hdown Hr' Hall. rewrite HL, HL'.
  set (po := parentsOf (buildIndexes (s_people st) (edge_at n <$> L))).
  set (po' := parentsOf (buildIndexes (s_people st') (edge_at m <$> L))).
  intros Hup Hdown Hr' Hall.
  assert (∀ x y, isAncestorOf (numeral n x) (numeral n y) po
                 = isAncestorOf (numeral m x) (numeral m y) po') as Hanc.
  { intros x y. unfold isAncestorOf, po, po'.
    by rewrite (distance_twin n m _ (s_people st') L y x). }
  rewrite !Hanc.
  rewrite !(proj2 (Z.leb_gt _ _)) by done.
  rewrite Hr'.
  destruct (findLCA_least (numeral m i) (numeral m j) po') as [_ Hv'].
  destruct (Hv' r' Hr') as [[HA' HB'] _].
  destruct (all_common_at_spec _ _ _ _ _ _ _ Hall HA' HB') as [Hk' Hl'].
  destruct (getAncestors_numeral _ _ _ _ _ _ HA') as [c Hc].
  rewrite Hc in HA', HB'.
  destruct (findLCA_least (numeral n i) (numeral n j) po) as [Hnone Hv].
  destruct (findLCA (numeral n i) (numeral n j) po) as [r|] eqn:Hr.
  - destruct (Hv r eq_refl) as [[HA HB] _].
    destruct (getAncestors_numeral _ _ _ _ _ _ HA) as [e He].
    rewrite He in HA, HB. unfold po in HA, HB.
    rewrite (distance_twin n m _ (s_people st') L) in HA, HB.
    destruct (all_common_at_spec _ _ _ _ _ _ _ Hall HA HB) as [Hk Hl].
    apply lca_label_titles_only; congruence.
  - exfalso. apply (proj1 Hnone eq_refl (numeral n c)). unfold po.
    rewrite !(distance_twin n m _ (s_people st') L). fold po'.
    rewrite HA', HB'. eauto.
Qed.

(** *** The phrases at the counter 1 *)

Lemma reference_facts (bl br : Base) (sl sr : list Step) :
  bl ≠ br → sl ∈ chains → sr ∈ chains →
  let st' := reference_graph bl sl br sr in
  let po' := parentsOf (buildIndexes (s_people st') (s_rels st')) in
  let i := his_position bl sl in
  let j := her_position bl sl in
  let a := length (match bl with he => sl | she => sr end) in
  let b := length (match bl with he => sr | she => sl end) in
  (name <$> s_people st') !! i = Some (js "Он")
  ∧ (name <$> s_people st') !! j = Some (js "Она")
  ∧ isAncestorOf (numeral 1 i) (numeral 1 j) po' < 1
  ∧ isAncestorOf (numeral 1 j) (numeral 1 i) po' < 1
  ∧ is_Some (findLCA (numeral 1 i) (numeral 1 j) po')
  ∧ all_common_at (getAncestors (numeral 1 i) po')
      (getAncestors (numeral 1 j) po') (Z.of_nat a + 1) (Z.of_nat b + 1)
    = true
  ∧ (title (relationLabel (numeral 1 i) (numeral 1 j) (s_people st')
              (s_rels st')),
     reverseTitle (relationLabel (numeral 1 i) (numeral 1 j) (s_people st')
                     (s_rels st')))
    = he_she_titles a b.
Proof.
  intros Hb Hsl Hsr.
  assert (bl = he ∧ br = she ∨ bl = she ∧ br = he) as Hbases
    by (destruct bl, br; tauto).
  clear Hb. unfold chains in Hsl, Hsr.
  repeat (apply elem_of_cons in Hsl as [->|Hsl]);
    [..|by apply elem_of_nil in Hsl];
    (repeat (apply elem_of_cons in Hsr as [->|Hsr]);
     [..|by apply elem_of_nil in Hsr]);
    destruct Hbases as [[-> ->]|[-> ->]];
    cbv zeta; split_and!;
    try (vm_compute; reflexivity); vm_compute; eauto.
Qed.

Lemma relative_at_chain tokens i spec :
  relative_at tokens i spec → spec_steps spec ∈ chains.
Proof.
  intros (pron & w & _ & _ & _ & [[_ ->]|[[_ ->]|(_ & side & _ & ->)]]);
    [set_solver..|].
  destruct side, (isGrandfatherWord w); set_solver.
Qed.

Lemma twin_named_back n m st st' r nm :
  twin n m st st' → (name <$> s_people st') !! r = Some nm → named st r nm.
Proof.
  intros Htw (q & -> & Hq)%list_lookup_fmap_Some.
  destruct (Forall2_lookup_r _ _ _ _ _ (tw_people _ _ _ _ Htw) Hq)
    as (p & Hp & Hnm & _).
  by exists p.
Qed.

(** X17.  A phrase about his relative and her relative (or the other way
    round) parses, with any rank word and at any value of the counter that
    leaves room for eight identifiers within 2^53, to a graph in which "Он" and "Она" get the titles of cousins of the
    degree and removal that the two chains give: parents that are siblings
    make first cousins; a parent and a grandparent make a "двоюродный
    дядя" and his "двоюродная племянница", or, when his chain is the
    longer one, "двоюродная племянник" and "двоюродный тётя"; grandparents
    make second cousins. *)
Theorem phrase_titles tokens _id l conn r :
  parseRelativeSpec tokens 0 = Ok l →
  parseSiblingConnector tokens (spec_next l) = Ok conn →
  parseRelativeSpec tokens (conn_next conn) = Ok r →
  spec_base l ≠ spec_base r →
  (_id + 8 ≤ counter_max)%N →
  ∃ g n,
    parseTokens tokens _id = Ok (g, n)
    ∧ (title (relationLabel (id_by_name (out_people g) (js "Он"))
                (id_by_name (out_people g) (js "Она"))
                (out_people g) (out_rels g)),
       reverseTitle (relationLabel (id_by_name (out_people g) (js "Он"))
                       (id_by_name (out_people g) (js "Она"))
                       (out_people g) (out_rels g)))
      = he_she_titles
          (length (spec_steps (match spec_base l with he => l | she => r end)))
          (length (spec_steps (match spec_base l with he => r | she => l end))).
Proof.
  intros Hl Hc Hr Hbases _.
  exists (buildGraphFromSibling l conn r _id).1,
    (buildGraphFromSibling l conn r _id).2.
  split; [by apply parseTokens_intro|].
  apply parseRelativeSpec_inv, relative_at_chain in Hl, Hr.
  cbn [buildGraphFromSibling fst out_people out_rels].
  set (st := synthesize l conn r _id).
  set (st' := reference_graph (spec_base l) (spec_steps l) (spec_base r)
                (spec_steps r)).
  assert (twin _id 1 st st') as Htw.
  { unfold st, st', reference_graph.
    rewrite (synthesize_specs (spec_of (spec_base l) (spec_steps l) 0) l
               (spec_of (spec_base r) (spec_steps r) 0) r) by done.
    apply synthesize_twin. }
  destruct (reference_facts (spec_base l) (spec_base r) (spec_steps l)
              (spec_steps r) Hbases Hl Hr)
    as (Hhe & Hshe & Hup & Hdown & Hlca & Hall & Htitles).
  fold st' in Hhe, Hshe, Hup, Hdown, Hlca, Hall, Htitles.
  pose proof (twin_named_back _ _ _ _ _ _ Htw Hhe) as Hhe'.
  pose proof (twin_named_back _ _ _ _ _ _ Htw Hshe) as Hshe'.
  rewrite (id_by_name_numeral _id st _ _ (tw_inv _ _ _ _ Htw) Hhe'),
    (id_by_name_numeral _id st _ _ (tw_inv _ _ _ _ Htw) Hshe').
  destruct (twin_titles _id 1 st st' _ _ _ _ Htw (named_lt _ _ _ Hhe')
              (named_lt _ _ _ Hshe') Hup Hdown Hlca Hall) as [-> ->].
  rewrite Htitles. by destruct (spec_base l).
Qed.

Lemma canonical_left_parses :
  parseRelativeSpec (tokenize canonical) 0 = Ok canonical_left.
Proof. vm_compute. reflexivity. Qed.

Lemma canonical_connector_parses :
  parseSiblingConnector (tokenize canonical) (spec_next canonical_left)
  = Ok canonical_connector.
Proof. vm_compute. reflexivity. Qed.

Lemma canonical_right_parses :
  parseRelativeSpec (tokenize canonical) (conn_next canonical_connector)
  = Ok canonical_right.
Proof. vm_compute. reflexivity. Qed.

Lemma canonical_bases : spec_base canonical_left ≠ spec_base canonical_right.
Proof. done. Qed.

Lemma counter_room : (40 + 8 ≤ counter_max)%N.
Proof. vm_compute. discriminate. Qed.

Lemma phrase_titles_witness :
  ∃ g n,
    parseTokens (tokenize canonical) 2002 = Ok (g, n)
    ∧ (title (relationLabel (id_by_name (out_people g) (js "Он"))
                (id_by_name (out_people g) (js "Она"))
                (out_people g) (out_rels g)),
       reverseTitle (relationLabel (id_by_name (out_people g) (js "Он"))
                       (id_by_name (out_people g) (js "Она"))
                       (out_people g) (out_rels g)))
      = (js "двоюродный дядя", js "двоюродная племянница").
Proof.
  exact (phrase_titles (tokenize canonical) 2002 canonical_left
           canonical_connector canonical_right canonical_left_parses
           canonical_connector_parses canonical_right_parses canonical_bases
           canonical_counter).
Defined.

(** *** The two relatives that the phrase names *)

Lemma reference_relatives (bl br : Base) (sl sr : list Step) :
  bl ≠ br → sl ∈ chains → sr ∈ chains →
  let st' := reference_graph bl sl br sr in
  let po' := parentsOf (buildIndexes (s_people st') (s_rels st')) in
  let i := length sl in
  let j := S (length sl + length sr) in
  (name <$> s_people st') !! i = Some (labelForPath bl sl).1
  ∧ (name <$> s_people st') !! j = Some (labelForPath br sr).1
  ∧ isAncestorOf (numeral 1 i) (numeral 1 j) po' < 1
  ∧ isAncestorOf (numeral 1 j) (numeral 1 i) po' < 1
  ∧ is_Some (findLCA (numeral 1 i) (numeral 1 j) po')
  ∧ all_common_at (getAncestors (numeral 1 i) po')
      (getAncestors (numeral 1 j) po') 1 1 = true
  ∧ title (relationLabel (numeral 1 i) (numeral 1 j) (s_people st')
             (s_rels st'))
    = sexNoun (labelForPath br sr).2 (js "брат") (js "сестра") (js "сиблинг")
  ∧ reverseTitle (relationLabel (numeral 1 i) (numeral 1 j) (s_people st')
                    (s_rels st'))
    = sexNoun (labelForPath bl sl).2 (js "брат") (js "сестра") (js "сиблинг").
Proof.
  intros Hb Hsl Hsr.
  assert (bl = he ∧ br = she ∨ bl = she ∧ br = he) as Hbases
    by (destruct bl, br; tauto).
  clear Hb. unfold chains in Hsl, Hsr.
  repeat (apply elem_of_cons in Hsl as [->|Hsl]);
    [..|by apply elem_of_nil in Hsl];
    (repeat (apply elem_of_cons in Hsr as [->|Hsr]);
     [..|by apply elem_of_nil in Hsr]);
    destruct Hbases as [[-> ->]|[-> ->]];
    cbv zeta; split_and!;
    try (vm_compute; reflexivity); vm_compute; eauto.
Qed.

Lemma relative_at_label tokens i spec :
  relative_at tokens i spec →
  terminalLabel spec = (labelForPath (spec_base spec) (spec_steps spec)).1
  ∧ terminalSex spec = (labelForPath (spec_base spec) (spec_steps spec)).2.
Proof.
  by intros (pron & w & _ & _ & _ & [[_ ->]|[[_ ->]|(_ & side & _ & ->)]]).
Qed.

(** X18.  In the graph of a phrase about his relative and her relative,
    parsed with room for eight identifiers within 2^53, the two
    relatives that the phrase names are siblings for the classifier,
    each title following the sex of the relative: the sibling word of the
    phrase plays no part, so that "его отец сестра её матери" yields a
    father who is the "брат" of her mother. *)
Theorem phrase_relatives_siblings tokens _id l conn r :
  parseRelativeSpec tokens 0 = Ok l →
  parseSiblingConnector tokens (spec_next l) = Ok conn →
  parseRelativeSpec tokens (conn_next conn) = Ok r →
  spec_base l ≠ spec_base r →
  (_id + 8 ≤ counter_max)%N →
  ∃ g n,
    parseTokens tokens _id = Ok (g, n)
    ∧ title (relationLabel (id_by_name (out_people g) (terminalLabel l))
               (id_by_name (out_people g) (terminalLabel r))
               (out_people g) (out_rels g))
      = sexNoun (terminalSex r) (js "брат") (js "сестра") (js "сиблинг")
    ∧ reverseTitle (relationLabel (id_by_name (out_people g) (terminalLabel l))
                      (id_by_name (out_people g) (terminalLabel r))
                      (out_people g) (out_rels g))
      = sexNoun (terminalSex l) (js "брат") (js "сестра") (js "сиблинг").
Proof.
  intros Hl Hc Hr Hbases _.
  exists (buildGraphFromSibling l conn r _id).1,
    (buildGraphFromSibling l conn r _id).2.
  split; [by apply parseTokens_intro|].
  apply parseRelativeSpec_inv in Hl, Hr.
  destruct (relative_at_label _ _ _ Hl) as [-> ->].
  destruct (relative_at_label _ _ _ Hr) as [-> ->].
  apply relative_at_chain in Hl, Hr.
  cbn [buildGraphFromSibling fst out_people out_rels].
  set (st := synthesize l conn r _id).
  set (st' := reference_graph (spec_base l) (spec_steps l) (spec_base r)
                (spec_steps r)).
  assert (twin _id 1 st st') as Htw.
  { unfold st, st', reference_graph.
    rewrite (synthesize_specs (spec_of (spec_base l) (spec_steps l) 0) l
               (spec_of (spec_base r) (spec_steps r) 0) r) by done.
    apply synthesize_twin. }
  destruct (reference_relatives (spec_base l) (spec_base r) (spec_steps l)
              (spec_steps r) Hbases Hl Hr)
    as (Hleft & Hright & Hup & Hdown & Hlca & Hall & Htitle & Hrev).
  fold st' in Hleft, Hright, Hup, Hdown, Hlca, Hall, Htitle, Hrev.
  pose proof (twin_named_back _ _ _ _ _ _ Htw Hleft) as Hleft'.
  pose proof (twin_named_back _ _ _ _ _ _ Htw Hright) as Hright'.
  rewrite (id_by_name_numeral _id st _ _ (tw_inv _ _ _ _ Htw) Hleft'),
    (id_by_name_numeral _id st _ _ (tw_inv _ _ _ _ Htw) Hright').
  destruct (twin_titles _id 1 st st' _ _ _ _ Htw (named_lt _ _ _ Hleft')
              (named_lt _ _ _ Hright') Hup Hdown Hlca Hall) as [-> ->].
  by rewrite Htitle, Hrev.
Qed.

Lemma mismatch_left_parses :
  parseRelativeSpec mismatch_tokens 0 = Ok (spec_of he [father] 2).
Proof. vm_compute. reflexivity. Qed.

Lemma mismatch_connector_parses :
  parseSiblingConnector mismatch_tokens 2
  = Ok (mkConnector (js "сестра") None 3).
Proof. vm_compute. reflexivity. Qed.

Lemma mismatch_right_parses :
  parseRelativeSpec mismatch_tokens 3 = Ok (spec_of she [mother] 5).
Proof. vm_compute. reflexivity. Qed.

Lemma phrase_relatives_siblings_witness :
  ∃ g n,
    parseTokens mismatch_tokens 40 = Ok (g, n)
    ∧ title (relationLabel (id_by_name (out_people g) (js "Его отец"))
               (id_by_name (out_people g) (js "Её мать"))
               (out_people g) (out_rels g))
      = js "сестра"
    ∧ reverseTitle (relationLabel (id_by_name (out_people g) (js "Его отец"))
                      (id_by_name (out_people g) (js "Её мать"))
                      (out_people g) (out_rels g))
      = js "брат".
Proof.
  exact (phrase_relatives_siblings mismatch_tokens 40 (spec_of he [father] 2)
           (mkConnector (js "сестра") None 3) (spec_of she [mother] 5)
           mismatch_left_parses mismatch_connector_parses
           mismatch_right_parses canonical_bases counter_room).
Defined.

(** ** The shape and the notes of the synthesized graph *)

(** X19.  The counter and the connector leave no trace in the shape of the
    synthesized graph: for two connectors and two counters with room
    within 2^53 for the identifiers of the call (the two roots, one person
    per step, the two common parents), the persons have the same names and sexes, position
    by position, carry the numerals issued from the respective counter, and
    the edges join the same positions.  In particular the sibling word is
    never used. *)
Theorem buildGraphFromSibling_shape l conn conn' r n m :
  (n + N.of_nat (length (spec_steps l) + length (spec_steps r) + 4)
   ≤ counter_max)%N →
  (m + N.of_nat (length (spec_steps l) + length (spec_steps r) + 4)
   ≤ counter_max)%N →
  Forall2 (λ p q, name p = name q ∧ sex p = sex q)
    (out_people (buildGraphFromSibling l conn r n).1)
    (out_people (buildGraphFromSibling l conn' r m).1)
  ∧ (∀ i p, out_people (buildGraphFromSibling l conn r n).1 !! i = Some p →
       id p = numeral n i)
  ∧ (∀ i p, out_people (buildGraphFromSibling l conn' r m).1 !! i = Some p →
       id p = numeral m i)
  ∧ ∃ L, out_rels (buildGraphFromSibling l conn r n).1 = edge_at n <$> L
         ∧ out_rels (buildGraphFromSibling l conn' r m).1 = edge_at m <$> L.
Proof.
  intros _ _.
  destruct (synthesize_twin n m l conn conn' r) as [_ Hp Hinv Hinv' HL].
  cbn [buildGraphFromSibling fst out_people out_rels].
  split_and!; [done| | |done].
  - apply (si_ids _ _ Hinv).
  - apply (si_ids _ _ Hinv').
Qed.

Lemma shape_counters :
  (2002 + N.of_nat (length (spec_steps canonical_left)
                    + length (spec_steps canonical_right) + 4)
   ≤ counter_max)%N
  ∧ (1 + N.of_nat (length (spec_steps canonical_left)
                   + length (spec_steps canonical_right) + 4)
     ≤ counter_max)%N.
Proof. split; vm_compute; discriminate. Qed.

Lemma buildGraphFromSibling_shape_witness :
  Forall2 (λ p q, name p = name q ∧ sex p = sex q)
    (out_people
       (buildGraphFromSibling canonical_left canonical_connector
          canonical_right 2002).1)
    (out_people
       (buildGraphFromSibling canonical_left plain_connector
          canonical_right 1).1).
Proof.
  exact (proj1 (buildGraphFromSibling_shape canonical_left
                  canonical_connector plain_connector canonical_right
                  2002 1 (proj1 shape_counters) (proj2 shape_counters))).
Defined.

Lemma add_notes f n nm sx st :
  synth_inv n st → notes_as f st → notes_as f (add nm sx None st).2.
Proof.
  intros Hinv [Hnotes Hused]. unfold add.
  destruct (byKey st !! name_key nm) as [r|] eqn:E; [done|]. simpl. split.
  - intros r p [Hr|[_ Hp]]%lookup_app_Some; [by eapply Hnotes|].
    apply list_lookup_singleton_Some in Hp as [_ <-]. simpl.
    destruct (f nm) eqn:Ef; [|done].
    destruct (Hused nm) as [? ?]; congruence.
  - intros nm' Hnm'. apply lookup_insert_is_Some'. right. by apply Hused.
Qed.

Lemma link_notes f p c st : notes_as f st → notes_as f (link p c st).
Proof. unfold link. by case_bool_decide. Qed.

Lemma chain_steps_notes f n b rest path child st :
  synth_inv n st → named st child (chain_name b path) → notes_as f st →
  notes_as f (chain_steps b path rest child st).2.
Proof.
  revert path child st.
  induction rest as [|s rest IH]; intros path child st Hinv Hchild Hn;
    simpl; [done|].
  destruct (labelForPath b (path ++ [s])) as [label sx] eqn:El.
  assert (label = chain_name b (path ++ [s])) as ->.
  { unfold chain_name. rewrite El. by destruct path. }
  pose proof (add_spec n (chain_name b (path ++ [s])) sx None st Hinv)
    as (Hinv1 & Hnode & Hext1).
  pose proof (add_notes f n (chain_name b (path ++ [s])) sx st Hinv Hn) as Hn1.
  destruct (add (chain_name b (path ++ [s])) sx None st) as [node st1].
  simpl in *.
  apply (IH (path ++ [s]) node).
  - apply link_inv; [done|].
    eapply ref_id_ne; [done..|by apply Hext1|]. apply chain_name_step_ne.
  - by apply link_extends.
  - by apply link_notes.
Qed.

Lemma ensureChain_notes f n b steps st :
  synth_inv n st → notes_as f st → notes_as f (ensureChain b steps st).2.
Proof.
  intros Hinv Hn. unfold ensureChain. fold (root_name b).
  pose proof (add_spec n (root_name b)
                (match b with he => male | she => female end) None st Hinv)
    as (Hinv1 & Hroot & _).
  pose proof (add_notes f n (root_name b)
                (match b with he => male | she => female end) st Hinv Hn)
    as Hn1.
  destruct (add (root_name b) (match b with he => male | she => female end)
              None st) as [root st1].
  by apply (chain_steps_notes f n b steps [] root st1).
Qed.

Lemma record_rank_notes n conn r nm st :
  synth_inv n st → named st r nm → notes_as (λ _, None) st →
  notes_as (note_of nm conn) (record_rank conn r st).
Proof.
  intros Hinv (q & Hq & <-) [Hnotes _].
  assert (∀ i p, s_people st !! i = Some p → name p = name q → i = r)
    as Hsame.
  { intros i p Hp Hnm. apply (si_named _ _ Hinv) in Hp, Hq. congruence. }
  assert (∀ x, note_of (name q) conn x ≠ None →
            is_Some (byKey st !! name_key x)) as Hused.
  { intros x. unfold note_of. case_decide as Hx; [|done]. subst x.
    intros _. rewrite (si_named _ _ Hinv _ _ Hq). eauto. }
  split.
  - unfold record_rank, note_of, rank_note.
    destruct (conn_rank conn) as [rank|].
    + case_decide as Hrank.
      * intros i p Hp. rewrite (Hnotes _ _ Hp). by case_decide.
      * simpl. intros i p. destruct (decide (i = r)) as [->|Hne].
        -- rewrite list_lookup_alter_eq, Hq. intros [= <-]. simpl.
           rewrite (Hnotes _ _ Hq). by rewrite decide_True.
        -- rewrite list_lookup_alter_ne by done. intros Hp.
           rewrite (Hnotes _ _ Hp). rewrite decide_False; [done|].
           intros Hnm. by apply Hne, (Hsame i p).
    + intros i p Hp. rewrite (Hnotes _ _ Hp). by case_decide.
  - intros x Hx. unfold record_rank.
    destruct (conn_rank conn) as [rank|]; [|by apply Hused].
    case_decide; by apply Hused.
Qed.

Lemma link_common_notes f l r st parent :
  notes_as f st → notes_as f (link_common l r st parent).
Proof. intros Hn. unfold link_common. by do 2 apply link_notes. Qed.

Lemma synthesize_notes l conn r _id :
  notes_as (note_of (chain_name (spec_base l) (spec_steps l)) conn)
    (synthesize l conn r _id).
Proof.
  unfold synthesize.
  assert (synth_inv _id (mkSynth _id [] [] ∅)) as Hinv0.
  { split; simpl; try done.
    - rewrite N.add_0_r. done.
    - split; [constructor|]. by intros ? ?%elem_of_nil. }
  assert (notes_as (λ _, None) (mkSynth _id [] [] ∅)) as Hn0 by (by split).
  destruct (ensureChain_spec _id (spec_base l) (spec_steps l) _ Hinv0)
    as (Hinv1 & Hleft & _).
  pose proof (ensureChain_notes _ _id (spec_base l) (spec_steps l) _ Hinv0 Hn0)
    as Hn1.
  destruct (ensureChain (spec_base l) (spec_steps l) (mkSynth _id [] [] ∅))
    as [leftNode st1].
  simpl in *.
  destruct (record_rank_spec _id conn leftNode st1 Hinv1) as [Hinv2 _].
  pose proof (record_rank_notes _id conn leftNode _ st1 Hinv1 Hleft Hn1)
    as Hn2.
  destruct (ensureChain_spec _id (spec_base r) (spec_steps r) _ Hinv2)
    as (Hinv3 & _).
  pose proof (ensureChain_notes _ _id (spec_base r) (spec_steps r) _ Hinv2 Hn2)
    as Hn3.
  destruct (ensureChain (spec_base r) (spec_steps r)
              (record_rank conn leftNode st1)) as [rightNode st3].
  simpl in *.
  pose proof (add_spec _id (js "Общий прадед") male None st3 Hinv3)
    as (Hinv4 & _).
  pose proof (add_notes _ _id (js "Общий прадед") male st3 Hinv3 Hn3) as Hn4.
  destruct (add (js "Общий прадед") male None st3) as [commonGF st4].
  simpl in *.
  pose proof (add_notes _ _id (js "Общая прабабушка") female st4 Hinv4 Hn4)
    as Hn5.
  destruct (add (js "Общая прабабушка") female None st4) as [commonGM st5].
  simpl in *.
  by do 2 apply link_common_notes.
Qed.

(** X20.  In the graph of a phrase the rank word becomes the note of the
    left relative, and nobody else has a note: the sibling word and the
    rest of the phrase are not recorded. *)
Theorem phrase_rank_note tokens _id l conn r :
  parseRelativeSpec tokens 0 = Ok l →
  parseSiblingConnector tokens (spec_next l) = Ok conn →
  parseRelativeSpec tokens (conn_next conn) = Ok r →
  ∃ g n,
    parseTokens tokens _id = Ok (g, n)
    ∧ ∀ p, p ∈ out_people g →
        note p = if decide (name p = terminalLabel l) then conn_rank conn
                 else None.
Proof.
  intros Hl Hc Hr.
  exists (buildGraphFromSibling l conn r _id).1,
    (buildGraphFromSibling l conn r _id).2.
  split; [by apply parseTokens_intro|].
  cbn [buildGraphFromSibling fst out_people].
  destruct (synthesize_notes l conn r _id) as [Hnotes _].
  intros p [i Hp]%list_elem_of_lookup. rewrite (Hnotes _ _ Hp).
  apply parseRelativeSpec_inv in Hl.
  assert (chain_name (spec_base l) (spec_steps l) = terminalLabel l) as ->.
  { by destruct Hl
      as (pron & w & _ & _ & _ & [[_ ->]|[[_ ->]|(_ & side & _ & ->)]]). }
  unfold note_of, rank_note. case_decide; [|done].
  apply parseSiblingConnector_inv in Hc as (_ & _ & _ & _ & Hrank & _).
  destruct (conn_rank conn) as [rank|]; [|done].
  case_decide as Hnil; [|done]. subst rank.
  specialize (Hrank [] eq_refl). revert Hrank. unfold RANK_WORDS.
  rewrite !elem_of_cons, elem_of_nil. by intros [?|[?|[?|[?|?]]]].
Qed.

Lemma phrase_rank_note_witness :
  ∃ g n,
    parseTokens (tokenize canonical) 2002 = Ok (g, n)
    ∧ ∀ p, p ∈ out_people g →
        note p = if decide (name p = js "Его мать") then Some (js "младшая")
                 else None.
Proof.
  exact (phrase_rank_note (tokenize canonical) 2002 canonical_left
           canonical_connector canonical_right canonical_left_parses
           canonical_connector_parses canonical_right_parses).
Defined.

(** ** The roots of a parsed graph *)

Lemma add_names (Q : jsstring → Prop) nm sx nt st :
  Q nm → Forall (λ p, Q (name p)) (s_people st) →
  Forall (λ p, Q (name p)) (s_people (add nm sx nt st).2).
Proof.
  intros Hnm Hall. unfold add.
  destruct (byKey st !! name_key nm); [done|]. simpl.
  apply Forall_app. split; [done|]. by repeat constructor.
Qed.

Lemma chain_steps_names (Q : jsstring → Prop) b rest path child st :
  (∀ tail, Q (1045%N :: tail)) → Forall (λ p, Q (name p)) (s_people st) →
  Forall (λ p, Q (name p)) (s_people (chain_steps b path rest child st).2).
Proof.
  intros HQ. revert path child st.
  induction rest as [|s rest IH]; intros path child st Hall; simpl; [done|].
  destruct (labelForPath b (path ++ [s])) as [label sx] eqn:El.
  destruct (label_head b (path ++ [s])) as [tail Hl];
    [by destruct path|].
  rewrite El in Hl. simpl in Hl. subst label.
  pose proof (add_names Q (1045%N :: tail) sx None st (HQ tail) Hall) as H1.
  destruct (add (1045%N :: tail) sx None st) as [node st1]. simpl in *.
  apply IH. by rewrite link_people.
Qed.

Lemma record_rank_names (Q : jsstring → Prop) conn r st :
  Forall (λ p, Q (name p)) (s_people st) →
  Forall (λ p, Q (name p)) (s_people (record_rank conn r st)).
Proof.
  intros Hall. unfold record_rank.
  destruct (conn_rank conn) as [rank|]; [|done]. case_decide; [done|].
  simpl. apply Forall_forall. intros p [i Hp]%list_elem_of_lookup.
  destruct (decide (i = r)) as [->|Hne].
  - rewrite list_lookup_alter_eq in Hp.
    destruct (s_people st !! r) as [q|] eqn:Hq; [|done].
    injection Hp as <-. simpl.
    eapply (proj1 (Forall_forall _ _) Hall), list_elem_of_lookup_2, Hq.
  - rewrite list_lookup_alter_ne in Hp by done.
    eapply (proj1 (Forall_forall _ _) Hall), list_elem_of_lookup_2, Hp.
Qed.

Lemma synthesize_names (Q : jsstring → Prop) l conn r _id :
  Q (root_name (spec_base l)) → Q (root_name (spec_base r)) →
  (∀ tail, Q (1045%N :: tail)) →
  Q (js "Общий прадед") → Q (js "Общая прабабушка") →
  Forall (λ p, Q (name p)) (s_people (synthesize l conn r _id)).
Proof.
  intros Hl Hr HQ Hgf Hgm. unfold synthesize, ensureChain.
  fold (root_name (spec_base l)). fold (root_name (spec_base r)).
  pose proof (add_names Q (root_name (spec_base l))
                (match spec_base l with he => male | she => female end) None
                (mkSynth _id [] [] ∅) Hl (Forall_nil_2 _)) as H0.
  destruct (add (root_name (spec_base l)) _ None (mkSynth _id [] [] ∅))
    as [root st0].
  pose proof (chain_steps_names Q (spec_base l) (spec_steps l) [] root st0
                HQ H0) as H1.
  destruct (chain_steps (spec_base l) [] (spec_steps l) root st0)
    as [leftNode st1].
  simpl in H1.
  pose proof (record_rank_names Q conn leftNode st1 H1) as H2.
  pose proof (add_names Q (root_name (spec_base r))
                (match spec_base r with he => male | she => female end) None
                _ Hr H2) as H3.
  destruct (add (root_name (spec_base r)) _ None
              (record_rank conn leftNode st1)) as [root' st3].
  pose proof (chain_steps_names Q (spec_base r) (spec_steps r) [] root' st3
                HQ H3) as H4.
  destruct (chain_steps (spec_base r) [] (spec_steps r) root' st3)
    as [rightNode st4].
  simpl in H4.
  pose proof (add_names Q (js "Общий прадед") male None st4 Hgf H4) as H5.
  destruct (add (js "Общий прадед") male None st4) as [commonGF st5].
  pose proof (add_names Q (js "Общая прабабушка") female None st5 Hgm H5)
    as H6.
  destruct (add (js "Общая прабабушка") female None st5) as [commonGM st6].
  simpl in *. unfold link_common. by rewrite !link_people.
Qed.

Lemma parseRelativeSpec_root tokens i spec :
  parseRelativeSpec tokens i = Ok spec →
  ∃ pron, tokens !! i = Some pron
          ∧ root_name (spec_base spec) = pronoun_root pron.
Proof.
  intros (pron & w & Hp & _ & _ & Hspec)%parseRelativeSpec_inv.
  exists pron. split; [done|].
  assert (spec_base spec = base_of pron) as ->.
  { by destruct Hspec as [[_ ->]|[[_ ->]|(_ & side & _ & ->)]]. }
  unfold base_of, pronoun_root. by case_decide.
Qed.

(** C5, as amended.  A successful parse returns the two collections and
    nothing else.  They come from [buildGraphFromSibling] on the two
    specifications read from the tokens; the first person is the root of
    the left pronoun ("Он" for "его", "Она" otherwise) and carries the
    first identifier issued, and the root of the right pronoun is among the
    persons, so that a caller finds the roots by their names; when the two
    pronouns stand for the same root, the first person is the only one
    called "Он" or "Она". *)
Theorem parse_returns_collections toLowerCase text _id g n :
  parseAdvancedKinship toLowerCase text _id = Ok (g, n) →
  (_id ≤ counter_max)%N →
  ∃ leftPron l conn r rightPron,
    tokenize (normalizeText toLowerCase text) !! O = Some leftPron
    ∧ parseRelativeSpec (tokenize (normalizeText toLowerCase text)) 0 = Ok l
    ∧ parseSiblingConnector (tokenize (normalizeText toLowerCase text))
        (spec_next l) = Ok conn
    ∧ tokenize (normalizeText toLowerCase text) !! conn_next conn
      = Some rightPron
    ∧ parseRelativeSpec (tokenize (normalizeText toLowerCase text))
        (conn_next conn) = Ok r
    ∧ (g, n) = buildGraphFromSibling l conn r _id
    ∧ (∃ p, out_people g !! O = Some p
            ∧ name p = pronoun_root leftPron ∧ id p = String_of_N _id)
    ∧ (∃ p, p ∈ out_people g ∧ name p = pronoun_root rightPron)
    ∧ (pronoun_root leftPron = pronoun_root rightPron →
       ∀ i p, out_people g !! i = Some p →
         name p = js "Он" ∨ name p = js "Она" → i = O).
Proof.
  unfold parseAdvancedKinship. case_decide; [done|].
  intros (l & conn & r & Hl & Hc & Hr & Hg)%parseTokens_Ok _.
  destruct (parseRelativeSpec_root _ _ _ Hl) as (leftPron & Hlp & Hlroot).
  destruct (parseRelativeSpec_root _ _ _ Hr) as (rightPron & Hrp & Hrroot).
  exists leftPron, l, conn, r, rightPron.
  split_and!; [done..| | |].
  - unfold buildGraphFromSibling in Hg. injection Hg as -> ->. simpl.
    destruct (synthesize_spec l conn r _id) as (Hinv & (p & Hp & Hn) & _).
    exists p. split_and!; [done|congruence|].
    rewrite (si_ids _ _ Hinv _ _ Hp). f_equal. lia.
  - unfold buildGraphFromSibling in Hg. injection Hg as -> ->. simpl.
    destruct (synthesize_spec l conn r _id) as (_ & _ & i & q & Hq & Hm).
    exists q. split; [by eapply list_elem_of_lookup_2|congruence].
  - intros Hsame i p Hp Hname.
    unfold buildGraphFromSibling in Hg. injection Hg as -> ->. simpl in Hp.
    destruct (synthesize_spec l conn r _id) as (Hinv & (p0 & Hp0 & Hn0) & _).
    destruct (decide (name p = pronoun_root leftPron)) as [Heq|Hne].
    + apply (si_named _ _ Hinv) in Hp, Hp0.
      rewrite Heq, <- Hlroot, <- Hn0 in Hp. congruence.
    + exfalso.
      pose proof (synthesize_names (λ nm, nm ≠ name p) l conn r _id) as Hall.
      eapply (proj1 (Forall_forall _ _)) in Hall;
        [by apply Hall|..|by eapply list_elem_of_lookup_2].
      * congruence.
      * rewrite Hrroot, <- Hsame. congruence.
      * intros tail. by destruct Hname as [-> | ->].
      * by destruct Hname as [-> | ->].
      * by destruct Hname as [-> | ->].
Qed.

Lemma same_pronoun_parses :
  parseAdvancedKinship lower_basic same_pronoun_phrase 1
  = Ok (same_pronoun_graph, 5%N).
Proof. vm_compute. reflexivity. Qed.

Lemma counter_one : (1 ≤ counter_max)%N.
Proof. vm_compute. discriminate. Qed.

Lemma parse_returns_collections_witness :
  ∃ leftPron l conn r rightPron,
    tokenize (normalizeText lower_basic same_pronoun_phrase) !! O
    = Some leftPron
    ∧ parseRelativeSpec
        (tokenize (normalizeText lower_basic same_pronoun_phrase)) 0 = Ok l
    ∧ parseSiblingConnector
        (tokenize (normalizeText lower_basic same_pronoun_phrase))
        (spec_next l) = Ok conn
    ∧ tokenize (normalizeText lower_basic same_pronoun_phrase)
        !! conn_next conn = Some rightPron
    ∧ parseRelativeSpec
        (tokenize (normalizeText lower_basic same_pronoun_phrase))
        (conn_next conn) = Ok r
    ∧ (same_pronoun_graph, 5%N) = buildGraphFromSibling l conn r 1
    ∧ (∃ p, out_people same_pronoun_graph !! O = Some p
            ∧ name p = pronoun_root leftPron ∧ id p = String_of_N 1)
    ∧ (∃ p, p ∈ out_people same_pronoun_graph
            ∧ name p = pronoun_root rightPron)
    ∧ (pronoun_root leftPron = pronoun_root rightPron →
       ∀ i p, out_people same_pronoun_graph !! i = Some p →
         name p = js "Он" ∨ name p = js "Она" → i = O).
Proof.
  exact (parse_returns_collections lower_basic same_pronoun_phrase 1
           same_pronoun_graph 5 same_pronoun_parses counter_one).
Defined.
